(** * LongCut transcription pipeline: credit ledger, speech-to-text cascade
      and job orchestrator

    Shallow embedding of
    - [supabase/migrations/20260111120000_ai_transcription_feature.sql]
      (the ledger's tables and stored procedures),
    - the Gemini transcription client ([transcribeAudio], [isRetryableError],
      [MAX_INLINE_SIZE_BYTES]),
    - [app/api/transcribe/process/route.ts] ([POST], [handleJobFailure]),
    - the status route ([handler], [getDefaultStage]) and the cancel route
      ([app/api/transcribe/cancel/route.ts], [POST]),
    - [lib/cobalt-client.ts] ([getYouTubeAudioUrl], [createAudioFile]),
    - the staged upload of the Gemini client ([uploadViaFilesApi]) and the
      merge of chunked transcriptions of the Whisper client
      ([mergeChunkedTranscriptions]).

    Conventions.  SQL [integer] and JS integral numbers are [Z].  Where a
    stored procedure can raise (a computation leaves the int4 range, an
    INSERT violates a foreign key), a predicate says on which calls it
    does ([consume_raises], [check_raises]), and what is stated of the
    procedure's answer is stated of the other calls.  A
    [uuid] or [text] is a [string].  A nullable column is an [option].
    Tables keyed by their primary key are [gmap]s; tables whose rows are
    selected by other columns are lists in insertion order.  A stored
    procedure is one transaction: it is a function from the database to a
    result and the next database. *)

From Stdlib Require Import ZArith String Ascii List Lia QArith Qround.
From stdpp Require Import base option list gmap strings.

Local Open Scope string_scope.
Local Open Scope list_scope.
Local Open Scope Z_scope.

(** ** The schema *)

Module Schema.

(** A [uuid] is kept as its text. *)
Abbreviation uuid := string (only parsing).

(** [transcription_usage.source]: CHECK (source IN ('subscription','topup')) *)
Inductive usage_source := subscription | topup.

Definition usage_source_eqb (a b : usage_source) : bool :=
  match a, b with
  | subscription, subscription | topup, topup => true
  | _, _ => false
  end.

(** [transcription_jobs.status] *)
Inductive job_status :=
  pending | downloading | transcribing | completed | failed | cancelled.

Definition job_status_eqb (a b : job_status) : bool :=
  match a, b with
  | pending, pending | downloading, downloading
  | transcribing, transcribing | completed, completed
  | failed, failed | cancelled, cancelled => true
  | _, _ => false
  end.

(** The columns of [profiles] the ledger reads and writes. *)
Record profile := {
  subscription_tier : string;            (* text NOT NULL *)
  transcription_minutes_topup : Z        (* integer NOT NULL, CHECK (>= 0) *)
}.

(** A row of [transcription_usage] (the generated [id] and [created_at]
    are left out: nothing selects on them). *)
Record usage_row := {
  u_user_id : uuid;
  u_job_id : uuid;
  minutes_used : Z;                      (* CHECK (minutes_used > 0) *)
  source : usage_source;
  period_start : option Z;               (* timestamptz, nullable *)
  period_end : option Z
}.

(** A row of [transcription_topup_purchases]. *)
Record purchase := {
  p_user_id : uuid;
  stripe_payment_intent_id : string;     (* UNIQUE *)
  minutes_purchased : Z;                 (* CHECK (> 0) *)
  amount_paid : Z                        (* CHECK (>= 0) *)
}.

(** One transcript segment, [{text, start, duration}]. *)
Record segment := { seg_text : string; seg_start : Q; seg_duration : Q }.

(** A row of [transcription_jobs]. *)
Record job := {
  j_user_id : uuid;
  youtube_id : string;
  status : job_status;
  error_message : option string;
  progress : Z;                          (* DEFAULT 0, CHECK 0..100 *)
  current_stage : option string;
  transcript_data : option (list segment);
  started_at : option Z;
  completed_at : option Z
}.

Record db := {
  profiles : gmap string profile;
  transcription_usage : list usage_row;
  transcription_topup_purchases : list purchase;
  transcription_jobs : gmap string job
}.

(** SQL [=] on nullable values: a comparison with NULL is not true. *)
Definition sql_eq (a b : option Z) : bool :=
  match a, b with
  | Some x, Some y => x =? y
  | _, _ => false
  end.

(** The CHECK constraints of the three ledger tables. *)
Definition profile_ok (p : profile) : Prop := 0 <= transcription_minutes_topup p.
Definition usage_row_ok (r : usage_row) : Prop := 0 < minutes_used r.

End Schema.
Export Schema.

(** ** The ledger's stored procedures *)

Module Ledger.

Definition sum_minutes (rows : list usage_row) : Z :=
  foldr (fun r acc => minutes_used r + acc) 0 rows.

(** [get_transcription_usage_in_period]:
    COALESCE(SUM(minutes_used), 0) over the user's subscription rows of
    exactly this period. *)
Definition in_period (p_user_id : uuid) (p_period_start p_period_end : option Z)
    (r : usage_row) : bool :=
  String.eqb (u_user_id r) p_user_id
  && usage_source_eqb (source r) subscription
  && sql_eq (period_start r) p_period_start
  && sql_eq (period_end r) p_period_end.

Definition get_transcription_usage_in_period
    (p_user_id : uuid) (p_period_start p_period_end : option Z) (d : db) : Z :=
  sum_minutes
    (List.filter (in_period p_user_id p_period_start p_period_end)
                 (transcription_usage d)).

(** The jsonb object [consume_transcription_minutes_atomically] returns,
    one constructor per RETURN statement. *)
Inductive consume_result :=
| NoProfile
| NotPro
| Insufficient (subscription_remaining topup_remaining total_remaining
                minutes_needed : Z)
| Consumed (minutes_from_subscription minutes_from_topup
            subscription_remaining topup_remaining : Z).

Definition allowed (r : consume_result) : bool :=
  match r with Consumed _ _ _ _ => true | _ => false end.

Definition reason (r : consume_result) : string :=
  match r with
  | NoProfile => "NO_PROFILE"
  | NotPro => "NOT_PRO"
  | Insufficient _ _ _ _ => "INSUFFICIENT_CREDITS"
  | Consumed _ _ _ _ => "OK"
  end.

(** The IF / ELSIF / ELSE that splits the consumption:
    [Some (from_subscription, from_topup)], or [None] for "not enough". *)
Definition split_consumption (v_subscription_remaining v_topup_minutes p_minutes : Z)
    : option (Z * Z) :=
  if v_subscription_remaining >=? p_minutes then
    Some (p_minutes, 0)
  else if v_subscription_remaining + v_topup_minutes >=? p_minutes then
    Some (v_subscription_remaining, p_minutes - v_subscription_remaining)
  else None.

Definition set_topup (n : Z) (p : profile) : profile :=
  {| subscription_tier := subscription_tier p;
     transcription_minutes_topup := n |}.

Definition add_topup (n : Z) (p : profile) : profile :=
  set_topup (transcription_minutes_topup p + n) p.

Definition with_usage (d : db) (rows : list usage_row) : db :=
  {| profiles := profiles d;
     transcription_usage := rows;
     transcription_topup_purchases := transcription_topup_purchases d;
     transcription_jobs := transcription_jobs d |}.

Definition with_profiles (d : db) (ps : gmap string profile) : db :=
  {| profiles := ps;
     transcription_usage := transcription_usage d;
     transcription_topup_purchases := transcription_topup_purchases d;
     transcription_jobs := transcription_jobs d |}.

Definition with_purchases (d : db) (l : list purchase) : db :=
  {| profiles := profiles d;
     transcription_usage := transcription_usage d;
     transcription_topup_purchases := l;
     transcription_jobs := transcription_jobs d |}.

(** INSERT INTO transcription_usage (user_id, job_id, minutes_used,
    source, period_start, period_end) VALUES (...), guarded by
    [IF minutes > 0]. *)
Definition usage_entry (p_user_id p_job_id : uuid) (minutes : Z)
    (src : usage_source) (p_period_start p_period_end : option Z) : usage_row :=
  {| u_user_id := p_user_id; u_job_id := p_job_id;
     minutes_used := minutes; source := src;
     period_start := p_period_start; period_end := p_period_end |}.

Definition record_usage (p_user_id p_job_id : uuid) (minutes : Z)
    (src : usage_source) (p_period_start p_period_end : option Z)
    (rows : list usage_row) : list usage_row :=
  if 0 <? minutes then
    rows ++ [ usage_entry p_user_id p_job_id minutes src
                p_period_start p_period_end ]
  else rows.

(** UPDATE profiles SET transcription_minutes_topup =
    transcription_minutes_topup + n WHERE id = uid *)
Definition update_topup (uid : uuid) (n : Z) (ps : gmap string profile)
    : gmap string profile :=
  alter (add_topup n) uid ps.

Definition consume_transcription_minutes_atomically
    (p_user_id p_job_id : uuid) (p_minutes p_subscription_limit : Z)
    (p_period_start p_period_end : option Z) (d : db)
    : consume_result * db :=
  match profiles d !! p_user_id with
  | None => (NoProfile, d)
  | Some prof =>
    if negb (String.eqb (subscription_tier prof) "pro") then (NotPro, d)
    else
      let v_topup_minutes := transcription_minutes_topup prof in
      let v_used_subscription :=
        get_transcription_usage_in_period p_user_id p_period_start p_period_end d in
      let v_subscription_remaining :=
        Z.max 0 (p_subscription_limit - v_used_subscription) in
      match split_consumption v_subscription_remaining v_topup_minutes p_minutes with
      | None =>
        (Insufficient v_subscription_remaining v_topup_minutes
           (v_subscription_remaining + v_topup_minutes) p_minutes, d)
      | Some (v_minutes_from_subscription, v_minutes_from_topup) =>
        let rows1 :=
          record_usage p_user_id p_job_id v_minutes_from_subscription
            subscription p_period_start p_period_end (transcription_usage d) in
        let rows2 :=
          record_usage p_user_id p_job_id v_minutes_from_topup
            topup p_period_start p_period_end rows1 in
        let ps :=
          if 0 <? v_minutes_from_topup
          then update_topup p_user_id (- v_minutes_from_topup) (profiles d)
          else profiles d in
        let v_topup_minutes' :=
          if 0 <? v_minutes_from_topup
          then v_topup_minutes - v_minutes_from_topup
          else v_topup_minutes in
        (Consumed v_minutes_from_subscription v_minutes_from_topup
           (v_subscription_remaining - v_minutes_from_subscription)
           v_topup_minutes',
         with_profiles (with_usage d rows2) ps)
      end
  end.

(** **** Where the procedure raises

    The procedure computes on [integer] (int4), and the table it inserts
    into references [transcription_jobs] by [job_id]: a statement whose
    result leaves the int4 range raises 'integer out of range', and an
    INSERT for a job id that has no row raises a foreign-key violation.
    The transaction is then rolled back: nothing is changed and nothing
    is returned.  The definition above is the procedure on the calls on
    which no statement raises; [consume_raises] says which calls raise.
    (A user with a profile is taken to be a user of [auth.users].) *)
Definition int4 (z : Z) : bool := (- 2 ^ 31 <=? z) && (z <? 2 ^ 31).

Definition consume_raises
    (p_user_id p_job_id : uuid) (p_minutes p_subscription_limit : Z)
    (p_period_start p_period_end : option Z) (d : db) : bool :=
  (* the arguments are [integer] *)
  negb (int4 p_minutes) || negb (int4 p_subscription_limit)
  || match profiles d !! p_user_id with
     | None => false
     | Some prof =>
       if negb (String.eqb (subscription_tier prof) "pro") then false
       else
         let v_topup_minutes := transcription_minutes_topup prof in
         let v_used_subscription :=
           get_transcription_usage_in_period p_user_id p_period_start
             p_period_end d in
         let v_subscription_remaining :=
           Z.max 0 (p_subscription_limit - v_used_subscription) in
         let no_job :=
           match transcription_jobs d !! p_job_id with
           | Some _ => false
           | None => true
           end in
         (* [SUM(minutes_used)::integer] and the subtraction *)
         negb (int4 v_used_subscription)
         || negb (int4 (p_subscription_limit - v_used_subscription))
         || (if v_subscription_remaining >=? p_minutes
             then
               (* the INSERT of the 'subscription' row, and
                  [subscription_remaining] of the answer *)
               ((0 <? p_minutes) && no_job)
               || negb (int4 (v_subscription_remaining - p_minutes))
             else
               (* the sum of the ELSIF condition, and the INSERT of the
                  'topup' row, made whenever the sum suffices *)
               negb (int4 (v_subscription_remaining + v_topup_minutes))
               || ((v_subscription_remaining + v_topup_minutes >=? p_minutes)
                   && no_job))
     end.

(** [refund_transcription_minutes]: the FOR loop over the job's rows,
    then the DELETE. *)
Definition of_job (p_job_id : uuid) (r : usage_row) : bool :=
  String.eqb (u_job_id r) p_job_id.

Definition refund_row (acc : gmap string profile * Z) (v_usage : usage_row)
    : gmap string profile * Z :=
  let ps :=
    if usage_source_eqb (source v_usage) topup
    then update_topup (u_user_id v_usage) (minutes_used v_usage) (fst acc)
    else fst acc in
  (ps, snd acc + minutes_used v_usage).

Record refund_result := { refund_success : bool; minutes_refunded : Z }.

Definition refund_transcription_minutes (p_job_id : uuid) (d : db)
    : refund_result * db :=
  let rows := List.filter (of_job p_job_id) (transcription_usage d) in
  let '(ps, v_total_refunded) := foldl refund_row (profiles d, 0) rows in
  ({| refund_success := true; minutes_refunded := v_total_refunded |},
   with_profiles
     (with_usage d
        (List.filter (fun r => negb (of_job p_job_id r)) (transcription_usage d)))
     ps).

(** [add_transcription_topup_credits].  The INSERT can violate the CHECK
    constraints of [transcription_topup_purchases]; PostgreSQL then raises
    and the transaction leaves the database as it was.  It tests the
    CHECK constraints of a table in the order of their names, so when both
    fail the one on [amount_paid] is named.  The reference of [user_id] to
    [auth.users] and the range of int4 are not modelled; the code raises
    there as well, so [Returned] is to be read with a user of
    [auth.users] and a balance that stays within int4. *)
Inductive sql_outcome (A : Type) :=
| Returned (a : A)
| Raised (constraint : string).
Arguments Returned {A} a.
Arguments Raised {A} constraint.

Record topup_result := {
  topup_success : bool;
  already_processed : bool;
  minutes_added : option Z;
  new_balance : option Z                 (* NULL when there is no profile row *)
}.

Definition purchase_exists (pi : string) (d : db) : bool :=
  existsb (fun p => String.eqb (stripe_payment_intent_id p) pi)
          (transcription_topup_purchases d).

Definition balance_of (uid : uuid) (d : db) : option Z :=
  transcription_minutes_topup <$> (profiles d !! uid).

(** The minutes of a job's rows that were drawn from one bucket of one
    user. *)
Definition charged (src : usage_source) (jobId userId : uuid)
    (rows : list usage_row) : Z :=
  sum_minutes
    (List.filter (fun r => String.eqb (u_job_id r) jobId
                           && usage_source_eqb (source r) src
                           && String.eqb (u_user_id r) userId) rows).

Definition add_transcription_topup_credits
    (p_user_id : uuid) (p_stripe_payment_intent_id : string)
    (p_minutes p_amount_paid : Z) (d : db)
    : sql_outcome (topup_result * db) :=
  if purchase_exists p_stripe_payment_intent_id d then
    Returned ({| topup_success := true; already_processed := true;
                 minutes_added := None;
                 new_balance := balance_of p_user_id d |}, d)
  else if negb (0 <=? p_amount_paid) then
    Raised "transcription_topup_purchases_amount_paid_check"
  else if negb (0 <? p_minutes) then
    Raised "transcription_topup_purchases_minutes_purchased_check"
  else
    let d1 :=
      with_purchases d
        (transcription_topup_purchases d ++
           [ {| p_user_id := p_user_id;
                stripe_payment_intent_id := p_stripe_payment_intent_id;
                minutes_purchased := p_minutes;
                amount_paid := p_amount_paid |} ]) in
    let d2 := with_profiles d1 (update_topup p_user_id p_minutes (profiles d1)) in
    Returned ({| topup_success := true; already_processed := false;
                 minutes_added := Some p_minutes;
                 new_balance := balance_of p_user_id d2 |}, d2).

End Ledger.

(** ** The Gemini transcription client *)

Module Gemini.

(** *** Strings, as the client uses them *)

(** [hay.includes(needle)] *)
Fixpoint includes (needle hay : string) : bool :=
  String.prefix needle hay
  || match hay with
     | EmptyString => false
     | String _ rest => includes needle rest
     end.

(** [toLowerCase], on the ASCII letters. *)
Definition lower_ascii (c : ascii) : ascii :=
  let n := nat_of_ascii c in
  if (Nat.leb 65 n && Nat.leb n 90)%bool then ascii_of_nat (n + 32) else c.

Fixpoint toLowerCase (s : string) : string :=
  match s with
  | EmptyString => EmptyString
  | String c rest => String (lower_ascii c) (toLowerCase rest)
  end.

(** *** Constants *)

Definition TRANSCRIPTION_MODELS : list string :=
  [ "gemini-3-flash-preview"; "gemini-2.5-flash-lite"; "gemini-3-pro-preview" ].

Definition MAX_INLINE_SIZE_BYTES : Z := 20 * 1024 * 1024.
Definition MAX_RETRIES : Z := 3.
Definition INITIAL_RETRY_DELAY_MS : Z := 1000.
Definition MAX_FILE_SIZE : Z := 520 * 1024 * 1024.

Definition SUPPORTED_FORMATS : list string :=
  [ "mp3"; "wav"; "aiff"; "aac"; "ogg"; "flac"; "m4a"; "webm"; "mpeg";
    "mpga"; "oga" ].

(** *** Thrown values and [isRetryableError] *)

(** A property of a thrown object that the classifier reads:
    absent (undefined or null), a number, or some other value. *)
Inductive js_field := FAbsent | FNum (z : Z) | FOther.

(** What a [catch] receives: a falsy value (with what [String(error)]
    prints for it), or another value: whether it is an [Error], its message
    ([error.message] for an [Error], [String(error)] otherwise) and its
    [status] and [code]. *)
Inductive thrown :=
| Falsy (printed : string)
| Thrown (instanceofError : bool) (message : string) (status code : js_field).

Definition is_num (f : js_field) (n : Z) : bool :=
  match f with FNum z => Z.eqb z n | _ => false end.

(** [a ?? b] *)
Definition nullish (a b : js_field) : js_field :=
  match a with FAbsent => b | _ => a end.

Definition isRetryableError (error : thrown) : bool :=
  match error with
  | Falsy _ => false
  | Thrown _ message st cd =>
    let status := nullish st cd in
    is_num status 503
    || is_num status 429
    || is_num status 500
    || includes "503" message
    || includes "429" message
    || includes "overload" (toLowerCase message)
    || includes "rate limit" (toLowerCase message)
    || includes "quota" (toLowerCase message)
  end.

(** [error instanceof Error ? error : new Error(String(error))] *)
Definition asError (error : thrown) : thrown :=
  match error with
  | Falsy printed => Thrown true printed FAbsent FAbsent
  | Thrown true _ _ _ => error
  | Thrown false message _ _ => Thrown true message FAbsent FAbsent
  end.

(** *** Files and validation *)

(** A [Blob] has a size; a [File] also has a name and a type. *)
Record audio_file := {
  size : Z;
  file_name : option string;             (* [None] for a plain Blob *)
  file_type : string
}.

(** [filename.split('.').pop()]: what follows the last dot, or the whole
    name when it has none. *)
Fixpoint last_component (s acc : string) : string :=
  match s with
  | EmptyString => acc
  | String c rest =>
    if Ascii.eqb c "."%char then last_component rest EmptyString
    else last_component rest (acc ++ String c EmptyString)%string
  end.

Definition isSupportedFormat (filename : string) : bool :=
  let ext := toLowerCase (last_component filename EmptyString) in
  existsb (String.eqb ext) SUPPORTED_FORMATS.

Inductive validation := Valid | Invalid (error : string).

(** [validateAudioFile].  The "too large" message of the code also prints
    the size in MB, to one decimal, between its two sentences; that
    number is left out here. *)
Definition validateAudioFile (file : option audio_file) : validation :=
  match file with
  | None => Invalid "No file provided"
  | Some f =>
    if Z.eqb (size f) 0 then Invalid "File is empty"
    else if Z.gtb (size f) MAX_FILE_SIZE
         then Invalid "File too large. Maximum is 520MB."
    else match file_name f with
         | Some name =>
           if negb (isSupportedFormat name)
           then Invalid
                  ("Unsupported format. Supported: "
                     ++ String.concat ", " SUPPORTED_FORMATS)
           else Valid
         | None => Valid
         end
  end.

(** *** Transfer and cascade *)

Inductive transfer := Inline | FilesApi.

(** [const useFilesApi = audioFile.size > MAX_INLINE_SIZE_BYTES] *)
Definition useFilesApi (f : audio_file) : bool :=
  Z.gtb (size f) MAX_INLINE_SIZE_BYTES.

Definition transfer_of (f : audio_file) : transfer :=
  if useFilesApi f then FilesApi else Inline.

(** The part handed to the model: the encoded bytes, or the handle of the
    uploaded file. *)
Inductive audio_part :=
| inlineData (f : audio_file)
| fileData (fileUri : string).

Record TranscriptionResult := {
  segments : list segment;
  language : string;
  duration : Q;
  rawText : string
}.

(** What the client does that the outside can see: each call with what
    came back, and each pause. *)
Inductive client_event :=
| Encoded (f : audio_file)
| Uploaded (f : audio_file)
| Tried (modelName : string) (attempt : Z) (part : audio_part)
        (outcome : thrown + TranscriptionResult)
| Slept (ms : Z).

Definition generic_failure : thrown :=
  Thrown true "Gemini transcription failed after all retries" FAbsent FAbsent.

(** An event of the calls of one model: a call on this model with this
    part, numbered below [MAX_RETRIES], or a pause. *)
Definition on_model (m : string) (part : audio_part) (ev : client_event) : Prop :=
  match ev with
  | Tried m' a part' _ => m' = m /\ part' = part /\ 0 <= a < MAX_RETRIES
  | Slept _ => True
  | _ => False
  end.

Section Client.

(** The provider: its state, one generation call
    ([executeTranscription]) and one staged upload with its readiness
    poll ([uploadViaFilesApi]). *)
Context {provider : Type}.
Variable executeTranscription :
  string -> audio_part -> provider -> (thrown + TranscriptionResult) * provider.
Variable uploadViaFilesApi :
  audio_file -> provider -> (thrown + string) * provider.
Variable GEMINI_API_KEY : option string.

Record cascade_state := {
  remote : provider;
  lastError : option thrown;
  log : list client_event
}.

(** The inner loop [for (attempt; attempt < MAX_RETRIES; attempt++)],
    entered with [remaining = MAX_RETRIES - attempt]. *)
Fixpoint attempts (remaining : nat) (modelName : string) (part : audio_part)
    (attempt : Z) (cs : cascade_state)
    : option TranscriptionResult * cascade_state :=
  match remaining with
  | O => (None, cs)
  | S k =>
    let '(outcome, remote') :=
      executeTranscription modelName part (remote cs) in
    let log1 := log cs ++ [Tried modelName attempt part outcome] in
    match outcome with
    | inr result =>
      (Some result,
       {| remote := remote'; lastError := lastError cs; log := log1 |})
    | inl error =>
      if isRetryableError error then
        let delay := INITIAL_RETRY_DELAY_MS * 2 ^ attempt in
        attempts k modelName part (attempt + 1)
          {| remote := remote'; lastError := Some (asError error);
             log := log1 ++ [Slept delay] |}
      else
        (None,
         {| remote := remote'; lastError := Some (asError error);
            log := log1 |})
    end
  end.

(** The outer loop [for (const modelName of models)] and the final
    [throw lastError || new Error(...)]. *)
Fixpoint cascade (models : list string) (part : audio_part)
    (cs : cascade_state) : (thrown + TranscriptionResult) * cascade_state :=
  match models with
  | [] => (inl (default generic_failure (lastError cs)), cs)
  | modelName :: rest =>
    match attempts (Z.to_nat MAX_RETRIES) modelName part 0 cs with
    | (Some result, cs') => (inr result, cs')
    | (None, cs') => cascade rest part cs'
    end
  end.

(** **** The cascade, in the words of its description

    One model, from attempt [a] on: a success ends the cascade; an error
    that is not retryable ends this model at once; a retryable error is
    followed by a pause of [INITIAL_RETRY_DELAY_MS * 2 ^ a] and the next
    attempt on the same model, up to [MAX_RETRIES] attempts. *)
Inductive model_run (m : string) (part : audio_part)
    : Z -> provider -> list client_event -> option TranscriptionResult
      -> provider -> Prop :=
| run_success a p r p' :
    a < MAX_RETRIES ->
    executeTranscription m part p = (inr r, p') ->
    model_run m part a p [Tried m a part (inr r)] (Some r) p'
| run_fatal a p e p' :
    a < MAX_RETRIES ->
    executeTranscription m part p = (inl e, p') ->
    isRetryableError e = false ->
    model_run m part a p [Tried m a part (inl e)] None p'
| run_retry a p e p' l res p'' :
    a < MAX_RETRIES ->
    executeTranscription m part p = (inl e, p') ->
    isRetryableError e = true ->
    model_run m part (a + 1) p' l res p'' ->
    model_run m part a p
      (Tried m a part (inl e) :: Slept (INITIAL_RETRY_DELAY_MS * 2 ^ a) :: l)
      res p''
| run_exhausted p :
    model_run m part MAX_RETRIES p [] None p.

(** The models in order: the first success is the result; when no model
    is left there is none. *)
Inductive cascade_run (part : audio_part)
    : list string -> provider -> list client_event
      -> option TranscriptionResult -> provider -> Prop :=
| cascade_found m rest p l r p' :
    model_run m part 0 p l (Some r) p' ->
    cascade_run part (m :: rest) p l (Some r) p'
| cascade_next m rest p l p' l' res p'' :
    model_run m part 0 p l None p' ->
    cascade_run part rest p' l' res p'' ->
    cascade_run part (m :: rest) p (l ++ l') res p''
| cascade_exhausted p :
    cascade_run part [] p [] None p.

(** The last error among the calls of a log. *)
Fixpoint last_failure (l : list client_event) (before : option thrown)
    : option thrown :=
  match l with
  | [] => before
  | Tried _ _ _ (inl e) :: rest => last_failure rest (Some (asError e))
  | _ :: rest => last_failure rest before
  end.

Definition returned (out : thrown + TranscriptionResult)
    : option TranscriptionResult :=
  match out with inr r => Some r | inl _ => None end.

(** A model that answers every call with a retryable error, and one that
    answers every call with a transcript. *)
Definition always_retryable (m : string) (part : audio_part) : Prop :=
  forall p, exists e p',
    executeTranscription m part p = (inl e, p') /\ isRetryableError e = true.

Definition always_succeeds (m : string) (part : audio_part) : Prop :=
  forall p, exists r p', executeTranscription m part p = (inr r, p').

(** An event that hands this part to a model, or a pause. *)
Definition sends (part : audio_part) (ev : client_event) : Prop :=
  match ev with
  | Tried _ _ part' _ => part' = part
  | Slept _ => True
  | _ => False
  end.

(** [options.model ? [options.model, ...others] : [...TRANSCRIPTION_MODELS]];
    an empty [options.model] is falsy. *)
Definition model_list (model : option string) : list string :=
  match model with
  | None | Some EmptyString => TRANSCRIPTION_MODELS
  | Some m =>
    m :: List.filter (fun m' => negb (String.eqb m' m)) TRANSCRIPTION_MODELS
  end.

Definition transcribeAudio (audioFile : audio_file) (model : option string)
    (p : provider) : (thrown + TranscriptionResult) * cascade_state :=
  let cs0 := {| remote := p; lastError := None; log := [] |} in
  match GEMINI_API_KEY with
  | None | Some EmptyString =>
    (inl (Thrown true "GEMINI_API_KEY environment variable is not set"
                 FAbsent FAbsent), cs0)
  | Some _ =>
    match validateAudioFile (Some audioFile) with
    | Invalid error => (inl (Thrown true error FAbsent FAbsent), cs0)
    | Valid =>
      if useFilesApi audioFile then
        match uploadViaFilesApi audioFile p with
        | (inl error, p') =>
          (inl error,
           {| remote := p'; lastError := None; log := [Uploaded audioFile] |})
        | (inr fileUri, p') =>
          cascade (model_list model) (fileData fileUri)
            {| remote := p'; lastError := None; log := [Uploaded audioFile] |}
        end
      else
        cascade (model_list model) (inlineData audioFile)
          {| remote := p; lastError := None; log := [Encoded audioFile] |}
    end
  end.

End Client.

End Gemini.

(** ** The job orchestrator: [POST /api/transcribe/process] *)

Module Orchestrator.
Import Ledger Gemini.

(** The [updates] object of [updateTranscriptionJobStatus]: a field that
    is absent leaves the column as it is. *)
Record job_update := {
  set_status : option job_status;
  set_progress : option Z;
  set_currentStage : option string;
  set_transcriptData : option (list segment);
  set_errorMessage : option string;
  set_startedAt : option Z;
  set_completedAt : option Z
}.

Definition keep {A} (new : option A) (old : A) : A := default old new.
Definition keep_opt {A} (new : option A) (old : option A) : option A :=
  match new with Some x => Some x | None => old end.

Definition apply_update (u : job_update) (j : job) : job :=
  {| j_user_id := j_user_id j;
     youtube_id := youtube_id j;
     status := keep (set_status u) (status j);
     error_message := keep_opt (set_errorMessage u) (error_message j);
     progress := keep (set_progress u) (progress j);
     current_stage := keep_opt (set_currentStage u) (current_stage j);
     transcript_data := keep_opt (set_transcriptData u) (transcript_data j);
     started_at := keep_opt (set_startedAt u) (started_at j);
     completed_at := keep_opt (set_completedAt u) (completed_at j) |}.

Definition with_jobs (d : db) (js : gmap string job) : db :=
  {| profiles := profiles d;
     transcription_usage := transcription_usage d;
     transcription_topup_purchases := transcription_topup_purchases d;
     transcription_jobs := js |}.

(** Modelled from the spec: [updateTranscriptionJobStatus] of
    lib/transcription-manager, which is not among the sources.  The
    Orchestrator mutates status, progress, stage and transcript of the one
    job row; the call sites pass exactly the columns to overwrite. *)
Definition updateTranscriptionJobStatus (jobId : string) (u : job_update)
    (d : db) : db :=
  with_jobs d (alter (apply_update u) jobId (transcription_jobs d)).

(** Modelled from the spec: [createTranscriptionJob], the submission
    endpoint's insert: a job is created in [pending], with the defaults of
    the table for the other columns. *)
Definition new_job (userId youtubeId : string) : job :=
  {| j_user_id := userId; youtube_id := youtubeId; status := pending;
     error_message := None; progress := 0; current_stage := None;
     transcript_data := None; started_at := None; completed_at := None |}.

Definition is_terminal (s : job_status) : bool :=
  match s with completed | cancelled | failed => true | _ => false end.

Definition is_cancellable (s : job_status) : bool :=
  match s with pending | downloading | transcribing => true | _ => false end.

(** Modelled from the spec: [cancelTranscriptionJob] of
    lib/transcription-manager: it flips the status (and nothing else of the
    job) to [cancelled] and refunds the job's minutes by the same refund as
    a failure. *)
Definition mark_cancelled : job_update :=
  {| set_status := Some cancelled; set_progress := None;
     set_currentStage := None; set_transcriptData := None;
     set_errorMessage := None; set_startedAt := None;
     set_completedAt := None |}.

Definition cancelTranscriptionJob (jobId : string) (d : db) : db :=
  snd (refund_transcription_minutes jobId
         (updateTranscriptionJobStatus jobId mark_cancelled d)).

(** What [extractYouTubeAudio] resolves to. *)
Record AudioExtractionResult := {
  byteLength : Z;
  filename : string;
  contentType : string;
  reported_size : Z
}.

(** [createAudioFile]: a [File] over the buffer. *)
Definition createAudioFile (r : AudioExtractionResult) : audio_file :=
  {| size := byteLength r; file_name := Some (filename r);
     file_type := contentType r |}.

Inductive stage := preparing | uploading | transcribing_stage | processing.

Record TranscriptionProgress := { p_stage : stage; p_progress : Z }.

(** *** Programs

    The handler makes one call after the other.  A program is the tree of
    those calls: each node is one call, with the rest of the handler as
    its continuation.  The calls are awaited, but for [FireUpdate]: a call
    of [updateTranscriptionJobStatus] that is fired and not awaited
    ([updateTranscriptionJobStatus(...).catch(console.error)]), so that
    the handler goes on while the write is still on its way. *)
Inductive prog (A : Type) : Type :=
| Ret (a : A)
| GetJob (jobId : string) (k : option job -> prog A)
| UpdateJob (jobId : string) (u : job_update) (k : prog A)
| FireUpdate (jobId : string) (u : job_update) (k : prog A)
| ExtractAudio (youtubeId : string) (k : option AudioExtractionResult -> prog A)
| Transcribe (file : audio_file)
    (k : list TranscriptionProgress * (thrown + TranscriptionResult) -> prog A)
| Consume (userId jobId : string) (minutes : Z) (k : consume_result -> prog A)
| Refund (jobId : string) (k : prog A).
Arguments Ret {A} a.
Arguments GetJob {A} jobId k.
Arguments UpdateJob {A} jobId u k.
Arguments FireUpdate {A} jobId u k.
Arguments ExtractAudio {A} youtubeId k.
Arguments Transcribe {A} file k.
Arguments Consume {A} userId jobId minutes k.
Arguments Refund {A} jobId k.

Fixpoint bind {A B} (p : prog A) (f : A -> prog B) : prog B :=
  match p with
  | Ret a => f a
  | GetJob jobId k => GetJob jobId (fun r => bind (k r) f)
  | UpdateJob jobId u k => UpdateJob jobId u (bind k f)
  | FireUpdate jobId u k => FireUpdate jobId u (bind k f)
  | ExtractAudio y k => ExtractAudio y (fun r => bind (k r) f)
  | Transcribe a k => Transcribe a (fun r => bind (k r) f)
  | Consume us jb m k => Consume us jb m (fun r => bind (k r) f)
  | Refund jobId k => Refund jobId (bind k f)
  end.

Notation "'await' x <~ p ;; q" := (bind p (fun x => q))
  (at level 10, x name, p at level 99, q at level 200, only parsing).
Notation "'await!' p ;; q" := (bind p (fun _ => q))
  (at level 10, p at level 99, q at level 200, only parsing).

Definition getTranscriptionJob (jobId : string) : prog (option job) :=
  GetJob jobId Ret.
Definition updateJob (jobId : string) (u : job_update) : prog unit :=
  UpdateJob jobId u (Ret tt).
Definition fireUpdate (jobId : string) (u : job_update) : prog unit :=
  FireUpdate jobId u (Ret tt).
Definition extractYouTubeAudio (youtubeId : string)
    : prog (option AudioExtractionResult) :=
  ExtractAudio youtubeId Ret.
Definition transcribeAudio (file : audio_file)
    : prog (list TranscriptionProgress * (thrown + TranscriptionResult)) :=
  Transcribe file Ret.
Definition consumeTranscriptionMinutes (userId jobId : string) (minutes : Z)
    : prog consume_result :=
  Consume userId jobId minutes Ret.
Definition refundTranscriptionMinutes (jobId : string) : prog unit :=
  Refund jobId (Ret tt).

(** The JSON responses of the handler. *)
Inductive response :=
| BadRequest                             (* 400, Missing or invalid jobId *)
| NotFound                               (* 404, Job not found *)
| AlreadyTerminal (s : job_status)       (* 200, success, Job already s *)
| DownloadFailed                         (* 500, Failed to download audio *)
| TranscriptionFailed                    (* 500, Transcription failed *)
| Completed (segmentCount : nat) (dur : Q) (lang : string)  (* 200 *)
| InternalError.                         (* 500, the outer catch *)

Definition http_status (r : response) : Z :=
  match r with
  | BadRequest => 400
  | NotFound => 404
  | AlreadyTerminal _ | Completed _ _ _ => 200
  | DownloadFailed | TranscriptionFailed | InternalError => 500
  end.

Definition success (r : response) : bool :=
  match r with AlreadyTerminal _ | Completed _ _ _ => true | _ => false end.

Definition reported_status (r : response) : option job_status :=
  match r with
  | AlreadyTerminal s => Some s
  | Completed _ _ _ => Some completed
  | _ => None
  end.

(** The request: a body that does not parse, or a body whose [jobId] is a
    string ([None]: missing, or not a string). *)
Inductive request := Malformed | Body (jobId : option string).

(** The [updates] objects of the handler's calls of
    [updateTranscriptionJobStatus]. *)
Definition mark_downloading (now : Z) : job_update :=
  {| set_status := Some downloading; set_progress := Some 10;
     set_currentStage := Some "Downloading audio from YouTube";
     set_transcriptData := None; set_errorMessage := None;
     set_startedAt := Some now; set_completedAt := None |}.

Definition mark_transcribing : job_update :=
  {| set_status := Some transcribing; set_progress := Some 30;
     set_currentStage := Some "Transcribing audio with AI";
     set_transcriptData := None; set_errorMessage := None;
     set_startedAt := None; set_completedAt := None |}.

(** The progress callback's update:
    [30 + Math.floor(progress.progress * 0.6)] and the stage label. *)
Definition progress_update (p : TranscriptionProgress) : job_update :=
  {| set_status := None;
     set_progress := Some (30 + (p_progress p * 6) / 10);
     set_currentStage :=
       Some match p_stage p with
            | uploading => "Uploading audio to AI"
            | transcribing_stage => "Transcribing audio with AI"
            | _ => "Processing transcript"
            end;
     set_transcriptData := None; set_errorMessage := None;
     set_startedAt := None; set_completedAt := None |}.

Definition mark_finalizing : job_update :=
  {| set_status := None; set_progress := Some 90;
     set_currentStage := Some "Finalizing transcript";
     set_transcriptData := None; set_errorMessage := None;
     set_startedAt := None; set_completedAt := None |}.

Definition mark_completed (now : Z) (transcriptionResult : TranscriptionResult)
    : job_update :=
  {| set_status := Some completed; set_progress := Some 100;
     set_currentStage := Some "Complete";
     set_transcriptData := Some (segments transcriptionResult);
     set_errorMessage := None; set_startedAt := None;
     set_completedAt := Some now |}.

Definition mark_failed (errorMessage : string) (now : Z) : job_update :=
  {| set_status := Some failed; set_progress := None;
     set_currentStage := None; set_transcriptData := None;
     set_errorMessage := Some errorMessage; set_startedAt := None;
     set_completedAt := Some now |}.

(** [handleJobFailure]: the status update, then the refund. *)
Definition handleJobFailure (jobId errorMessage : string) (now : Z) : prog unit :=
  await! updateJob jobId (mark_failed errorMessage now) ;;
  (* Refund any consumed credits *)
  refundTranscriptionMinutes jobId.

(** The progress callback: it fires the update and does not await it. *)
Definition onProgress (jobId : string) (p : TranscriptionProgress) : prog unit :=
  fireUpdate jobId (progress_update p).

Fixpoint forEach {A} (l : list A) (f : A -> prog unit) : prog unit :=
  match l with
  | [] => Ret tt
  | x :: rest => await! f x ;; forEach rest f
  end.

(** [Math.ceil(transcriptionResult.duration / 60)].  The code divides and
    rounds up on doubles; here the duration is the rational that the
    double denotes and the quotient is exact.  For a duration from 1 up
    to 2^53 the two agree: the quotient rounded to a double has the
    ceiling of the exact quotient.  They differ for a positive duration
    below 60 * 2^-1075, whose quotient rounds to 0; NaN and the infinities
    have no counterpart here. *)
Definition durationMinutes (result : TranscriptionResult) : Z :=
  Qceiling (Qdiv (duration result) (inject_Z 60)).

(** [POST].  [now] is the clock reading [new Date()].  [transcribeAudio]
    calls the progress callback while it runs; each call of the callback
    fires one update of the job, which the handler does not await. *)
Definition POST (now : Z) (req : request) : prog response :=
  match req with
  | Malformed => Ret InternalError
  | Body None | Body (Some EmptyString) => Ret BadRequest
  | Body (Some jobId) =>
    await job <~ getTranscriptionJob jobId ;;
    match job with
    | None => Ret NotFound
    | Some job =>
      (* Check if job is already completed or cancelled *)
      if is_terminal (status job) then Ret (AlreadyTerminal (status job))
      else
        await! updateJob jobId (mark_downloading now) ;;
        await audioResult <~ extractYouTubeAudio (youtube_id job) ;;
        match audioResult with
        | None =>
          await! handleJobFailure jobId
                   "Failed to download audio from YouTube" now ;;
          Ret DownloadFailed
        | Some audioResult =>
          await! updateJob jobId mark_transcribing ;;
          await outcome <~ transcribeAudio (createAudioFile audioResult) ;;
          await! forEach (fst outcome) (onProgress jobId) ;;
          match snd outcome with
          | inl geminiError =>
            await! handleJobFailure jobId "AI transcription failed" now ;;
            Ret TranscriptionFailed
          | inr transcriptionResult =>
            await! updateJob jobId mark_finalizing ;;
            await consumeResult <~
              consumeTranscriptionMinutes (j_user_id job) jobId
                (durationMinutes transcriptionResult) ;;
            (* if (!consumeResult.success): the error is logged, and
               "Don't fail the job, credits will be handled manually" *)
            await! updateJob jobId (mark_completed now transcriptionResult) ;;
            Ret (Completed (length (segments transcriptionResult))
                           (duration transcriptionResult)
                           (language transcriptionResult))
          end
        end
    end
  end.

(** *** Running one invocation

    The outside world of one invocation: the extraction service
    ([None]: [extractYouTubeAudio] throws), the transcription client with
    the progress it reports on the way, and the billing data the ledger is
    called with. *)
Record environment := {
  cobalt : string -> option AudioExtractionResult;
  gemini : audio_file ->
           list TranscriptionProgress * (thrown + TranscriptionResult);
  subscription_limit : string -> Z;
  billing_period : string -> option Z * option Z
}.

(** Modelled from the spec: [consumeTranscriptionMinutes] of
    lib/transcription-manager calls the atomic consume operation with the
    subscription limit and the billing-period bounds that the caller
    computes for the user; [success] is the operation's [allowed]. *)
Definition consume_for (e : environment) (userId jobId : string) (minutes : Z)
    (d : db) : consume_result * db :=
  consume_transcription_minutes_atomically userId jobId minutes
    (subscription_limit e userId)
    (fst (billing_period e userId)) (snd (billing_period e userId)) d.

(** Every awaited call, in the order the handler makes them. *)
Inductive effect :=
| JobFetched (jobId : string)
| JobUpdated (jobId : string) (u : job_update)
| AudioRequested (youtubeId : string)
| TranscriptionRequested (file : audio_file)
| MinutesConsumed (userId jobId : string) (minutes : Z)
| MinutesRefunded (jobId : string).

Record world := { database : db; effects : list effect }.

Definition did (ev : effect) (d : db) (w : world) : world :=
  {| database := d; effects := effects w ++ [ev] |}.

(** One invocation from its first call to its answer, on its own: every
    call is made against the database the call before left, and a fired
    write lands at once. *)
Fixpoint run {A} (e : environment) (p : prog A) (w : world) : A * world :=
  match p with
  | Ret a => (a, w)
  | GetJob jobId k =>
    run e (k (transcription_jobs (database w) !! jobId))
        (did (JobFetched jobId) (database w) w)
  | UpdateJob jobId u k =>
    run e k (did (JobUpdated jobId u)
                 (updateTranscriptionJobStatus jobId u (database w)) w)
  | FireUpdate jobId u k =>
    (* the fired write lands at once *)
    run e k (did (JobUpdated jobId u)
                 (updateTranscriptionJobStatus jobId u (database w)) w)
  | ExtractAudio y k =>
    run e (k (cobalt e y)) (did (AudioRequested y) (database w) w)
  | Transcribe f k =>
    run e (k (gemini e f)) (did (TranscriptionRequested f) (database w) w)
  | Consume userId jobId m k =>
    let '(r, d) := consume_for e userId jobId m (database w) in
    run e (k r) (did (MinutesConsumed userId jobId m) d w)
  | Refund jobId k =>
    run e k (did (MinutesRefunded jobId)
                 (snd (refund_transcription_minutes jobId (database w))) w)
  end.

Definition fresh (d : db) : world := {| database := d; effects := [] |}.

(** A series of updates of one job, in order. *)
Definition after_updates (jobId : string) (us : list job_update) (d : db) : db :=
  foldl (fun d u => updateTranscriptionJobStatus jobId u d) d us.

(** Is every write of a status failed or cancelled in these effects
    preceded by a refund of the same job?  [refunded] lists the jobs
    refunded so far. *)
Fixpoint refund_precedes_failure (refunded : list string) (l : list effect) : bool :=
  match l with
  | [] => true
  | MinutesRefunded jobId :: rest =>
    refund_precedes_failure (jobId :: refunded) rest
  | JobUpdated jobId u :: rest =>
    match set_status u with
    | Some failed | Some cancelled =>
      existsb (String.eqb jobId) refunded
      && refund_precedes_failure refunded rest
    | _ => refund_precedes_failure refunded rest
    end
  | _ :: rest => refund_precedes_failure refunded rest
  end.

(** *** Invocations side by side

    The handler keeps no state and takes no lock: any number of
    invocations, also of one job, may be under way, each making its calls
    one by one against the same database; a write that was fired lands at
    any later time, or never; an invocation may end at any point without
    further calls (it is stopped, or one of its awaited calls throws and
    the catch of the handler answers 500). *)

(** One call of an invocation: the database after it, the rest of the
    invocation, and the write it fires when it is a fired one.  [e] is
    what the outside answers to this call. *)
Definition advance {A} (e : environment) (d : db) (p : prog A)
    : option (db * prog A * list (string * job_update)) :=
  match p with
  | Ret _ => None
  | GetJob jobId k => Some (d, k (transcription_jobs d !! jobId), [])
  | UpdateJob jobId u k => Some (updateTranscriptionJobStatus jobId u d, k, [])
  | FireUpdate jobId u k => Some (d, k, [(jobId, u)])
  | ExtractAudio y k => Some (d, k (cobalt e y), [])
  | Transcribe f k => Some (d, k (gemini e f), [])
  | Consume userId jobId m k =>
    Some (snd (consume_for e userId jobId m d),
          k (fst (consume_for e userId jobId m d)), [])
  | Refund jobId k => Some (snd (refund_transcription_minutes jobId d), k, [])
  end.

(** The system: the database, the invocations under way and the writes
    that were fired and have not landed. *)
Record system := {
  store : db;
  inflight : list (prog response);
  unlanded : list (string * job_update)
}.

(** What can happen next. *)
Inductive action :=
| Submit (jobId userId youtubeId : string)   (* a job is created *)
| Invoke (now : Z) (req : request)           (* the handler is called *)
| Advance (i : nat) (e : environment)        (* invocation [i] makes its next call *)
| Land (n : nat)                             (* the fired write [n] lands *)
| Leave (i : nat)                            (* invocation [i] has answered, or ends early *)
| Cancel (jobId : string)                    (* the cancel route cancels the job *)
| Topup (userId paymentIntentId : string) (minutes amountPaid : Z).

(** The cancel route reads the status and then calls
    [cancelTranscriptionJob]; the status may have changed in between, so
    the cancellation is not tied here to the status it finds. *)
Definition act (a : action) (s : system) : option system :=
  match a with
  | Submit jobId userId youtubeId =>
    match transcription_jobs (store s) !! jobId with
    | None =>
      Some {| store := with_jobs (store s)
                         (<[jobId := new_job userId youtubeId]>
                            (transcription_jobs (store s)));
              inflight := inflight s; unlanded := unlanded s |}
    | Some _ => None
    end
  | Invoke now req =>
    Some {| store := store s; inflight := inflight s ++ [POST now req];
            unlanded := unlanded s |}
  | Advance i e =>
    match inflight s !! i with
    | Some p =>
      match advance e (store s) p with
      | Some (d', p', fired) =>
        Some {| store := d'; inflight := <[i := p']> (inflight s);
                unlanded := unlanded s ++ fired |}
      | None => None
      end
    | None => None
    end
  | Land n =>
    match unlanded s !! n with
    | Some (jobId, u) =>
      Some {| store := updateTranscriptionJobStatus jobId u (store s);
              inflight := inflight s; unlanded := delete n (unlanded s) |}
    | None => None
    end
  | Leave i =>
    Some {| store := store s; inflight := delete i (inflight s);
            unlanded := unlanded s |}
  | Cancel jobId =>
    match transcription_jobs (store s) !! jobId with
    | Some _ =>
      Some {| store := cancelTranscriptionJob jobId (store s);
              inflight := inflight s; unlanded := unlanded s |}
    | None => None
    end
  | Topup userId paymentIntentId minutes amountPaid =>
    match add_transcription_topup_credits userId paymentIntentId minutes
            amountPaid (store s) with
    | Returned (_, d') =>
      Some {| store := d'; inflight := inflight s; unlanded := unlanded s |}
    | Raised _ => None
    end
  end.

Definition sys_step (s s' : system) : Prop := exists a, act a s = Some s'.

(** Before any job is submitted: no job, no usage row (a usage row
    references its job), nothing under way. *)
Definition initial (s : system) : Prop :=
  transcription_jobs (store s) = ∅ /\ transcription_usage (store s) = []
  /\ inflight s = [] /\ unlanded s = [].

Inductive reachable : system -> Prop :=
| reach_initial s : initial s -> reachable s
| reach_step s s' : reachable s -> sys_step s s' -> reachable s'.

(** A series of actions, one after the other. *)
Fixpoint exec (acts : list action) (s : system) : option system :=
  match acts with
  | [] => Some s
  | a :: rest =>
    match act a s with
    | Some s' => exec rest s'
    | None => None
    end
  end.

(** An update that completes a job: status completed, progress 100 and
    the transcript at once. *)
Definition completing_update (u : job_update) : Prop :=
  set_status u = Some completed /\ set_progress u = Some 100
  /\ set_transcriptData u <> None.

(** An update that sets status completed or a transcript only as a
    completing update does. *)
Definition sound_update (u : job_update) : Prop :=
  set_status u = Some completed \/ set_transcriptData u <> None ->
  completing_update u.

(** A program all of whose updates, awaited or fired, are sound. *)
Fixpoint sound_prog {A} (p : prog A) : Prop :=
  match p with
  | Ret _ => True
  | GetJob _ k => forall r, sound_prog (k r)
  | UpdateJob _ u k => sound_update u /\ sound_prog k
  | FireUpdate _ u k => sound_update u /\ sound_prog k
  | ExtractAudio _ k => forall r, sound_prog (k r)
  | Transcribe _ k => forall r, sound_prog (k r)
  | Consume _ _ _ k => forall r, sound_prog (k r)
  | Refund _ k => sound_prog k
  end.

(** What holds of every reachable system: a completed job has its
    transcript, and every write that can still be made or land is
    sound. *)
Definition system_sound (s : system) : Prop :=
  (forall jid j, transcription_jobs (store s) !! jid = Some j ->
                 status j = completed -> transcript_data j <> None)
  /\ Forall (fun p : prog response => sound_prog p) (inflight s)
  /\ Forall (fun w : string * job_update => sound_update (snd w)) (unlanded s).

End Orchestrator.

(** ** Sample data *)

Module Scenario.
Import Ledger Gemini Orchestrator.

Definition pro_profile (topup_minutes : Z) : profile :=
  {| subscription_tier := "pro"; transcription_minutes_topup := topup_minutes |}.

Definition free_profile (topup_minutes : Z) : profile :=
  {| subscription_tier := "free"; transcription_minutes_topup := topup_minutes |}.

(** alice: Pro with 20 top-up minutes; bob: free tier with 20 top-up
    minutes; carol: Pro without top-up minutes.  One pending job each for
    alice and carol. *)
Definition sample_db : db :=
  {| profiles :=
       <["alice" := pro_profile 20]>
         (<["bob" := free_profile 20]> (<["carol" := pro_profile 0]> ∅));
     transcription_usage := [];
     transcription_topup_purchases := [];
     transcription_jobs :=
       <["job-1" := new_job "alice" "yt-1"]>
         (<["job-2" := new_job "carol" "yt-2"]> ∅) |}.

Definition january : option Z * option Z := (Some 100, Some 200).

Definition clip (bytes : Z) : audio_file :=
  {| size := bytes; file_name := Some "audio.mp3"; file_type := "audio/mpeg" |}.

Definition sample_transcript : TranscriptionResult :=
  {| segments := [ {| seg_text := "hello"; seg_start := 0; seg_duration := 5 |} ];
     language := "en";
     duration := inject_Z 125;
     rawText := "hello" |}.

Definition bad_gateway : thrown :=
  Thrown true "Bad Gateway" (FNum 502) FAbsent.
Definition overloaded : thrown :=
  Thrown true "The model is overloaded" (FNum 503) FAbsent.

(** A provider whose first model answers every call with [e] and whose
    other models answer with the sample transcript. *)
Definition first_model_fails (e : thrown) (modelName : string)
    (part : audio_part) (p : unit) : (thrown + TranscriptionResult) * unit :=
  if String.eqb modelName "gemini-3-flash-preview"
  then (inl e, p) else (inr sample_transcript, p).

Definition all_models_answer (modelName : string) (part : audio_part) (p : unit)
    : (thrown + TranscriptionResult) * unit :=
  (inr sample_transcript, p).

Definition upload_ok (f : audio_file) (p : unit) : (thrown + string) * unit :=
  (inr "files/abc", p).

(** An outside where the download and the transcription succeed (a clip of
    125 seconds, three minutes to charge) and the subscription allows one
    minute per period. *)
Definition sample_audio : AudioExtractionResult :=
  {| byteLength := 4096; filename := "audio.mp3"; contentType := "audio/mpeg";
     reported_size := 4096 |}.

Definition all_goes_well : environment :=
  {| cobalt := fun _ => Some sample_audio;
     gemini := fun _ =>
       ([ {| p_stage := transcribing_stage; p_progress := 40 |};
          {| p_stage := processing; p_progress := 100 |} ],
        inr sample_transcript);
     subscription_limit := fun _ => 1;
     billing_period := fun _ => january |}.

(** The sample database with a further job of alice that has failed. *)
Definition failed_job : job :=
  apply_update (mark_failed "AI transcription failed" 900)
               (new_job "alice" "yt-9").

Definition archive_db : db :=
  with_jobs sample_db (<["job-9" := failed_job]> (transcription_jobs sample_db)).

(** A system before any job is submitted. *)
Definition no_jobs_yet : system :=
  {| store := with_jobs sample_db ∅; inflight := []; unlanded := [] |}.

Definition download_fails : environment :=
  {| cobalt := fun _ => None;
     gemini := gemini all_goes_well;
     subscription_limit := fun _ => 1;
     billing_period := fun _ => january |}.

(** Carol's job is submitted and one invocation of the handler makes its
    ten calls (the fetch, the two status writes, the download, the
    transcription, the two progress writes it fires, the finalizing
    write, the consumption and the completing write); the first progress
    write lands only then. *)
Definition late_progress_write : list action :=
  [ Submit "job-2" "carol" "yt-2"; Invoke 1000 (Body (Some "job-2")) ]
  ++ repeat (Advance 0 all_goes_well) 10
  ++ [ Land 0 ].

(** Two invocations of carol's job overlap: the second one fetches the
    job, marks it downloading and fails to download; the first one then
    runs to its completing write; the second one then marks the job
    failed. *)
Definition overlapping_invocations : list action :=
  [ Submit "job-2" "carol" "yt-2";
    Invoke 1000 (Body (Some "job-2")); Invoke 1001 (Body (Some "job-2")) ]
  ++ repeat (Advance 1 download_fails) 3
  ++ repeat (Advance 0 all_goes_well) 10
  ++ [ Advance 1 download_fails ].

(** One invocation of alice's job is abandoned right after its
    consumption (one subscription minute and two top-up minutes), which
    leaves the job transcribing with its usage rows. *)
Definition abandoned_after_consumption : list action :=
  [ Submit "job-1" "alice" "yt-1"; Invoke 1000 (Body (Some "job-1")) ]
  ++ repeat (Advance 0 all_goes_well) 9
  ++ [ Leave 0 ].

Definition charged_db : db :=
  default sample_db (store <$> exec abandoned_after_consumption no_jobs_yet).

(** A second invocation of that job then fails to download and marks the
    job failed; its next call is the refund. *)
Definition failure_of_a_charged_job : list action :=
  abandoned_after_consumption
  ++ [ Invoke 2000 (Body (Some "job-1")) ]
  ++ repeat (Advance 0 download_fails) 4.

(** The state a schedule ends in, from the system without jobs. *)
Definition state_after (acts : list action) : system :=
  default no_jobs_yet (exec acts no_jobs_yet).

End Scenario.

(** ** The ledger's pre-flight check and its books *)

Module Accounting.
Import Ledger.

(** The jsonb object [check_transcription_minutes_available] returns; a
    key that a RETURN statement leaves out is [None]. *)
Record check_result := {
  chk_allowed : bool;
  chk_reason : string;
  chk_subscription_tier : option string;
  chk_subscription_remaining : Z;
  chk_topup_remaining : Z;
  chk_total_remaining : Z;
  chk_minutes_needed : option Z;
  chk_will_use_topup : option bool
}.

(** [check_transcription_minutes_available]: the same reads as the atomic
    consume operation, without lock and without writes. *)
Definition check_transcription_minutes_available
    (p_user_id : uuid) (p_minutes_needed p_subscription_limit : Z)
    (p_period_start p_period_end : option Z) (d : db) : check_result :=
  match profiles d !! p_user_id with
  | None =>
    {| chk_allowed := false; chk_reason := "NO_PROFILE";
       chk_subscription_tier := None;
       chk_subscription_remaining := 0; chk_topup_remaining := 0;
       chk_total_remaining := 0;
       chk_minutes_needed := None; chk_will_use_topup := None |}
  | Some prof =>
    let v_subscription_tier := subscription_tier prof in
    let v_topup_minutes := transcription_minutes_topup prof in
    if negb (String.eqb v_subscription_tier "pro") then
      {| chk_allowed := false; chk_reason := "NOT_PRO";
         chk_subscription_tier := Some v_subscription_tier;
         chk_subscription_remaining := 0; chk_topup_remaining := 0;
         chk_total_remaining := 0;
         chk_minutes_needed := None; chk_will_use_topup := None |}
    else
      let v_used_subscription :=
        get_transcription_usage_in_period p_user_id p_period_start p_period_end d in
      let v_subscription_remaining :=
        Z.max 0 (p_subscription_limit - v_used_subscription) in
      let v_total_remaining := v_subscription_remaining + v_topup_minutes in
      {| chk_allowed := v_total_remaining >=? p_minutes_needed;
         chk_reason :=
           if v_total_remaining >=? p_minutes_needed
           then "OK" else "INSUFFICIENT_CREDITS";
         chk_subscription_tier := None;
         chk_subscription_remaining := v_subscription_remaining;
         chk_topup_remaining := v_topup_minutes;
         chk_total_remaining := v_total_remaining;
         chk_minutes_needed := Some p_minutes_needed;
         chk_will_use_topup :=
           Some ((v_subscription_remaining <? p_minutes_needed)
                 && (0 <? v_topup_minutes)) |}
  end.

(** Where the check raises: an argument or a computed value outside
    int4.  The sum is [integer], cast from the [bigint] that [SUM] gives;
    the total is computed on every call that finds a Pro profile, also
    when the subscription alone would do.  [check_transcription_minutes_available]
    above is the procedure on the calls where no statement raises. *)
Definition check_raises (p_user_id : uuid)
    (p_minutes_needed p_subscription_limit : Z)
    (p_period_start p_period_end : option Z) (d : db) : bool :=
  negb (int4 p_minutes_needed) || negb (int4 p_subscription_limit)
  || match profiles d !! p_user_id with
     | None => false
     | Some prof =>
       if negb (String.eqb (subscription_tier prof) "pro") then false
       else
         let v_topup_minutes := transcription_minutes_topup prof in
         let v_used_subscription :=
           get_transcription_usage_in_period p_user_id p_period_start
             p_period_end d in
         let v_subscription_remaining :=
           Z.max 0 (p_subscription_limit - v_used_subscription) in
         negb (int4 v_used_subscription)
         || negb (int4 (p_subscription_limit - v_used_subscription))
         || negb (int4 (v_subscription_remaining + v_topup_minutes))
     end.

(** The CHECK and UNIQUE constraints of the ledger's tables, on a whole
    database. *)
Definition purchase_ok (p : purchase) : Prop :=
  0 < minutes_purchased p /\ 0 <= amount_paid p.

Definition db_ok (d : db) : Prop :=
  (forall uid p, profiles d !! uid = Some p -> profile_ok p)
  /\ Forall usage_row_ok (transcription_usage d)
  /\ Forall purchase_ok (transcription_topup_purchases d)
  /\ NoDup (map stripe_payment_intent_id (transcription_topup_purchases d)).

(** The books of one user's top-up minutes: what was bought, what is
    recorded as used, what is left. *)
Definition purchased (userId : uuid) (d : db) : Z :=
  foldr (fun p acc => minutes_purchased p + acc) 0
    (List.filter (fun p => String.eqb (p_user_id p) userId)
                 (transcription_topup_purchases d)).

Definition topup_used (userId : uuid) (d : db) : Z :=
  sum_minutes
    (List.filter (fun r => usage_source_eqb (source r) topup
                           && String.eqb (u_user_id r) userId)
                 (transcription_usage d)).

Definition topup_left (userId : uuid) (d : db) : Z :=
  default 0 (balance_of userId d).

(** Minutes that were on the balance without a recorded purchase: the
    three operations keep this number. *)
Definition unbought (userId : uuid) (d : db) : Z :=
  topup_left userId d + topup_used userId d - purchased userId d.

End Accounting.

(** ** Reading the client's log *)

Module Trace.
Import Gemini.

(** The generation calls of a log, and the time it spends in pauses. *)
Definition is_call (ev : client_event) : bool :=
  match ev with Tried _ _ _ _ => true | _ => false end.

Definition calls (l : list client_event) : nat :=
  length (List.filter is_call l).

Fixpoint paused (l : list client_event) : Z :=
  match l with
  | [] => 0
  | Slept ms :: rest => ms + paused rest
  | _ :: rest => paused rest
  end.

(** A call that came back with a transcript. *)
Definition answered (ev : client_event) : bool :=
  match ev with Tried _ _ _ (inr _) => true | _ => false end.

(** A name without a dot. *)
Fixpoint dotless (s : string) : bool :=
  match s with
  | EmptyString => true
  | String c rest => negb (Ascii.eqb c "."%char) && dotless rest
  end.

(** A file that [transcribeAudio] turns down before it sends anything. *)
Definition turned_down (f : audio_file) : Prop :=
  size f = 0
  \/ size f > MAX_FILE_SIZE
  \/ exists name, file_name f = Some name /\ isSupportedFormat name = false.

End Trace.

(** ** Reading what an invocation did *)

Module Audit.
Import Ledger Gemini Orchestrator.

(** The progress values an invocation writes to its job, in order. *)
Fixpoint progress_writes (l : list effect) : list Z :=
  match l with
  | [] => []
  | JobUpdated _ u :: rest =>
    match set_progress u with
    | Some z => z :: progress_writes rest
    | None => progress_writes rest
    end
  | _ :: rest => progress_writes rest
  end.

(** The usage rows of the other jobs. *)
Definition rows_of_others (jobId : string) (d : db) : list usage_row :=
  List.filter (fun r => negb (of_job jobId r)) (transcription_usage d).

(** A job row after a series of updates. *)
Definition updated (us : list job_update) (j : job) : job :=
  foldl (fun j u => apply_update u j) j us.

End Audit.

(** ** The status route: [GET /api/transcribe/status] *)

Module StatusRoute.
Import Orchestrator.

(** What an awaited call gives: it throws, or it resolves. *)
Inductive awaited (A : Type) := Threw | Got (a : A).
Arguments Threw {A}.
Arguments Got {A} a.

(** Modelled from the spec: the job object of [getTranscriptionJob] of
    lib/transcription-manager, which is not among the sources: the row of
    [transcription_jobs], with its id and the columns of the table that
    the handler reads besides those of [job]. *)
Record job_view := {
  v_id : string;
  v_row : job;
  totalChunks : option Z;
  completedChunks : option Z;
  durationSeconds : option Z
}.

(** [a || b] on a string that may be absent. *)
Definition or_else (a : option string) (b : string) : string :=
  match a with
  | Some (String c rest) => String c rest
  | _ => b
  end.

Definition getDefaultStage (s : job_status) : string :=
  match s with
  | pending => "Queued for processing"
  | downloading => "Downloading audio"
  | transcribing => "Transcribing audio"
  | _ => "Processing"
  end.

(** The body of the 200 answer; a field that the handler does not set is
    [None]. *)
Record status_body := {
  r_jobId : string;
  r_status : job_status;
  r_progress : Z;
  r_youtubeId : string;
  r_currentStage : option string;
  r_chunks : option (Z * option Z);        (* totalChunks, completedChunks *)
  r_transcriptData : option (list segment);
  r_completedAt : option (option Z);
  r_errorMessage : option string;
  r_durationSeconds : option Z
}.

Inductive status_response :=
| AuthenticationRequired                   (* 401 *)
| JobIdRequired                            (* 400 *)
| JobNotFound                              (* 404 *)
| AccessDenied                             (* 403 *)
| StatusOk (body : status_body)            (* 200 *)
| StatusError.                             (* 500, the catch *)

(** [['pending', 'downloading', 'transcribing'].includes(job.status)] *)
Definition in_progress (s : job_status) : bool :=
  match s with pending | downloading | transcribing => true | _ => false end.

(** [handler]: [user] is the authenticated user's id, [jobId] the query
    parameter. *)
Definition handler (user : option string) (jobId : option string)
    (getTranscriptionJob : string -> awaited (option job_view))
    : status_response :=
  match user with
  | None => AuthenticationRequired
  | Some userId =>
    match jobId with
    | None | Some EmptyString => JobIdRequired
    | Some jobId =>
      match getTranscriptionJob jobId with
      | Threw => StatusError
      | Got None => JobNotFound
      | Got (Some v) =>
        let job := v_row v in
        (* Verify ownership *)
        if negb (String.eqb (j_user_id job) userId) then AccessDenied
        else
          StatusOk
            {| r_jobId := v_id v;
               r_status := status job;
               r_progress := progress job;
               r_youtubeId := youtube_id job;
               r_currentStage :=
                 if in_progress (status job)
                 then Some (or_else (current_stage job)
                                    (getDefaultStage (status job)))
                 else None;
               r_chunks :=
                 if in_progress (status job)
                 then match totalChunks v with
                      | Some n => if n >? 1 then Some (n, completedChunks v)
                                  else None
                      | None => None
                      end
                 else None;
               r_transcriptData :=
                 match status job, transcript_data job with
                 | completed, Some t => Some t
                 | _, _ => None
                 end;
               r_completedAt :=
                 match status job, transcript_data job with
                 | completed, Some _ => Some (completed_at job)
                 | _, _ => None
                 end;
               r_errorMessage :=
                 match status job with
                 | failed =>
                   Some (or_else (error_message job) "Transcription failed")
                 | _ => None
                 end;
               r_durationSeconds :=
                 match durationSeconds v with
                 | Some n => if n =? 0 then None else Some n
                 | None => None
                 end |}
      end
    end
  end.

End StatusRoute.

(** ** The cancel route: [POST /api/transcribe/cancel] *)

Module CancelRoute.
Import Orchestrator.

(** What the select of [id, user_id, status] by id gives. *)
Inductive selected :=
| SelectError
| NoRow
| Row (user_id : string) (st : job_status).

(** What the call of [cancelTranscriptionJob] gives: it resolves to a
    success or to a failure with its error, or it throws. *)
Inductive cancel_result :=
| CancelOk
| CancelFailed (error : string)
| CancelThrew.

Inductive cancel_response :=
| Unauthorized                             (* 401 *)
| InvalidJobId                             (* 400 *)
| FetchFailed                              (* 500, Failed to fetch job *)
| JobNotFound                              (* 404 *)
| NotOwner                                 (* 403 *)
| NotCancellable (st : job_status)         (* 400 *)
| CancelError (error : string)             (* 500 *)
| Cancelled                                (* 200 *)
| InternalError.                           (* 500, the catch *)

Section Route.

Variable select_job : string -> selected.
Variable cancelTranscriptionJob : string -> db -> cancel_result * db.

Definition POST (user : option string) (req : request) (d : db)
    : cancel_response * db :=
  match user with
  | None => (Unauthorized, d)
  | Some userId =>
    match req with
    | Malformed => (InternalError, d)
    | Body None | Body (Some EmptyString) => (InvalidJobId, d)
    | Body (Some jobId) =>
      (* Verify the job belongs to the user *)
      match select_job jobId with
      | SelectError => (FetchFailed, d)
      | NoRow => (JobNotFound, d)
      | Row user_id st =>
        if negb (String.eqb user_id userId) then (NotOwner, d)
        (* Check if job can be cancelled *)
        else if negb (is_cancellable st) then (NotCancellable st, d)
        else
          match cancelTranscriptionJob jobId d with
          | (CancelOk, d') => (Cancelled, d')
          | (CancelFailed error, d') => (CancelError error, d')
          | (CancelThrew, d') => (InternalError, d')
          end
      end
    end
  end.

End Route.

End CancelRoute.

(** ** The Cobalt client *)

Module Cobalt.

Record picker_item := { pk_type : string; pk_url : string }.

(** The JSON body of Cobalt's answer, by the fields the client reads;
    [c_error_code] is [data.error.code]. *)
Record CobaltResponse := {
  c_status : string;
  c_url : option string;
  c_filename : option string;
  c_picker : option (list picker_item);
  c_error_code : string
}.

(** The answer of the [fetch]. *)
Record http_answer := {
  ok : bool;
  http_code : Z;
  statusText : string;
  json : CobaltResponse
}.

Record AudioUrlResult := { au_url : string; au_filename : string }.

Definition INVALID_URL := "error.api.link.invalid".
Definition UNSUPPORTED_SERVICE := "error.api.service.unsupported".
Definition CONTENT_UNAVAILABLE := "error.api.content.unavailable".
Definition RATE_LIMITED := "error.api.rate_exceeded".
Definition FETCH_FAILED := "error.api.fetch.fail".
Definition YOUTUBE_AGE_RESTRICTED := "error.api.youtube.age_restricted".
Definition YOUTUBE_LOGIN_REQUIRED := "error.api.youtube.login_required".

Definition getErrorMessage (code : string) : string :=
  if String.eqb code INVALID_URL then "Invalid YouTube URL"
  else if String.eqb code UNSUPPORTED_SERVICE then "This service is not supported"
  else if String.eqb code CONTENT_UNAVAILABLE then "Video is unavailable or private"
  else if String.eqb code RATE_LIMITED
       then "Rate limit exceeded, please try again later"
  else if String.eqb code FETCH_FAILED then "Failed to fetch video data"
  else if String.eqb code YOUTUBE_AGE_RESTRICTED then "Video is age-restricted"
  else if String.eqb code YOUTUBE_LOGIN_REQUIRED then "Video requires YouTube login"
  else "Unknown error occurred".

(** The errors the client throws: the request failed (the message prints
    the HTTP status and its text), Cobalt answered with an error (the
    message is [Cobalt API error: <message> (<code>)]), or the answer has
    none of the expected forms. *)
Inductive cobalt_error :=
| RequestFailed (code : Z) (text : string)
| ApiError (message : string)
| UnexpectedFormat.

(** Is a string that may be absent truthy? *)
Definition truthy (s : option string) : bool :=
  match s with Some (String _ _) => true | _ => false end.

Definition mp3_name (youtubeId : string) : string :=
  (youtubeId ++ ".mp3")%string.

(** [getYouTubeAudioUrl], from the answer of its request on. *)
Definition getYouTubeAudioUrl (youtubeId : string) (response : http_answer)
    : cobalt_error + AudioUrlResult :=
  if negb (ok response)
  then inl (RequestFailed (http_code response) (statusText response))
  else
    let data := json response in
    if String.eqb (c_status data) "error" then
      let errorCode := c_error_code data in
      let errorMessage := getErrorMessage errorCode in
      inl (ApiError ("Cobalt API error: " ++ errorMessage ++ " ("
                       ++ errorCode ++ ")")%string)
    else
      let from_url :=
        if (String.eqb (c_status data) "tunnel"
            || String.eqb (c_status data) "redirect")
           && truthy (c_url data)
        then inr {| au_url := default EmptyString (c_url data);
                    au_filename :=
                      if truthy (c_filename data)
                      then default EmptyString (c_filename data)
                      else mp3_name youtubeId |}
        else inl UnexpectedFormat in
      match (if String.eqb (c_status data) "picker" then c_picker data else None)
      with
      | Some (item :: items) =>
        (* Find audio option in picker *)
        match List.find (fun p => String.eqb (pk_type p) "audio") (item :: items)
        with
        | Some audioOption =>
          inr {| au_url := pk_url audioOption;
                 au_filename := mp3_name youtubeId |}
        | None => from_url
        end
      | _ => from_url
      end.

End Cobalt.

(** ** The staged upload: [uploadViaFilesApi] *)

Module FilesApi.
Import Gemini.

(** A file as the Files API reports it. *)
Record remote_file := {
  rf_name : string;
  rf_state : string;
  rf_uri : string
}.

Section Upload.

Context {provider : Type}.
Variable uploadFile :
  audio_file -> provider -> (thrown + remote_file) * provider.
Variable getFile :
  string -> provider -> (thrown + remote_file) * provider.

(** [while (file.state === 'PROCESSING') { await sleep(2000); file = await
    fileManager.getFile(file.name); }].  The loop has no bound of its own:
    [fuel] bounds the polls that are looked at, and [None] says that the
    file is still processing after that many.  [slept] adds up the
    pauses. *)
Fixpoint wait_while_processing (fuel : nat) (file : remote_file)
    (p : provider) (slept : Z)
    : option ((thrown + remote_file) * provider * Z) :=
  if String.eqb (rf_state file) "PROCESSING" then
    match fuel with
    | O => None
    | S k =>
      match getFile (rf_name file) p with
      | (inl error, p') => Some (inl error, p', slept + 2000)
      | (inr file', p') => wait_while_processing k file' p' (slept + 2000)
      end
    end
  else Some (inr file, p, slept).

(** [uploadViaFilesApi]: the key, the upload, the wait and the check of
    the state; it resolves to the handle [file.uri]. *)
Definition uploadViaFilesApi (fuel : nat) (GEMINI_API_KEY : option string)
    (audioFile : audio_file) (p : provider)
    : option ((thrown + string) * provider * Z) :=
  match GEMINI_API_KEY with
  | None | Some EmptyString =>
    Some (inl (Thrown true "GEMINI_API_KEY environment variable is not set"
                      FAbsent FAbsent), p, 0)
  | Some _ =>
    match uploadFile audioFile p with
    | (inl error, p') => Some (inl error, p', 0)
    | (inr file, p') =>
      (* Wait for file to be processed *)
      match wait_while_processing fuel file p' 0 with
      | None => None
      | Some (inl error, p'', slept) => Some (inl error, p'', slept)
      | Some (inr file, p'', slept) =>
        if negb (String.eqb (rf_state file) "ACTIVE")
        then Some (inl (Thrown true ("File upload failed: " ++ rf_state file)
                               FAbsent FAbsent), p'', slept)
        else Some (inr (rf_uri file), p'', slept)
      end
    end
  end.

(** A Files API that reports every file as still processing. *)
Definition always_processing : Prop :=
  (forall f p, exists file p',
      uploadFile f p = (inr file, p') /\ rf_state file = "PROCESSING")
  /\ (forall name p, exists file p',
        getFile name p = (inr file, p') /\ rf_state file = "PROCESSING").

End Upload.

End FilesApi.

(** ** The merge of chunked transcriptions *)

Module Whisper.

Section Merge.

(** The numbers of the client, with the operations the merge applies to
    them: [a + b], [Math.max(a, b)], the literal [0] and the sign of a
    difference, [a - b < 0]. *)
Variable num : Type.
Variable add : num -> num -> num.
Variable max : num -> num -> num.
Variable zero : num.
Variable lt : num -> num -> bool.

Record TranscriptSegment := {
  text : string;
  start : num;
  duration : num
}.

Record TranscriptionResult := {
  segments : list TranscriptSegment;
  language : string;
  totalDuration : num;                   (* [duration] *)
  rawText : string
}.

(** An element of [results]. *)
Record chunk := { result : TranscriptionResult; offsetSeconds : num }.

(** [results.sort((a, b) => a.offsetSeconds - b.offsetSeconds)]: the sort
    is stable, chunks of equal offset stay in the order they came in. *)
Fixpoint insert (c : chunk) (sorted : list chunk) : list chunk :=
  match sorted with
  | [] => [c]
  | y :: rest =>
    if lt (offsetSeconds y) (offsetSeconds c) then y :: insert c rest
    else c :: y :: rest
  end.

Definition sort (results : list chunk) : list chunk :=
  foldr insert [] results.

(** [parts.join(sep)] *)
Fixpoint join (sep : string) (parts : list string) : string :=
  match parts with
  | [] => EmptyString
  | [p] => p
  | p :: rest => (p ++ sep ++ join sep rest)%string
  end.

(** [{ ...segment, start: segment.start + offsetSeconds }] *)
Definition rebase (offsetSeconds : num) (segment : TranscriptSegment)
    : TranscriptSegment :=
  {| text := text segment;
     start := add (start segment) offsetSeconds;
     duration := duration segment |}.

Definition rebased (c : chunk) : list TranscriptSegment :=
  map (rebase (offsetSeconds c)) (segments (result c)).

Definition mergeChunkedTranscriptions (results : list chunk)
    : string + TranscriptionResult :=
  match results with
  | [] => inl "No transcription results to merge"
  | [only] => inr (result only)
  | first :: _ =>
    (* Sort by offset *)
    let results := sort results in
    inr {| segments := flat_map rebased results;
           language := language (result (List.hd first results));
           totalDuration :=
             foldl (fun total c =>
                      max total
                          (add (offsetSeconds c) (totalDuration (result c))))
                   zero results;
           rawText := join " " (map (fun c => rawText (result c)) results) |}
  end.

(** Two chunks whose offsets differ. *)
Definition apart (a b : chunk) : Prop :=
  lt (offsetSeconds a) (offsetSeconds b) = true
  \/ lt (offsetSeconds b) (offsetSeconds a) = true.

Fixpoint offsets_differ (results : list chunk) : Prop :=
  match results with
  | [] => True
  | c :: rest => Forall (apart c) rest /\ offsets_differ rest
  end.

End Merge.

End Whisper.

(** ** Sample data for the routes *)

Module Samples.
Import Orchestrator.

(** Carol's pending job, as [getTranscriptionJob] gives it, and a fetch
    that knows this job only. *)
Definition carol_view : StatusRoute.job_view :=
  {| StatusRoute.v_id := "job-2";
     StatusRoute.v_row := new_job "carol" "yt-2";
     StatusRoute.totalChunks := Some 1;
     StatusRoute.completedChunks := Some 0;
     StatusRoute.durationSeconds := None |}.

Definition stored_views (jobId : string)
    : StatusRoute.awaited (option StatusRoute.job_view) :=
  if String.eqb jobId "job-2" then StatusRoute.Got (Some carol_view)
  else StatusRoute.Got None.

(** An answer of Cobalt with a picker: a video entry, then an audio
    entry. *)
Definition picker_answer : Cobalt.http_answer :=
  {| Cobalt.ok := true; Cobalt.http_code := 200; Cobalt.statusText := "OK";
     Cobalt.json :=
       {| Cobalt.c_status := "picker";
          Cobalt.c_url := None;
          Cobalt.c_filename := None;
          Cobalt.c_picker :=
            Some [ {| Cobalt.pk_type := "video";
                      Cobalt.pk_url := "https://cdn.example/v" |};
                   {| Cobalt.pk_type := "audio";
                      Cobalt.pk_url := "https://cdn.example/a" |} ];
          Cobalt.c_error_code := "" |} |}.

(** A Files API that never finishes processing. *)
Definition stuck_file : FilesApi.remote_file :=
  {| FilesApi.rf_name := "files/abc"; FilesApi.rf_state := "PROCESSING";
     FilesApi.rf_uri := "https://files.example/abc" |}.

Definition upload_stuck (f : Gemini.audio_file) (p : unit)
    : (Gemini.thrown + FilesApi.remote_file) * unit :=
  (inr stuck_file, p).

Definition poll_stuck (name : string) (p : unit)
    : (Gemini.thrown + FilesApi.remote_file) * unit :=
  (inr stuck_file, p).

(** A Files API whose upload is ready at the second poll. *)
Definition ready_file : FilesApi.remote_file :=
  {| FilesApi.rf_name := "files/abc"; FilesApi.rf_state := "ACTIVE";
     FilesApi.rf_uri := "https://files.example/abc" |}.

Definition poll_ready_at_second (name : string) (polls : nat)
    : (Gemini.thrown + FilesApi.remote_file) * nat :=
  match polls with
  | O => (inr stuck_file, 1%nat)
  | S _ => (inr ready_file, S polls)
  end.

Definition upload_counted (f : Gemini.audio_file) (polls : nat)
    : (Gemini.thrown + FilesApi.remote_file) * nat :=
  (inr stuck_file, polls).

(** Two chunks of a recording, with whole seconds: the first two minutes
    and what follows, each with a segment five seconds in. *)
Definition first_chunk : Whisper.chunk Z :=
  {| Whisper.result :=
       {| Whisper.segments :=
            [ {| Whisper.text := "hello"; Whisper.start := 5;
                 Whisper.duration := 3 |} ];
          Whisper.language := "en";
          Whisper.totalDuration := 120;
          Whisper.rawText := "hello" |};
     Whisper.offsetSeconds := 0 |}.

Definition second_chunk : Whisper.chunk Z :=
  {| Whisper.result :=
       {| Whisper.segments :=
            [ {| Whisper.text := "again"; Whisper.start := 5;
                 Whisper.duration := 4 |} ];
          Whisper.language := "en";
          Whisper.totalDuration := 40;
          Whisper.rawText := "again" |};
     Whisper.offsetSeconds := 120 |}.

End Samples.

(** * Properties *)

(** ** The credit ledger *)

Section LedgerFacts.
Import Ledger.

Lemma update_topup_lookup uid n (ps : gmap string profile) u :
  update_topup uid n ps !! u =
  if decide (uid = u) then add_topup n <$> ps !! u else ps !! u.
Proof.
  unfold update_topup. rewrite lookup_alter.
  destruct (decide (uid = u)) as [->|]; reflexivity.
Qed.

Lemma split_consumption_subscription s t m :
  s >= m -> split_consumption s t m = Some (m, 0).
Proof.
  intros H. unfold split_consumption.
  destruct (Z.geb_spec s m); [reflexivity | lia].
Qed.

Lemma split_consumption_mixed s t m :
  s < m <= s + t -> split_consumption s t m = Some (s, m - s).
Proof.
  intros H. unfold split_consumption.
  destruct (Z.geb_spec s m); [lia|].
  destruct (Z.geb_spec (s + t) m); [reflexivity | lia].
Qed.

Lemma split_consumption_short s t m :
  m > s + t -> 0 <= s -> 0 <= t -> split_consumption s t m = None.
Proof.
  intros H Hs Ht. unfold split_consumption.
  destruct (Z.geb_spec s m); [lia|].
  destruct (Z.geb_spec (s + t) m); [lia | reflexivity].
Qed.

Lemma alter_known (f : profile -> profile) uid (ps : gmap string profile) prof :
  ps !! uid = Some prof -> alter f uid ps = <[uid := f prof]> ps.
Proof.
  intros H. apply map_eq. intros u. rewrite lookup_alter, lookup_insert.
  destruct (decide (uid = u)) as [->|]; [rewrite H|]; reflexivity.
Qed.

Lemma db_eta (d : db) :
  {| profiles := profiles d;
     transcription_usage := transcription_usage d;
     transcription_topup_purchases := transcription_topup_purchases d;
     transcription_jobs := transcription_jobs d |} = d.
Proof. destruct d; reflexivity. Qed.

Lemma usage_remaining_nonneg limit used : 0 <= Z.max 0 (limit - used).
Proof. lia. Qed.

(** C3, as amended: for a user whose profile exists with tier 'pro' (and a
    top-up balance within the table's CHECK, t >= 0), on a call that does
    not raise (the job id has a row in [transcription_jobs] whenever
    something is charged, and no int4 computation overflows), with
    s = max(0, subscriptionLimit - periodUsage) and top-up balance t:
    if s >= m the operation charges m to the subscription bucket and 0 to
    top-up; if s < m <= s + t it charges s to subscription and m - s to
    top-up, whose balance drops by m - s; if m > s + t it inserts no usage
    row, leaves the database as it is and returns allowed = false with
    reason INSUFFICIENT_CREDITS.  (A row is inserted only for a positive
    number of minutes.) *)
Theorem consume_splits_for_pro_profile
    (d : db) (uid jid : uuid) (m limit : Z) (ps pe : option Z) (prof : profile) :
  profiles d !! uid = Some prof ->
  subscription_tier prof = "pro" ->
  profile_ok prof ->
  consume_raises uid jid m limit ps pe d = false ->
  let s := Z.max 0 (limit - get_transcription_usage_in_period uid ps pe d) in
  let t := transcription_minutes_topup prof in
  let r := fst (consume_transcription_minutes_atomically uid jid m limit ps pe d) in
  let d' := snd (consume_transcription_minutes_atomically uid jid m limit ps pe d) in
  (s >= m ->
     r = Consumed m 0 (s - m) t
     /\ transcription_usage d' =
        record_usage uid jid m subscription ps pe (transcription_usage d)
     /\ profiles d' = profiles d)
  /\ (s < m <= s + t ->
     r = Consumed s (m - s) 0 (t - (m - s))
     /\ transcription_usage d' =
        record_usage uid jid s subscription ps pe (transcription_usage d)
          ++ [usage_entry uid jid (m - s) topup ps pe]
     /\ profiles d' = <[uid := set_topup (t - (m - s)) prof]> (profiles d))
  /\ (m > s + t ->
     r = Insufficient s t (s + t) m
     /\ allowed r = false
     /\ reason r = "INSUFFICIENT_CREDITS"
     /\ d' = d).
Proof.
  intros Hprof Htier Hok _ s t r d'.
  assert (Hs : 0 <= s) by apply usage_remaining_nonneg.
  unfold profile_ok in Hok. fold t in Hok.
  subst r d'.
  unfold consume_transcription_minutes_atomically.
  rewrite Hprof, Htier. simpl negb. cbv iota. fold s t.
  split; [|split].
  - intros Hge. rewrite (split_consumption_subscription s t m Hge).
    simpl. repeat split; reflexivity.
  - intros Hmix. rewrite (split_consumption_mixed s t m Hmix).
    assert (Hpos : (0 <? m - s) = true) by (apply Z.ltb_lt; lia).
    simpl. rewrite Hpos. simpl. rewrite Z.sub_diag.
    split; [reflexivity|]. split.
    + unfold record_usage at 1. now rewrite Hpos.
    + unfold update_topup. rewrite (alter_known _ _ _ _ Hprof).
      unfold add_topup. fold t. f_equal; f_equal; lia.
  - intros Hshort. rewrite (split_consumption_short s t m Hshort Hs Hok).
    simpl. repeat split; reflexivity.
Qed.

(** C9, as amended: every row that the atomic consume operation creates,
    of either source, carries the period bounds the caller passed, the
    caller's user and job ids and a positive number of minutes; so a
    'topup' row has null bounds exactly when the caller passed null
    bounds. *)
Theorem consume_rows_carry_caller_period
    (d : db) (uid jid : uuid) (m limit : Z) (ps pe : option Z) :
  exists new,
    transcription_usage
      (snd (consume_transcription_minutes_atomically uid jid m limit ps pe d))
    = transcription_usage d ++ new
    /\ Forall (fun r => period_start r = ps /\ period_end r = pe
                       /\ u_user_id r = uid /\ u_job_id r = jid
                       /\ 0 < minutes_used r) new.
Proof.
  unfold consume_transcription_minutes_atomically.
  destruct (profiles d !! uid) as [prof|];
    [|exists []; simpl; rewrite app_nil_r; split; [reflexivity|constructor]].
  destruct (negb _);
    [exists []; simpl; rewrite app_nil_r; split; [reflexivity|constructor]|].
  destruct (split_consumption _ _ _) as [[a b]|];
    [|exists []; simpl; rewrite app_nil_r; split; [reflexivity|constructor]].
  simpl. unfold record_usage.
  destruct (Z.ltb_spec 0 a), (Z.ltb_spec 0 b).
  - eexists. rewrite <- app_assoc. split; [reflexivity|].
    repeat constructor; simpl; assumption.
  - eexists. split; [reflexivity|]. repeat constructor; simpl; assumption.
  - eexists. split; [reflexivity|]. repeat constructor; simpl; assumption.
  - exists []. rewrite app_nil_r. split; [reflexivity|constructor].
Qed.

(** *** Refund *)

Lemma add_topup_0 p : add_topup 0 p = p.
Proof. destruct p. unfold add_topup, set_topup. simpl. now rewrite Z.add_0_r. Qed.

Lemma add_topup_add a b p : add_topup a (add_topup b p) = add_topup (b + a) p.
Proof. unfold add_topup, set_topup. simpl. f_equal. lia. Qed.

Lemma charged_cons src jid uid r rows :
  charged src jid uid (r :: rows) =
  (if String.eqb (u_job_id r) jid && usage_source_eqb (source r) src
      && String.eqb (u_user_id r) uid
   then minutes_used r else 0) + charged src jid uid rows.
Proof.
  unfold charged. simpl.
  destruct (_ && _ && _); simpl; unfold sum_minutes; simpl; lia.
Qed.

(** The FOR loop of the refund, over the job's rows of any table
    content. *)
Lemma refund_loop jid rows : forall ps acc,
  (forall uid,
     fst (foldl refund_row (ps, acc) (List.filter (of_job jid) rows)) !! uid
     = add_topup (charged topup jid uid rows) <$> ps !! uid)
  /\ snd (foldl refund_row (ps, acc) (List.filter (of_job jid) rows))
     = acc + sum_minutes (List.filter (of_job jid) rows).
Proof.
  induction rows as [|r rows IH]; intros ps acc.
  - simpl. split; [|unfold sum_minutes; simpl; lia].
    intros uid. unfold charged. simpl.
    destruct (ps !! uid) as [p|]; simpl; [now rewrite add_topup_0|reflexivity].
  - simpl List.filter.
    destruct (of_job jid r) eqn:Hj; unfold of_job in Hj.
    + assert (Hstep : forall l,
                foldl refund_row (ps, acc) (r :: l)
                = foldl refund_row
                    (if usage_source_eqb (source r) topup
                     then update_topup (u_user_id r) (minutes_used r) ps
                     else ps, acc + minutes_used r) l) by reflexivity.
      rewrite Hstep.
      destruct (IH (if usage_source_eqb (source r) topup
                    then update_topup (u_user_id r) (minutes_used r) ps
                    else ps) (acc + minutes_used r)) as [IH1 IH2].
      split.
      * intros uid. rewrite IH1, charged_cons, Hj.
        simpl andb.
        destruct (usage_source_eqb (source r) topup); simpl andb.
        -- rewrite update_topup_lookup.
           destruct (String.eqb_spec (u_user_id r) uid) as [Hu|Hu];
             destruct (decide (u_user_id r = uid)); try contradiction.
           ++ destruct (ps !! uid); simpl; [now rewrite add_topup_add|reflexivity].
           ++ reflexivity.
        -- reflexivity.
      * rewrite IH2. unfold sum_minutes. simpl. lia.
    + destruct (IH ps acc) as [IH1 IH2]. split.
      * intros uid. rewrite IH1, charged_cons, Hj.
        reflexivity.
      * exact IH2.
Qed.

Lemma filter_of_job_gone jid rows :
  List.filter (of_job jid) (List.filter (fun r => negb (of_job jid r)) rows) = [].
Proof.
  induction rows as [|r rows IH]; simpl; [reflexivity|].
  destruct (of_job jid r) eqn:E; simpl; [exact IH|].
  now rewrite E.
Qed.

Lemma filter_keeps_all jid rows :
  List.filter (of_job jid) rows = [] ->
  List.filter (fun r => negb (of_job jid r)) rows = rows.
Proof.
  induction rows as [|r rows IH]; simpl; [reflexivity|].
  destruct (of_job jid r); simpl; [discriminate|].
  intros H. now rewrite IH.
Qed.

Lemma refund_without_rows jid d :
  List.filter (of_job jid) (transcription_usage d) = [] ->
  refund_transcription_minutes jid d
  = ({| refund_success := true; minutes_refunded := 0 |}, d).
Proof.
  intros H. unfold refund_transcription_minutes.
  rewrite H, (filter_keeps_all _ _ H). simpl.
  unfold with_profiles, with_usage. simpl. now rewrite db_eta.
Qed.


(** *** Top-up credit *)

Lemma purchase_exists_after_insert pi (d : db) p ps :
  stripe_payment_intent_id p = pi ->
  purchase_exists pi
    (with_profiles (with_purchases d (transcription_topup_purchases d ++ [p])) ps)
  = true.
Proof.
  intros H. unfold purchase_exists. simpl.
  rewrite existsb_app. simpl. rewrite H, String.eqb_refl.
  now rewrite orb_true_r.
Qed.

(** C7: when a call of the top-up credit operation has gone through, a
    second call with the same payment-intent id returns already_processed,
    with the current balance, and leaves the database as the first call
    left it: no second purchase record, no second credit.  The first call
    itself, for an id not seen before, records one purchase and adds the
    minutes to the user's balance once. *)
Theorem topup_credit_is_idempotent
    (d d1 : db) (uid uid' : uuid) (pi : string) (m paid m' paid' : Z)
    (r1 : topup_result) :
  add_transcription_topup_credits uid pi m paid d = Returned (r1, d1) ->
  add_transcription_topup_credits uid' pi m' paid' d1
    = Returned ({| topup_success := true; already_processed := true;
                   minutes_added := None;
                   new_balance := balance_of uid' d1 |}, d1)
  /\ (purchase_exists pi d = false ->
        already_processed r1 = false
        /\ transcription_topup_purchases d1
           = transcription_topup_purchases d
             ++ [ {| p_user_id := uid; stripe_payment_intent_id := pi;
                     minutes_purchased := m; amount_paid := paid |} ]
        /\ balance_of uid d1 = (fun b => b + m) <$> balance_of uid d
        /\ (forall u, u <> uid -> balance_of u d1 = balance_of u d))
  /\ (purchase_exists pi d = true -> d1 = d /\ already_processed r1 = true).
Proof.
  unfold add_transcription_topup_credits at 1.
  destruct (purchase_exists pi d) eqn:Hex.
  - intros [= <- <-]. split; [|split].
    + unfold add_transcription_topup_credits. now rewrite Hex.
    + discriminate.
    + intros _. split; reflexivity.
  - destruct (negb (0 <=? paid)); [discriminate|].
    destruct (negb (0 <? m)); [discriminate|].
    intros [= <- <-]. split; [|split].
    + unfold add_transcription_topup_credits.
      now rewrite purchase_exists_after_insert.
    + intros _. split; [reflexivity|]. split; [reflexivity|].
      unfold balance_of. simpl. split.
      * rewrite update_topup_lookup.
        destruct (decide (uid = uid)); [|contradiction].
        destruct (profiles d !! uid); reflexivity.
      * intros u Hu. rewrite update_topup_lookup.
        destruct (decide (uid = u)); [congruence|reflexivity].
    + discriminate.
Qed.

(** *** The ledger on the sample data *)


(** C3, a call the claim does not hold for: bob is on the free tier with
    20 top-up minutes; for m = 5, s = 0, t = 20 the claim's second case
    (s < m <= s + t) would charge 5 minutes to top-up, and the operation
    returns NOT_PRO and charges nothing. *)
Lemma consume_refuses_free_tier :
  profiles Scenario.sample_db !! "bob" = Some (Scenario.free_profile 20)
  /\ Z.max 0 (0 - get_transcription_usage_in_period "bob" (Some 100) (Some 200)
                    Scenario.sample_db) = 0
  /\ 0 < 5 <= 0 + 20
  /\ consume_transcription_minutes_atomically "bob" "job-1" 5 0
       (Some 100) (Some 200) Scenario.sample_db
     = (NotPro, Scenario.sample_db)
  /\ reason NotPro <> "INSUFFICIENT_CREDITS".
Proof.
  split; [reflexivity|]. split; [reflexivity|]. split; [lia|].
  split; [reflexivity|]. discriminate.
Qed.

(** C3 on the sample data: alice (Pro, 20 top-up minutes, 10 subscription
    minutes left) needs 15 minutes: 10 come from the subscription and 5
    from top-up, which drops to 15. *)
Lemma consume_splits_for_alice :
  fst (consume_transcription_minutes_atomically "alice" "job-1" 15 10
         (Some 100) (Some 200) Scenario.sample_db)
  = Consumed 10 5 0 15
  /\ transcription_usage
       (snd (consume_transcription_minutes_atomically "alice" "job-1" 15 10
               (Some 100) (Some 200) Scenario.sample_db))
     = [ usage_entry "alice" "job-1" 10 subscription (Some 100) (Some 200);
         usage_entry "alice" "job-1" 5 topup (Some 100) (Some 200) ].
Proof.
  pose proof (consume_splits_for_pro_profile Scenario.sample_db
                "alice" "job-1" 15 10 (Some 100) (Some 200)
                (Scenario.pro_profile 20) eq_refl eq_refl) as H.
  destruct H as (_ & Hmixed & _).
  { unfold profile_ok. simpl. lia. }
  { vm_compute. reflexivity. }
  destruct Hmixed as (Hr & Hrows & _).
  { vm_compute. split; [reflexivity | discriminate]. }
  split; [exact Hr | exact Hrows].
Defined.

(** C9, a row the claim does not hold for: the 'topup' row that the
    operation creates for alice carries the period bounds of the call. *)
Lemma topup_row_has_period_bounds :
  exists r,
    In r (transcription_usage
            (snd (consume_transcription_minutes_atomically "alice" "job-1" 15 10
                    (Some 100) (Some 200) Scenario.sample_db)))
    /\ source r = topup
    /\ period_start r = Some 100
    /\ period_end r = Some 200
    /\ period_start r <> None.
Proof.
  exists (usage_entry "alice" "job-1" 5 topup (Some 100) (Some 200)).
  split; [right; left; reflexivity|].
  repeat split; discriminate.
Qed.

(** C7 on the sample data: alice's payment "pi_1" for 20 minutes, sent
    twice, raises her balance from 20 to 40 once. *)
Lemma topup_twice_credits_once :
  exists d1,
    add_transcription_topup_credits "alice" "pi_1" 20 500 Scenario.sample_db
      = Returned ({| topup_success := true; already_processed := false;
                     minutes_added := Some 20; new_balance := Some 40 |}, d1)
    /\ add_transcription_topup_credits "alice" "pi_1" 20 500 d1
       = Returned ({| topup_success := true; already_processed := true;
                      minutes_added := None; new_balance := Some 40 |}, d1)
    /\ length (transcription_topup_purchases d1) = 1%nat.
Proof.
  eexists. split; [reflexivity|].
  split; [|reflexivity].
  exact (proj1 (topup_credit_is_idempotent Scenario.sample_db _
                  "alice" "alice" "pi_1" 20 500 20 500 _ eq_refl)).
Defined.

(** The scenario of the description: 10 subscription minutes and no
    top-up, 15 needed: denied; after a top-up of 20 the same call takes 10
    from the subscription and 5 from top-up and leaves 15. *)
Example denied_then_topped_up :
  let d0 := Scenario.sample_db in
  let '(r1, d1) :=
    consume_transcription_minutes_atomically "carol" "job-2" 15 10
      (Some 100) (Some 200) d0 in
  r1 = Insufficient 10 0 10 15 /\ d1 = d0
  /\ match add_transcription_topup_credits "carol" "pi_2" 20 500 d1 with
     | Returned (_, d2) =>
       let '(r3, d3) :=
         consume_transcription_minutes_atomically "carol" "job-2" 15 10
           (Some 100) (Some 200) d2 in
       r3 = Consumed 10 5 0 15 /\ balance_of "carol" d3 = Some 15
     | Raised _ => False
     end.
Proof. vm_compute. repeat split. Qed.

End LedgerFacts.

(** ** The transcription client *)

Section GeminiFacts.
Import Gemini.

Context {provider : Type}.
Variable executeTranscription :
  string -> audio_part -> provider -> (thrown + TranscriptionResult) * provider.
Variable uploadViaFilesApi :
  audio_file -> provider -> (thrown + string) * provider.

Local Abbreviation attempts := (attempts executeTranscription).
Local Abbreviation cascade := (cascade executeTranscription).
Local Abbreviation model_run := (model_run executeTranscription).
Local Abbreviation cascade_run := (cascade_run executeTranscription).

Lemma last_failure_app l1 l2 before :
  last_failure (l1 ++ l2) before = last_failure l2 (last_failure l1 before).
Proof.
  revert before. induction l1 as [|ev l1 IH]; intros before; simpl; [reflexivity|].
  destruct ev as [| | ? ? ? [e|r] |]; apply IH.
Qed.

(** The inner loop follows the description of one model. *)
Lemma attempts_model_run m part : forall k a cs,
  a + Z.of_nat k = MAX_RETRIES ->
  exists l,
    log (snd (attempts k m part a cs)) = log cs ++ l
    /\ model_run m part a (remote cs) l
         (fst (attempts k m part a cs)) (remote (snd (attempts k m part a cs)))
    /\ lastError (snd (attempts k m part a cs)) = last_failure l (lastError cs).
Proof.
  induction k as [|k IH]; intros a cs Ha.
  - exists []. simpl. rewrite app_nil_r.
    replace a with MAX_RETRIES by lia.
    repeat split. constructor.
  - assert (Hlt : a < MAX_RETRIES) by lia.
    simpl.
    destruct (executeTranscription m part (remote cs)) as [[e|r] p'] eqn:Hex.
    + destruct (isRetryableError e) eqn:Hre.
      * set (cs1 := {| remote := p'; lastError := Some (asError e);
                       log := (log cs ++ [Tried m a part (inl e)])
                                ++ [Slept (INITIAL_RETRY_DELAY_MS * 2 ^ a)] |}).
        destruct (IH (a + 1) cs1) as (l & Hl & Hrun & Herr); [lia|].
        exists (Tried m a part (inl e)
                  :: Slept (INITIAL_RETRY_DELAY_MS * 2 ^ a) :: l).
        split.
        { rewrite Hl. subst cs1. simpl. now rewrite <- !app_assoc. }
        split; [|exact Herr].
        eapply run_retry; eauto.
      * exists [Tried m a part (inl e)]. simpl.
        split; [reflexivity|]. split; [|reflexivity].
        eapply run_fatal; eauto.
    + exists [Tried m a part (inr r)]. simpl.
      split; [reflexivity|]. split; [|reflexivity].
      eapply run_success; eauto.
Qed.

Lemma cascade_cons m rest part cs :
  cascade (m :: rest) part cs =
  match attempts (Z.to_nat MAX_RETRIES) m part 0 cs with
  | (Some result, cs') => (inr result, cs')
  | (None, cs') => cascade rest part cs'
  end.
Proof. reflexivity. Qed.

(** The cascade follows the description of the models in order, and what
    it throws is the last error among its calls. *)
Lemma cascade_refines part : forall models cs,
  exists l,
    log (snd (cascade models part cs)) = log cs ++ l
    /\ cascade_run part models (remote cs) l
         (returned (fst (cascade models part cs)))
         (remote (snd (cascade models part cs)))
    /\ (forall e, fst (cascade models part cs) = inl e ->
          e = default generic_failure (last_failure l (lastError cs))).
Proof.
  induction models as [|m rest IH]; intros cs.
  - exists []. simpl. rewrite app_nil_r. split; [reflexivity|].
    split; [constructor|]. now intros e [= <-].
  - rewrite cascade_cons.
    destruct (attempts_model_run m part (Z.to_nat MAX_RETRIES) 0 cs)
      as (l & Hl & Hrun & Herr); [reflexivity|].
    destruct (attempts (Z.to_nat MAX_RETRIES) m part 0 cs) as [[r|] cs1].
    + exists l. simpl in *. split; [exact Hl|].
      split; [now constructor|]. discriminate.
    + destruct (IH cs1) as (l' & Hl' & Hrun' & Herr').
      exists (l ++ l'). simpl in *.
      rewrite Hl', Hl, <- app_assoc. split; [reflexivity|].
      split; [eapply cascade_next; eauto|].
      intros e He. rewrite last_failure_app, <- Herr. now apply Herr'.
Qed.

Lemma model_run_on_model m part a p l res p' :
  0 <= a -> model_run m part a p l res p' -> Forall (on_model m part) l.
Proof.
  intros Ha H. induction H; repeat constructor; try assumption; try lia.
  apply IHmodel_run. lia.
Qed.

Lemma model_run_tries m part a p l p' :
  a < MAX_RETRIES -> model_run m part a p l None p' ->
  exists a' e, In (Tried m a' part (inl e)) l.
Proof.
  intros Ha H. inversion H; subst; try lia.
  - eexists _, _. left. reflexivity.
  - eexists _, _. left. reflexivity.
Qed.

Lemma cascade_run_exhausts part models p l p' :
  cascade_run part models p l None p' ->
  forall m, In m models -> exists a e, In (Tried m a part (inl e)) l.
Proof.
  intros H. remember None as res eqn:Hres.
  induction H; intros m0 Hin; subst.
  - discriminate.
  - destruct Hin as [<-|Hin].
    + assert (Hlt : 0 < MAX_RETRIES) by reflexivity.
      destruct (model_run_tries _ _ _ _ _ _ Hlt H) as (a & e & Hi).
      exists a, e. apply in_or_app. now left.
    + destruct (IHcascade_run eq_refl m0 Hin) as (a & e & Hi).
      exists a, e. apply in_or_app. now right.
  - destruct Hin.
Qed.

Lemma on_model_sends m part ev : on_model m part ev -> sends part ev.
Proof. destruct ev; simpl; tauto. Qed.

Lemma model_run_sends m part p l res p' :
  model_run m part 0 p l res p' -> Forall (sends part) l.
Proof.
  intros H. apply (List.Forall_impl _ (on_model_sends m part)).
  eapply model_run_on_model; [|exact H]. lia.
Qed.

Lemma cascade_run_sends part models p l res p' :
  cascade_run part models p l res p' -> Forall (sends part) l.
Proof.
  induction 1.
  - eapply model_run_sends; eassumption.
  - apply Forall_app. split; [eapply model_run_sends; eassumption|assumption].
  - constructor.
Qed.

Lemma attempts_retry k m part a cs e p' :
  executeTranscription m part (remote cs) = (inl e, p') ->
  isRetryableError e = true ->
  attempts (S k) m part a cs =
  attempts k m part (a + 1)
    {| remote := p'; lastError := Some (asError e);
       log := (log cs ++ [Tried m a part (inl e)])
                ++ [Slept (INITIAL_RETRY_DELAY_MS * 2 ^ a)] |}.
Proof. intros Hex Hre. simpl. now rewrite Hex, Hre. Qed.

Lemma attempts_fatal k m part a cs e p' :
  executeTranscription m part (remote cs) = (inl e, p') ->
  isRetryableError e = false ->
  attempts (S k) m part a cs =
  (None, {| remote := p'; lastError := Some (asError e);
            log := log cs ++ [Tried m a part (inl e)] |}).
Proof. intros Hex Hre. simpl. now rewrite Hex, Hre. Qed.

Lemma attempts_success k m part a cs r p' :
  executeTranscription m part (remote cs) = (inr r, p') ->
  attempts (S k) m part a cs =
  (Some r, {| remote := p'; lastError := lastError cs;
              log := log cs ++ [Tried m a part (inr r)] |}).
Proof. intros Hex. simpl. now rewrite Hex. Qed.

(** A model that always fails retryably is attempted [MAX_RETRIES] times,
    with pauses of 1, 2 and 4 seconds, and then left. *)
Lemma retryable_model_is_exhausted A part cs :
  always_retryable executeTranscription A part ->
  exists e0 e1 e2 p',
    attempts (Z.to_nat MAX_RETRIES) A part 0 cs
    = (None, {| remote := p'; lastError := Some (asError e2);
                log := log cs ++ [ Tried A 0 part (inl e0); Slept 1000;
                                   Tried A 1 part (inl e1); Slept 2000;
                                   Tried A 2 part (inl e2); Slept 4000 ] |})
    /\ isRetryableError e0 = true /\ isRetryableError e1 = true
    /\ isRetryableError e2 = true.
Proof.
  intros HA.
  destruct (HA (remote cs)) as (e0 & p0 & H0 & R0).
  destruct (HA p0) as (e1 & p1 & H1 & R1).
  destruct (HA p1) as (e2 & p2 & H2 & R2).
  exists e0, e1, e2, p2.
  change (Z.to_nat MAX_RETRIES) with 3%nat.
  rewrite (attempts_retry _ _ _ _ _ e0 p0); [|exact H0|exact R0].
  rewrite (attempts_retry _ _ _ _ _ e1 p1); [|exact H1|exact R1].
  rewrite (attempts_retry _ _ _ _ _ e2 p2); [|exact H2|exact R2].
  simpl. rewrite <- !app_assoc. simpl. repeat split; assumption.
Qed.

(** C6, as amended: the cascade tries the models in order, as
    [cascade_run] describes it: an error that [isRetryableError] accepts
    (status 503, 429 or 500, or a message with "503", "429", "overload",
    "rate limit" or "quota") is retried on the same model after a pause of
    [INITIAL_RETRY_DELAY_MS * 2 ^ attempt], up to [MAX_RETRIES] attempts;
    any other error leaves the model at once; the cascade throws only when
    every model has been tried and has failed, and it throws the last
    error among its calls.  When model A fails retryably on every attempt
    and model B succeeds on its first, the result is B's, after exactly
    [MAX_RETRIES] = 3 attempts on A. *)
Theorem cascade_retries_then_falls_back
    (models : list string) (part : audio_part) (cs : cascade_state) :
  (exists l,
      log (snd (cascade models part cs)) = log cs ++ l
      /\ cascade_run part models (remote cs) l
           (returned (fst (cascade models part cs)))
           (remote (snd (cascade models part cs)))
      /\ (forall e, fst (cascade models part cs) = inl e ->
            e = default generic_failure (last_failure l (lastError cs))
            /\ forall m, In m models ->
                 exists a e', In (Tried m a part (inl e')) l))
  /\ (forall A B rest,
        models = A :: B :: rest ->
        always_retryable executeTranscription A part ->
        always_succeeds executeTranscription B part ->
        exists e0 e1 e2 r,
          fst (cascade models part cs) = inr r
          /\ log (snd (cascade models part cs))
             = log cs ++ [ Tried A 0 part (inl e0); Slept 1000;
                           Tried A 1 part (inl e1); Slept 2000;
                           Tried A 2 part (inl e2); Slept 4000;
                           Tried B 0 part (inr r) ]
          /\ isRetryableError e0 = true /\ isRetryableError e1 = true
          /\ isRetryableError e2 = true)
  /\ (forall m rest e p',
        models = m :: rest ->
        executeTranscription m part (remote cs) = (inl e, p') ->
        isRetryableError e = false ->
        cascade models part cs
        = cascade rest part
            {| remote := p'; lastError := Some (asError e);
               log := log cs ++ [Tried m 0 part (inl e)] |}).
Proof.
  split; [|split].
  - destruct (cascade_refines part models cs) as (l & Hl & Hrun & Herr).
    exists l. split; [exact Hl|]. split; [exact Hrun|].
    intros e He. split; [now apply Herr|].
    rewrite He in Hrun. simpl in Hrun.
    eapply cascade_run_exhausts; eassumption.
  - intros A B rest -> HA HB.
    destruct (retryable_model_is_exhausted A part cs HA)
      as (e0 & e1 & e2 & p' & Hrun & R0 & R1 & R2).
    destruct (HB p') as (r & p'' & Hr).
    exists e0, e1, e2, r.
    rewrite cascade_cons, Hrun. cbv iota beta. rewrite cascade_cons.
    change (Z.to_nat MAX_RETRIES) with 3%nat.
    rewrite (attempts_success _ _ _ _ _ r p''); [|exact Hr]. simpl.
    rewrite <- !app_assoc. simpl. repeat split; assumption.
  - intros m rest e p' -> Hex Hre.
    rewrite cascade_cons.
    change (Z.to_nat MAX_RETRIES) with 3%nat.
    now rewrite (attempts_fatal _ _ _ _ _ e p'); [|exact Hex|exact Hre].
Qed.

Lemma transcribeAudio_inline key0 key f model p :
  validateAudioFile (Some f) = Valid ->
  useFilesApi f = false ->
  transcribeAudio executeTranscription uploadViaFilesApi
    (Some (String key0 key)) f model p
  = cascade (model_list model) (inlineData f)
      {| remote := p; lastError := None; log := [Encoded f] |}.
Proof. intros Hv Hu. unfold transcribeAudio. now rewrite Hv, Hu. Qed.

Lemma transcribeAudio_staged key0 key f model p :
  validateAudioFile (Some f) = Valid ->
  useFilesApi f = true ->
  transcribeAudio executeTranscription uploadViaFilesApi
    (Some (String key0 key)) f model p
  = match uploadViaFilesApi f p with
    | (inl error, p') =>
      (inl error,
       {| remote := p'; lastError := None; log := [Uploaded f] |})
    | (inr fileUri, p') =>
      cascade (model_list model) (fileData fileUri)
        {| remote := p'; lastError := None; log := [Uploaded f] |}
    end.
Proof. intros Hv Hu. unfold transcribeAudio. now rewrite Hv, Hu. Qed.

(** C8, as amended: the threshold is 20 * 1024 * 1024 bytes; a payload of
    at most that size (the size itself included) is encoded and sent
    inline, and only a payload strictly above it is uploaded through the
    Files API and handed to the models by its handle. *)
Theorem transfer_follows_size_threshold
    (f : audio_file) (key0 : ascii) (key : string) (model : option string)
    (p : provider) :
  validateAudioFile (Some f) = Valid ->
  let cs := snd (transcribeAudio executeTranscription uploadViaFilesApi
                   (Some (String key0 key)) f model p) in
  MAX_INLINE_SIZE_BYTES = 20 * 1024 * 1024
  /\ (size f <= MAX_INLINE_SIZE_BYTES ->
       transfer_of f = Inline
       /\ exists rest,
            log cs = Encoded f :: rest /\ Forall (sends (inlineData f)) rest)
  /\ (size f > MAX_INLINE_SIZE_BYTES ->
       transfer_of f = FilesApi
       /\ exists rest,
            log cs = Uploaded f :: rest
            /\ Forall (fun ev => exists fileUri, sends (fileData fileUri) ev) rest).
Proof.
  intros Hv cs. split; [reflexivity|]. split.
  - intros Hle.
    assert (Hu : useFilesApi f = false).
    { unfold useFilesApi. destruct (Z.gtb_spec (size f) MAX_INLINE_SIZE_BYTES); [lia|reflexivity]. }
    split; [unfold transfer_of; now rewrite Hu|].
    subst cs. rewrite (transcribeAudio_inline _ _ _ _ _ Hv Hu).
    destruct (cascade_refines (inlineData f) (model_list model)
                {| remote := p; lastError := None; log := [Encoded f] |})
      as (l & Hl & Hrun & _).
    exists l. split; [exact Hl|]. eapply cascade_run_sends; eassumption.
  - intros Hgt.
    assert (Hu : useFilesApi f = true).
    { unfold useFilesApi. destruct (Z.gtb_spec (size f) MAX_INLINE_SIZE_BYTES); [reflexivity|lia]. }
    split; [unfold transfer_of; now rewrite Hu|].
    subst cs. rewrite (transcribeAudio_staged _ _ _ _ _ Hv Hu).
    destruct (uploadViaFilesApi f p) as [[err|uri] p'].
    + exists []. split; [reflexivity|constructor].
    + destruct (cascade_refines (fileData uri) (model_list model)
                  {| remote := p'; lastError := None; log := [Uploaded f] |})
        as (l & Hl & Hrun & _).
      exists l. split; [exact Hl|].
      apply (List.Forall_impl _ (fun ev H => ex_intro _ uri H)).
      eapply cascade_run_sends; eassumption.
Qed.

End GeminiFacts.

(** *** The client on the sample data *)

(** C6, an error the claim does not hold for: a 502 is of the 5xx class,
    [isRetryableError] does not accept it, and the first model is left
    after one attempt, without a pause. *)
Lemma bad_gateway_is_not_retried :
  Gemini.isRetryableError Scenario.bad_gateway = false
  /\ Gemini.cascade (Scenario.first_model_fails Scenario.bad_gateway)
       Gemini.TRANSCRIPTION_MODELS (Gemini.inlineData (Scenario.clip 4096))
       {| Gemini.remote := tt; Gemini.lastError := None; Gemini.log := [] |}
     = (inr Scenario.sample_transcript,
        {| Gemini.remote := tt;
           Gemini.lastError := Some Scenario.bad_gateway;
           Gemini.log :=
             [ Gemini.Tried "gemini-3-flash-preview" 0
                 (Gemini.inlineData (Scenario.clip 4096))
                 (inl Scenario.bad_gateway);
               Gemini.Tried "gemini-2.5-flash-lite" 0
                 (Gemini.inlineData (Scenario.clip 4096))
                 (inr Scenario.sample_transcript) ] |}).
Proof. split; reflexivity. Qed.

(** C6 on the sample data: the first model is overloaded on every call
    (status 503), the second answers: the second model's transcript is
    returned after three attempts on the first. *)
Lemma overloaded_model_falls_back :
  exists e0 e1 e2 r,
    fst (Gemini.cascade (Scenario.first_model_fails Scenario.overloaded)
           Gemini.TRANSCRIPTION_MODELS (Gemini.inlineData (Scenario.clip 4096))
           {| Gemini.remote := tt; Gemini.lastError := None; Gemini.log := [] |})
    = inr r
    /\ Gemini.log
         (snd (Gemini.cascade (Scenario.first_model_fails Scenario.overloaded)
                 Gemini.TRANSCRIPTION_MODELS
                 (Gemini.inlineData (Scenario.clip 4096))
                 {| Gemini.remote := tt; Gemini.lastError := None;
                    Gemini.log := [] |}))
       = [ Gemini.Tried "gemini-3-flash-preview" 0
             (Gemini.inlineData (Scenario.clip 4096)) (inl e0);
           Gemini.Slept 1000;
           Gemini.Tried "gemini-3-flash-preview" 1
             (Gemini.inlineData (Scenario.clip 4096)) (inl e1);
           Gemini.Slept 2000;
           Gemini.Tried "gemini-3-flash-preview" 2
             (Gemini.inlineData (Scenario.clip 4096)) (inl e2);
           Gemini.Slept 4000;
           Gemini.Tried "gemini-2.5-flash-lite" 0
             (Gemini.inlineData (Scenario.clip 4096)) (inr r) ].
Proof.
  destruct (proj1 (proj2
              (cascade_retries_then_falls_back
                 (Scenario.first_model_fails Scenario.overloaded)
                 Gemini.TRANSCRIPTION_MODELS
                 (Gemini.inlineData (Scenario.clip 4096))
                 {| Gemini.remote := tt; Gemini.lastError := None;
                    Gemini.log := [] |}))
              "gemini-3-flash-preview" "gemini-2.5-flash-lite"
              ["gemini-3-pro-preview"] eq_refl)
    as (e0 & e1 & e2 & r & Hr & Hlog & _).
  - intros p. exists Scenario.overloaded, p. split; reflexivity.
  - intros p. exists Scenario.sample_transcript, p. reflexivity.
  - exists e0, e1, e2, r. split; [exact Hr | exact Hlog].
Defined.

(** C8, a payload the claim does not hold for: 20 * 1024 * 1024 bytes
    exactly are sent inline, not uploaded. *)
Lemma threshold_size_goes_inline :
  Gemini.size (Scenario.clip 20971520) = 20 * 1024 * 1024
  /\ Gemini.size (Scenario.clip 20971520) >= Gemini.MAX_INLINE_SIZE_BYTES
  /\ Gemini.useFilesApi (Scenario.clip 20971520) = false
  /\ Gemini.transfer_of (Scenario.clip 20971520) = Gemini.Inline
  /\ Gemini.log
       (snd (Gemini.transcribeAudio Scenario.all_models_answer Scenario.upload_ok
               (Some "key") (Scenario.clip 20971520) None tt))
     = [ Gemini.Encoded (Scenario.clip 20971520);
         Gemini.Tried "gemini-3-flash-preview" 0
           (Gemini.inlineData (Scenario.clip 20971520))
           (inr Scenario.sample_transcript) ].
Proof.
  split; [reflexivity|]. split; [vm_compute; discriminate|].
  repeat split; reflexivity.
Qed.

(** C8 on the sample data: a clip of one byte more than the threshold is
    uploaded and handed over by its handle. *)
Lemma larger_clip_is_uploaded :
  Gemini.transfer_of (Scenario.clip 20971521) = Gemini.FilesApi
  /\ exists rest,
       Gemini.log
         (snd (Gemini.transcribeAudio Scenario.all_models_answer Scenario.upload_ok
                 (Some "key") (Scenario.clip 20971521) None tt))
       = Gemini.Uploaded (Scenario.clip 20971521) :: rest
       /\ Forall (fun ev => exists fileUri,
                     Gemini.sends (Gemini.fileData fileUri) ev) rest.
Proof.
  refine (proj2 (proj2
            (transfer_follows_size_threshold Scenario.all_models_answer
               Scenario.upload_ok (Scenario.clip 20971521) "k"%char "ey" None tt
               eq_refl)) _).
  vm_compute. reflexivity.
Defined.

(** ** The job orchestrator *)

Section OrchestratorFacts.
Import Ledger Orchestrator.

#[local] Arguments updateTranscriptionJobStatus : simpl never.
#[local] Arguments consume_for : simpl never.
#[local] Arguments refund_transcription_minutes : simpl never.

Lemma run_bind {A B} e (p : prog A) (f : A -> prog B) : forall w,
  run e (bind p f) w = let '(a, w') := run e p w in run e (f a) w'.
Proof.
  induction p as [a|jobId k IH|jobId u k IH|jobId u k IH|y k IH|file k IH
                  |userId jobId m k IH|jobId k IH]; intros w; simpl;
    try reflexivity; try apply IH.
  destruct (consume_for e userId jobId m (database w)) as [r d]. apply IH.
Qed.

Lemma world_eta w : {| database := database w; effects := effects w |} = w.
Proof. destruct w; reflexivity. Qed.

Lemma run_forEach_progress e jobId ps : forall w,
  run e (forEach ps (onProgress jobId)) w
  = (tt, {| database := after_updates jobId (map progress_update ps) (database w);
            effects := effects w
                       ++ map (fun p => JobUpdated jobId (progress_update p)) ps |}).
Proof.
  induction ps as [|p ps IH]; intros w; simpl.
  - now rewrite app_nil_r, world_eta.
  - rewrite IH. unfold did. simpl. now rewrite <- app_assoc.
Qed.

(** *** What the calls leave alone *)

Lemma with_jobs_same d : with_jobs d (transcription_jobs d) = d.
Proof. destruct d; reflexivity. Qed.

Lemma after_updates_view jobId us : forall d,
  after_updates jobId us d
  = with_jobs d (transcription_jobs (after_updates jobId us d)).
Proof.
  induction us as [|u us IH]; intros d; simpl.
  - now rewrite with_jobs_same.
  - rewrite IH at 1. reflexivity.
Qed.

Lemma after_updates_job jobId us : forall d j,
  transcription_jobs d !! jobId = Some j ->
  exists j', transcription_jobs (after_updates jobId us d) !! jobId = Some j'.
Proof.
  induction us as [|u us IH]; intros d j Hj; simpl.
  - eauto.
  - eapply IH. unfold updateTranscriptionJobStatus. simpl.
    rewrite lookup_alter_eq, Hj. reflexivity.
Qed.

Lemma consume_for_frame e userId jobId m d js :
  consume_for e userId jobId m (with_jobs d js)
  = (fst (consume_for e userId jobId m d),
     with_jobs (snd (consume_for e userId jobId m d)) js).
Proof.
  unfold consume_for, consume_transcription_minutes_atomically,
    get_transcription_usage_in_period.
  change (profiles (with_jobs d js)) with (profiles d).
  change (transcription_usage (with_jobs d js)) with (transcription_usage d).
  destruct (profiles d !! userId) as [prof|]; [|reflexivity].
  destruct (negb _); [reflexivity|].
  destruct (split_consumption _ _ _) as [[a b]|]; reflexivity.
Qed.

Lemma consume_denied_unchanged e userId jobId m d :
  allowed (fst (consume_for e userId jobId m d)) = false ->
  snd (consume_for e userId jobId m d) = d.
Proof.
  unfold consume_for, consume_transcription_minutes_atomically.
  destruct (profiles d !! userId) as [prof|]; [|reflexivity].
  destruct (negb _); [reflexivity|].
  destruct (split_consumption _ _ _) as [[a b]|]; [discriminate|reflexivity].
Qed.

Lemma consume_keeps_jobs e userId jobId m d :
  transcription_jobs (snd (consume_for e userId jobId m d)) = transcription_jobs d.
Proof.
  unfold consume_for, consume_transcription_minutes_atomically.
  destruct (profiles d !! userId) as [prof|]; [|reflexivity].
  destruct (negb _); [reflexivity|].
  destruct (split_consumption _ _ _) as [[a b]|]; reflexivity.
Qed.

Lemma refund_keeps_jobs jobId d :
  transcription_jobs (snd (refund_transcription_minutes jobId d))
  = transcription_jobs d.
Proof.
  unfold refund_transcription_minutes. destruct (foldl _ _ _). reflexivity.
Qed.

Lemma update_job_lookup jobId u d :
  transcription_jobs (updateTranscriptionJobStatus jobId u d) !! jobId
  = apply_update u <$> transcription_jobs d !! jobId.
Proof. unfold updateTranscriptionJobStatus. simpl. apply lookup_alter_eq. Qed.

(** *** One invocation, call by call *)

Lemma run_POST_terminal e now jobId j d :
  jobId <> "" ->
  transcription_jobs d !! jobId = Some j ->
  is_terminal (status j) = true ->
  run e (POST now (Body (Some jobId))) (fresh d)
  = (AlreadyTerminal (status j),
     {| database := d; effects := [JobFetched jobId] |}).
Proof.
  intros Hne Hj Ht. destruct jobId as [|c jobId]; [contradiction|].
  simpl. rewrite Hj. simpl. rewrite Ht. reflexivity.
Qed.

Lemma run_POST_download_fails e now jobId j d :
  jobId <> "" ->
  transcription_jobs d !! jobId = Some j ->
  is_terminal (status j) = false ->
  cobalt e (youtube_id j) = None ->
  run e (POST now (Body (Some jobId))) (fresh d)
  = (DownloadFailed,
     {| database :=
          snd (refund_transcription_minutes jobId
                 (after_updates jobId
                    [ mark_downloading now;
                      mark_failed "Failed to download audio from YouTube" now ] d));
        effects :=
          [ JobFetched jobId; JobUpdated jobId (mark_downloading now);
            AudioRequested (youtube_id j);
            JobUpdated jobId
              (mark_failed "Failed to download audio from YouTube" now);
            MinutesRefunded jobId ] |}).
Proof.
  intros Hne Hj Ht Hc. destruct jobId as [|c jobId]; [contradiction|].
  simpl. rewrite Hj. simpl. rewrite Ht. simpl. rewrite Hc. reflexivity.
Qed.

Lemma run_POST_transcription_fails e now jobId j d audio ps err :
  jobId <> "" ->
  transcription_jobs d !! jobId = Some j ->
  is_terminal (status j) = false ->
  cobalt e (youtube_id j) = Some audio ->
  gemini e (createAudioFile audio) = (ps, inl err) ->
  run e (POST now (Body (Some jobId))) (fresh d)
  = (TranscriptionFailed,
     {| database :=
          snd (refund_transcription_minutes jobId
                 (after_updates jobId
                    ([ mark_downloading now; mark_transcribing ]
                       ++ map progress_update ps
                       ++ [ mark_failed "AI transcription failed" now ]) d));
        effects :=
          [ JobFetched jobId; JobUpdated jobId (mark_downloading now);
            AudioRequested (youtube_id j); JobUpdated jobId mark_transcribing;
            TranscriptionRequested (createAudioFile audio) ]
          ++ map (fun p => JobUpdated jobId (progress_update p)) ps
          ++ [ JobUpdated jobId (mark_failed "AI transcription failed" now);
               MinutesRefunded jobId ] |}).
Proof.
  intros Hne Hj Ht Hc Hg. destruct jobId as [|c jobId]; [contradiction|].
  simpl. rewrite Hj. simpl. rewrite Ht. simpl. rewrite Hc. simpl.
  rewrite Hg. simpl. rewrite run_bind, run_forEach_progress. simpl.
  unfold did, after_updates. simpl.
  rewrite !foldl_app. simpl. rewrite <- !app_assoc. reflexivity.
Qed.

Lemma run_POST_transcribed e now jobId j d audio ps result :
  jobId <> "" ->
  transcription_jobs d !! jobId = Some j ->
  is_terminal (status j) = false ->
  cobalt e (youtube_id j) = Some audio ->
  gemini e (createAudioFile audio) = (ps, inr result) ->
  run e (POST now (Body (Some jobId))) (fresh d)
  = (Completed (length (Gemini.segments result)) (Gemini.duration result)
               (Gemini.language result),
     {| database :=
          updateTranscriptionJobStatus jobId (mark_completed now result)
            (snd (consume_for e (j_user_id j) jobId (durationMinutes result)
                    (after_updates jobId
                       ([ mark_downloading now; mark_transcribing ]
                          ++ map progress_update ps ++ [ mark_finalizing ]) d)));
        effects :=
          [ JobFetched jobId; JobUpdated jobId (mark_downloading now);
            AudioRequested (youtube_id j); JobUpdated jobId mark_transcribing;
            TranscriptionRequested (createAudioFile audio) ]
          ++ map (fun p => JobUpdated jobId (progress_update p)) ps
          ++ [ JobUpdated jobId mark_finalizing;
               MinutesConsumed (j_user_id j) jobId (durationMinutes result);
               JobUpdated jobId (mark_completed now result) ] |}).
Proof.
  intros Hne Hj Ht Hc Hg. destruct jobId as [|c jobId]; [contradiction|].
  simpl. rewrite Hj. simpl. rewrite Ht. simpl. rewrite Hc. simpl.
  rewrite Hg. simpl. rewrite run_bind, run_forEach_progress. simpl.
  unfold did, after_updates. simpl.
  rewrite !foldl_app. simpl.
  destruct (consume_for _ _ _ _ _) as [r d']. simpl.
  rewrite <- !app_assoc. reflexivity.
Qed.

Lemma after_updates_app jobId us vs d :
  after_updates jobId (us ++ vs) d
  = after_updates jobId vs (after_updates jobId us d).
Proof. unfold after_updates. apply foldl_app. Qed.

Lemma after_updates_snoc_job jobId us u d j :
  transcription_jobs d !! jobId = Some j ->
  exists j',
    transcription_jobs (after_updates jobId (us ++ [u]) d) !! jobId
    = Some (apply_update u j').
Proof.
  intros Hj. destruct (after_updates_job jobId us d j Hj) as [j' Hj'].
  exists j'. rewrite after_updates_app.
  change (after_updates jobId [u] (after_updates jobId us d))
    with (updateTranscriptionJobStatus jobId u (after_updates jobId us d)).
  now rewrite update_job_lookup, Hj'.
Qed.

(** C10: for a job whose status is completed, failed or cancelled the
    endpoint answers 200 with success and the status it found, and makes no
    call besides fetching the job: no status update, no download, no
    transcription, no consumption and no refund; the database is as it
    was. *)
Theorem terminal_job_is_left_alone
    (e : environment) (now : Z) (jobId : string) (j : job) (d : db) :
  jobId <> "" ->
  transcription_jobs d !! jobId = Some j ->
  status j = completed \/ status j = failed \/ status j = cancelled ->
  let resp := fst (run e (POST now (Body (Some jobId))) (fresh d)) in
  let w := snd (run e (POST now (Body (Some jobId))) (fresh d)) in
  resp = AlreadyTerminal (status j)
  /\ success resp = true
  /\ http_status resp = 200
  /\ reported_status resp = Some (status j)
  /\ database w = d
  /\ effects w = [JobFetched jobId].
Proof.
  intros Hne Hj Hst resp w.
  assert (Ht : is_terminal (status j) = true).
  { destruct Hst as [->|[->| ->]]; reflexivity. }
  subst resp w. rewrite (run_POST_terminal e now jobId j d Hne Hj Ht).
  repeat split.
Qed.

(** C1, as amended: when the transcription of a job succeeds and the
    atomic consumption is then denied, the handler goes on ("Don't fail the
    job, credits will be handled manually"): it marks the job completed
    with progress 100 and persists the transcript, answers with success,
    writes no status failed, calls no refund, and leaves usage rows and
    balances as they were. *)
Theorem denied_consumption_still_completes
    (e : environment) (now : Z) (jobId : string) (j : job) (d : db)
    (audio : AudioExtractionResult) (ps : list TranscriptionProgress)
    (result : Gemini.TranscriptionResult) :
  jobId <> "" ->
  transcription_jobs d !! jobId = Some j ->
  is_terminal (status j) = false ->
  cobalt e (youtube_id j) = Some audio ->
  gemini e (createAudioFile audio) = (ps, inr result) ->
  allowed (fst (consume_for e (j_user_id j) jobId (durationMinutes result) d))
    = false ->
  let resp := fst (run e (POST now (Body (Some jobId))) (fresh d)) in
  let w := snd (run e (POST now (Body (Some jobId))) (fresh d)) in
  resp = Completed (length (Gemini.segments result)) (Gemini.duration result)
                   (Gemini.language result)
  /\ success resp = true
  /\ (exists j',
        transcription_jobs (database w) !! jobId = Some j'
        /\ status j' = completed
        /\ progress j' = 100
        /\ transcript_data j' = Some (Gemini.segments result))
  /\ transcription_usage (database w) = transcription_usage d
  /\ profiles (database w) = profiles d
  /\ effects w
     = [ JobFetched jobId; JobUpdated jobId (mark_downloading now);
         AudioRequested (youtube_id j); JobUpdated jobId mark_transcribing;
         TranscriptionRequested (createAudioFile audio) ]
       ++ map (fun p => JobUpdated jobId (progress_update p)) ps
       ++ [ JobUpdated jobId mark_finalizing;
            MinutesConsumed (j_user_id j) jobId (durationMinutes result);
            JobUpdated jobId (mark_completed now result) ].
Proof.
  intros Hne Hj Ht Hc Hg Hdenied resp w. subst resp w.
  rewrite (run_POST_transcribed e now jobId j d audio ps result Hne Hj Ht Hc Hg).
  cbn [fst snd database effects].
  set (us := [mark_downloading now; mark_transcribing]
               ++ map progress_update ps ++ [mark_finalizing]).
  assert (Hsame : snd (consume_for e (j_user_id j) jobId (durationMinutes result)
                         (after_updates jobId us d))
                  = after_updates jobId us d).
  { rewrite (after_updates_view jobId us d), consume_for_frame. simpl.
    now rewrite (consume_denied_unchanged _ _ _ _ _ Hdenied). }
  rewrite Hsame.
  split; [reflexivity|]. split; [reflexivity|]. split.
  - destruct (after_updates_job jobId us d j Hj) as [j' Hj'].
    exists (apply_update (mark_completed now result) j').
    rewrite update_job_lookup, Hj'. repeat split.
  - rewrite (after_updates_view jobId us d). repeat split.
Qed.

(** The cancel route writes no status and calls no refund of its own:
    what it changes in the database is what [cancelTranscriptionJob]
    changes. *)
Lemma cancel_route_only_cancels
    (select_job : string -> CancelRoute.selected)
    (cancel : string -> db -> CancelRoute.cancel_result * db)
    (user : option string) (req : request) (d : db) :
  snd (CancelRoute.POST select_job cancel user req d) = d
  \/ exists jid,
       req = Body (Some jid)
       /\ snd (CancelRoute.POST select_job cancel user req d)
          = snd (cancel jid d).
Proof.
  unfold CancelRoute.POST.
  destruct user as [uid|]; [|left; reflexivity].
  destruct req as [|[[|c jid]|]]; try (left; reflexivity).
  destruct (select_job (String c jid)) as [| |owner st];
    try (left; reflexivity).
  destruct (negb (String.eqb owner uid)); [left; reflexivity|].
  destruct (negb (is_cancellable st)); [left; reflexivity|].
  right. exists (String c jid). split; [reflexivity|].
  destruct (cancel (String c jid) d) as [[|err|] d']; reflexivity.
Qed.

(** C2, as amended: on both failure paths of the handler (the download
    throws, or the transcription throws), whatever usage rows the job
    holds, the last two calls are the write of status failed with the
    error message and then the refund of the same job, in this order; no
    refund is called and no status failed is written before them.  So
    between the two calls the job is failed while every usage row and
    every balance is as it was before the invocation; the database the
    handler leaves is the one the refund makes of that, in which the job
    is failed and has no usage row left, so its usage minutes sum to 0.
    On the cancellation path the route writes no status and calls no
    refund of its own: what it changes in the database is what
    [cancelTranscriptionJob] changes. *)
Theorem failure_marks_failed_then_refunds
    (e : environment) (now : Z) (jobId : string) (j : job) (d : db) :
  jobId <> "" ->
  transcription_jobs d !! jobId = Some j ->
  is_terminal (status j) = false ->
  (cobalt e (youtube_id j) = None
   \/ exists audio ps err,
        cobalt e (youtube_id j) = Some audio
        /\ gemini e (createAudioFile audio) = (ps, inl err)) ->
  let resp := fst (run e (POST now (Body (Some jobId))) (fresh d)) in
  let w := snd (run e (POST now (Body (Some jobId))) (fresh d)) in
  success resp = false
  /\ (exists pre msg d_failed,
        effects w
        = pre ++ [ JobUpdated jobId (mark_failed msg now); MinutesRefunded jobId ]
        /\ refund_precedes_failure [] pre = true
        /\ (forall jid, ~ In (MinutesRefunded jid) pre)
        /\ (exists j',
              transcription_jobs d_failed !! jobId = Some j'
              /\ status j' = failed
              /\ error_message j' = Some msg)
        /\ transcription_usage d_failed = transcription_usage d
        /\ profiles d_failed = profiles d
        /\ database w = snd (refund_transcription_minutes jobId d_failed)
        /\ exists j',
             transcription_jobs (database w) !! jobId = Some j'
             /\ status j' = failed
             /\ error_message j' = Some msg)
  /\ List.filter (of_job jobId) (transcription_usage (database w)) = []
  /\ sum_minutes (List.filter (of_job jobId) (transcription_usage (database w))) = 0
  /\ (forall select_job cancel user req d0,
        snd (CancelRoute.POST select_job cancel user req d0) = d0
        \/ exists jid,
             req = Body (Some jid)
             /\ snd (CancelRoute.POST select_job cancel user req d0)
                = snd (cancel jid d0)).
Proof.
  intros Hne Hj Ht Hpath resp w. subst resp w.
  assert (Hgone : forall d0,
            List.filter (of_job jobId)
              (transcription_usage (snd (refund_transcription_minutes jobId d0)))
            = []).
  { intros d0. unfold refund_transcription_minutes.
    destruct (foldl _ _ _). simpl. apply filter_of_job_gone. }
  destruct Hpath as [Hc|(audio & ps & err & Hc & Hg)].
  - rewrite (run_POST_download_fails e now jobId j d Hne Hj Ht Hc).
    cbn [fst snd database effects].
    split; [reflexivity|].
    split; [|split; [apply Hgone|split;
                                 [now rewrite Hgone
                                 |apply cancel_route_only_cancels]]].
    exists [ JobFetched jobId; JobUpdated jobId (mark_downloading now);
             AudioRequested (youtube_id j) ],
           "Failed to download audio from YouTube",
           (after_updates jobId
              [ mark_downloading now;
                mark_failed "Failed to download audio from YouTube" now ] d).
    destruct (after_updates_snoc_job jobId [mark_downloading now]
                (mark_failed "Failed to download audio from YouTube" now)
                d j Hj) as [j' Hj'].
    simpl app in Hj'.
    split; [reflexivity|]. split; [reflexivity|]. split.
    { intros jid [H|[H|[H|[]]]]; discriminate. }
    split.
    { exists (apply_update
                (mark_failed "Failed to download audio from YouTube" now) j').
      rewrite Hj'. repeat split. }
    split; [rewrite after_updates_view; reflexivity|].
    split; [rewrite after_updates_view; reflexivity|].
    split; [reflexivity|].
    exists (apply_update
              (mark_failed "Failed to download audio from YouTube" now) j').
    rewrite refund_keeps_jobs, Hj'. repeat split.
  - rewrite (run_POST_transcription_fails e now jobId j d audio ps err
               Hne Hj Ht Hc Hg).
    cbn [fst snd database effects].
    split; [reflexivity|].
    split; [|split; [apply Hgone|split;
                                 [now rewrite Hgone
                                 |apply cancel_route_only_cancels]]].
    exists ([ JobFetched jobId; JobUpdated jobId (mark_downloading now);
              AudioRequested (youtube_id j); JobUpdated jobId mark_transcribing;
              TranscriptionRequested (createAudioFile audio) ]
              ++ map (fun p => JobUpdated jobId (progress_update p)) ps),
           "AI transcription failed",
           (after_updates jobId
              ([ mark_downloading now; mark_transcribing ]
                 ++ map progress_update ps
                 ++ [ mark_failed "AI transcription failed" now ]) d).
    destruct (after_updates_snoc_job jobId
                ([mark_downloading now; mark_transcribing]
                   ++ map progress_update ps)
                (mark_failed "AI transcription failed" now) d j Hj)
      as [j' Hj'].
    rewrite <- app_assoc in Hj'.
    split; [now rewrite <- !app_assoc|]. split.
    { simpl. clear. induction ps as [|p ps IH]; [reflexivity|exact IH]. }
    split.
    { intros jid Hin. apply in_app_or in Hin. destruct Hin as [Hin|Hin].
      - destruct Hin as [H|[H|[H|[H|[H|[]]]]]]; discriminate.
      - apply in_map_iff in Hin. destruct Hin as (p & Hp & _). discriminate. }
    split.
    { exists (apply_update (mark_failed "AI transcription failed" now) j').
      rewrite Hj'. repeat split. }
    split; [rewrite after_updates_view; reflexivity|].
    split; [rewrite after_updates_view; reflexivity|].
    split; [reflexivity|].
    exists (apply_update (mark_failed "AI transcription failed" now) j').
    rewrite refund_keeps_jobs, Hj'. repeat split.
Qed.

End OrchestratorFacts.

(** ** Invocations side by side: what holds in every reachable state *)

Section JobInvariant.
Import Ledger Orchestrator.

#[local] Arguments updateTranscriptionJobStatus : simpl never.
#[local] Arguments consume_for : simpl never.
#[local] Arguments refund_transcription_minutes : simpl never.

Lemma topup_keeps_jobs userId pi minutes paid d r d' :
  add_transcription_topup_credits userId pi minutes paid d = Returned (r, d') ->
  transcription_jobs d' = transcription_jobs d.
Proof.
  unfold add_transcription_topup_credits.
  destruct (purchase_exists pi d); [now intros [= _ <-]|].
  destruct (negb _); [discriminate|].
  destruct (negb _); [discriminate|].
  now intros [= _ <-].
Qed.

Lemma cancel_jobs jobId d :
  transcription_jobs (cancelTranscriptionJob jobId d)
  = alter (apply_update mark_cancelled) jobId (transcription_jobs d).
Proof. unfold cancelTranscriptionJob. now rewrite refund_keeps_jobs. Qed.

(** A schedule that runs gives a reachable state. *)
Lemma exec_reachable acts : forall s s',
  reachable s -> exec acts s = Some s' -> reachable s'.
Proof.
  induction acts as [|a acts IH]; intros s s' Hs; simpl.
  - now intros [= <-].
  - destruct (act a s) as [s1|] eqn:Ha; [|discriminate].
    apply IH. apply (reach_step s s1 Hs). now exists a.
Qed.

(** The updates the handler writes. *)
Lemma plain_updates_sound now msg p :
  sound_update (mark_downloading now)
  /\ sound_update mark_transcribing
  /\ sound_update (progress_update p)
  /\ sound_update mark_finalizing
  /\ sound_update (mark_failed msg now)
  /\ sound_update mark_cancelled.
Proof.
  unfold sound_update, completing_update.
  repeat split; simpl in *; try discriminate;
    try (destruct H as [H|H]; [discriminate H|now elim H]).
Qed.

Lemma mark_completed_sound now r : sound_update (mark_completed now r).
Proof.
  unfold sound_update, completing_update. intros _.
  repeat split. discriminate.
Qed.

Lemma sound_update_row u j :
  sound_update u ->
  (status j = completed -> transcript_data j <> None) ->
  status (apply_update u j) = completed ->
  transcript_data (apply_update u j) <> None.
Proof.
  unfold sound_update, completing_update. intros Hu Hj. simpl.
  destruct (set_transcriptData u) as [t|] eqn:Et; [discriminate|].
  destruct (set_status u) as [st|] eqn:Es; simpl.
  - intros ->. destruct Hu as (_ & _ & H); [now left|]. now elim H.
  - exact Hj.
Qed.

Lemma update_keeps_rows_sound jobId u d :
  sound_update u ->
  (forall jid j, transcription_jobs d !! jid = Some j ->
                 status j = completed -> transcript_data j <> None) ->
  forall jid j,
    transcription_jobs (updateTranscriptionJobStatus jobId u d) !! jid = Some j ->
    status j = completed -> transcript_data j <> None.
Proof.
  intros Hu Hd jid j. unfold updateTranscriptionJobStatus. simpl.
  destruct (decide (jid = jobId)) as [->|Hne].
  - rewrite lookup_alter_eq.
    destruct (transcription_jobs d !! jobId) as [j0|] eqn:E; [|discriminate].
    intros [= <-]. apply sound_update_row; [exact Hu|]. now apply (Hd jobId).
  - rewrite lookup_alter_ne by congruence. apply Hd.
Qed.

Lemma sound_bind {A B} (p : prog A) (f : A -> prog B) :
  sound_prog p -> (forall a, sound_prog (f a)) -> sound_prog (bind p f).
Proof.
  intros Hp Hf.
  induction p as [a|jid k IH|jid u k IH|jid u k IH|y k IH|file k IH
                  |uid jid m k IH|jid k IH];
    simpl in *.
  - apply Hf.
  - intros r. apply IH, Hp.
  - split; [apply Hp|apply IH, Hp].
  - split; [apply Hp|apply IH, Hp].
  - intros r. apply IH, Hp.
  - intros r. apply IH, Hp.
  - intros r. apply IH, Hp.
  - apply IH, Hp.
Qed.

Lemma sound_forEach jobId ps :
  sound_prog (forEach ps (onProgress jobId)).
Proof.
  induction ps as [|p ps IH]; simpl; [exact I|].
  split; [apply (plain_updates_sound 0 "" p)|].
  exact IH.
Qed.

Lemma POST_sound now req : sound_prog (POST now req).
Proof.
  pose (p0 := {| p_stage := preparing; p_progress := 0 |}).
  pose proof (fun msg => plain_updates_sound now msg p0) as Hu.
  destruct req as [|[[|c jid]|]]; try exact I.
  unfold POST. simpl. intros [j|]; [|exact I].
  destruct (is_terminal (status j)); [exact I|].
  simpl. split; [apply (Hu "")|].
  intros [audio|].
  - simpl. split; [apply (Hu "")|].
    intros [ps [err|r]].
    + apply sound_bind; [apply sound_forEach|]. intros _. simpl.
      split; [apply (Hu _)|]. split; exact I.
    + apply sound_bind; [apply sound_forEach|]. intros _. simpl.
      split; [apply (Hu "")|]. intros c0.
      split; [apply mark_completed_sound|]. exact I.
  - simpl. split; [apply (Hu _)|]. split; exact I.
Qed.

(** One call of an invocation keeps the rows sound, leaves a sound rest
    and fires sound writes only. *)
Lemma advance_sound {A} e d (p : prog A) d' p' fired :
  advance e d p = Some (d', p', fired) ->
  sound_prog p ->
  (forall jid j, transcription_jobs d !! jid = Some j ->
                 status j = completed -> transcript_data j <> None) ->
  (forall jid j, transcription_jobs d' !! jid = Some j ->
                 status j = completed -> transcript_data j <> None)
  /\ sound_prog p'
  /\ Forall (fun w : string * job_update => sound_update (snd w)) fired.
Proof.
  destruct p as [a|jid k|jid u k|jid u k|y k|file k|uid jid m k|jid k];
    simpl; intros Hadv Hp Hd; try discriminate;
    injection Hadv as <- <- <-.
  - split; [exact Hd|]. split; [apply Hp|constructor].
  - destruct Hp as [Hu Hk].
    split; [now apply update_keeps_rows_sound|]. split; [exact Hk|constructor].
  - destruct Hp as [Hu Hk].
    split; [exact Hd|]. split; [exact Hk|].
    constructor; [exact Hu|constructor].
  - split; [exact Hd|]. split; [apply Hp|constructor].
  - split; [exact Hd|]. split; [apply Hp|constructor].
  - split; [now rewrite consume_keeps_jobs|]. split; [apply Hp|constructor].
  - split; [now rewrite refund_keeps_jobs|]. split; [exact Hp|constructor].
Qed.

Lemma initial_sound s : initial s -> system_sound s.
Proof.
  intros (Hj & _ & Hi & Hu). unfold system_sound.
  rewrite Hj, Hi, Hu. split; [|split; constructor].
  intros jid j. now rewrite lookup_empty.
Qed.

Lemma act_sound a s s' : act a s = Some s' -> system_sound s -> system_sound s'.
Proof.
  intros Ha (Hd & Hi & Hu).
  destruct a as [jobId userId youtubeId|now req|i e|n|i|jobId
                 |userId pi minutes paid]; simpl in Ha.
  - destruct (transcription_jobs (store s) !! jobId) as [j0|] eqn:E;
      [discriminate|].
    injection Ha as <-. split; [|split; assumption].
    simpl. intros jid j.
    destruct (decide (jid = jobId)) as [->|Hne].
    + rewrite lookup_insert_eq. intros [= <-]. discriminate.
    + rewrite lookup_insert_ne by congruence. apply Hd.
  - injection Ha as <-. split; [exact Hd|]. split; [|exact Hu].
    simpl. apply Forall_app. split; [exact Hi|].
    constructor; [apply POST_sound|constructor].
  - destruct (inflight s !! i) as [p|] eqn:Ep; [|discriminate].
    destruct (advance e (store s) p) as [[[d' p'] fired]|] eqn:Eadv;
      [|discriminate].
    injection Ha as <-.
    destruct (advance_sound e (store s) p d' p' fired Eadv
                (Forall_lookup_1 _ _ _ _ Hi Ep) Hd) as (Hd' & Hp' & Hf).
    split; [exact Hd'|]. split; simpl.
    + now apply Forall_insert.
    + apply Forall_app. now split.
  - destruct (unlanded s !! n) as [[jobId u]|] eqn:En; [|discriminate].
    injection Ha as <-.
    split; [|split; [exact Hi|now apply Forall_delete]].
    simpl. apply update_keeps_rows_sound; [|exact Hd].
    exact (Forall_lookup_1 _ _ _ _ Hu En).
  - injection Ha as <-. split; [exact Hd|]. split; [|exact Hu].
    now apply Forall_delete.
  - destruct (transcription_jobs (store s) !! jobId) as [j0|] eqn:E;
      [|discriminate].
    injection Ha as <-. split; [|split; assumption].
    simpl. intros jid j. rewrite cancel_jobs.
    change (alter (apply_update mark_cancelled) jobId
              (transcription_jobs (store s)))
      with (transcription_jobs
              (updateTranscriptionJobStatus jobId mark_cancelled (store s))).
    apply update_keeps_rows_sound; [|exact Hd].
    apply (plain_updates_sound 0 ""
             {| p_stage := preparing; p_progress := 0 |}).
  - destruct (add_transcription_topup_credits _ _ _ _ _) as [[r d']|]
      eqn:Et; [|discriminate].
    injection Ha as <-. split; [|split; assumption].
    simpl. rewrite (topup_keeps_jobs _ _ _ _ _ _ _ Et). exact Hd.
Qed.

Lemma reachable_sound s : reachable s -> system_sound s.
Proof.
  induction 1 as [s Hi|s s' _ IH [a Ha]].
  - now apply initial_sound.
  - exact (act_sound a s s' Ha IH).
Qed.

(** C5, as amended: in every state that submissions, invocations of the
    handler running side by side (their calls interleaved in any order,
    an invocation possibly abandoned), fired progress writes landing at
    any later moment, cancellations and top-up credits can reach, a job
    whose status is completed has a transcript; and every write under
    way, fired and not yet landed or still to be made by an invocation,
    that sets status completed or a transcript sets status completed,
    progress 100 and the transcript together. *)
Theorem completed_job_has_its_transcript (s : system) :
  reachable s ->
  (forall jobId j,
      transcription_jobs (store s) !! jobId = Some j ->
      status j = completed -> transcript_data j <> None)
  /\ (forall jobId u,
        In (jobId, u) (unlanded s) ->
        set_status u = Some completed \/ set_transcriptData u <> None ->
        set_status u = Some completed /\ set_progress u = Some 100
        /\ set_transcriptData u <> None)
  /\ Forall (fun p : prog response => sound_prog p) (inflight s).
Proof.
  intros Hs. destruct (reachable_sound s Hs) as (Hd & Hi & Hu).
  split; [exact Hd|]. split; [|exact Hi].
  intros jobId u Hin.
  rewrite Forall_forall in Hu.
  apply (Hu (jobId, u)). now apply list_elem_of_In.
Qed.

End JobInvariant.

Lemma no_jobs_initial : Orchestrator.initial Scenario.no_jobs_yet.
Proof. repeat split. Qed.

(** A schedule that runs from the system without jobs ends in a reachable
    state. *)
Lemma exec_state_after acts :
  match Orchestrator.exec acts Scenario.no_jobs_yet with
  | Some _ => true
  | None => false
  end = true ->
  Orchestrator.exec acts Scenario.no_jobs_yet = Some (Scenario.state_after acts).
Proof.
  unfold Scenario.state_after.
  destruct (Orchestrator.exec acts Scenario.no_jobs_yet);
    [reflexivity|discriminate].
Qed.

Lemma state_after_reachable acts :
  match Orchestrator.exec acts Scenario.no_jobs_yet with
  | Some _ => true
  | None => false
  end = true ->
  Orchestrator.reachable (Scenario.state_after acts).
Proof.
  intros H.
  exact (exec_reachable acts Scenario.no_jobs_yet _
           (Orchestrator.reach_initial _ no_jobs_initial)
           (exec_state_after acts H)).
Qed.

(** *** The handler on the sample data *)

(** C1, a job the claim does not hold for: carol's job needs 3 minutes, the
    ledger has 1, consumption is denied with INSUFFICIENT_CREDITS, and the
    job ends completed with its transcript and without an error message. *)
Lemma denied_job_is_completed :
  Orchestrator.durationMinutes Scenario.sample_transcript = 3
  /\ Ledger.allowed
       (fst (Orchestrator.consume_for Scenario.all_goes_well "carol" "job-2" 3
               Scenario.sample_db)) = false
  /\ Ledger.reason
       (fst (Orchestrator.consume_for Scenario.all_goes_well "carol" "job-2" 3
               Scenario.sample_db)) = "INSUFFICIENT_CREDITS"
  /\ fst (Orchestrator.run Scenario.all_goes_well
            (Orchestrator.POST 1000 (Orchestrator.Body (Some "job-2")))
            (Orchestrator.fresh Scenario.sample_db))
     = Orchestrator.Completed 1 (inject_Z 125) "en"
  /\ status <$>
       transcription_jobs
         (Orchestrator.database
            (snd (Orchestrator.run Scenario.all_goes_well
                    (Orchestrator.POST 1000 (Orchestrator.Body (Some "job-2")))
                    (Orchestrator.fresh Scenario.sample_db)))) !! "job-2"
     = Some completed
  /\ transcript_data <$>
       transcription_jobs
         (Orchestrator.database
            (snd (Orchestrator.run Scenario.all_goes_well
                    (Orchestrator.POST 1000 (Orchestrator.Body (Some "job-2")))
                    (Orchestrator.fresh Scenario.sample_db)))) !! "job-2"
     = Some (Some (Gemini.segments Scenario.sample_transcript))
  /\ error_message <$>
       transcription_jobs
         (Orchestrator.database
            (snd (Orchestrator.run Scenario.all_goes_well
                    (Orchestrator.POST 1000 (Orchestrator.Body (Some "job-2")))
                    (Orchestrator.fresh Scenario.sample_db)))) !! "job-2"
     = Some None.
Proof. repeat split; vm_compute; reflexivity. Qed.

(** C1 on the sample data. *)
Lemma denied_consumption_on_sample :
  exists j',
    transcription_jobs
      (Orchestrator.database
         (snd (Orchestrator.run Scenario.all_goes_well
                 (Orchestrator.POST 1000 (Orchestrator.Body (Some "job-2")))
                 (Orchestrator.fresh Scenario.sample_db)))) !! "job-2"
    = Some j'
    /\ status j' = completed
    /\ progress j' = 100
    /\ transcript_data j' = Some (Gemini.segments Scenario.sample_transcript).
Proof.
  refine (proj1 (proj2 (proj2
    (denied_consumption_still_completes Scenario.all_goes_well 1000 "job-2"
       (Orchestrator.new_job "carol" "yt-2") Scenario.sample_db
       Scenario.sample_audio _ Scenario.sample_transcript
       _ eq_refl eq_refl eq_refl eq_refl eq_refl)))).
  discriminate.
Defined.

(** C2 on the sample data: alice's job holds the usage rows of an
    abandoned invocation (one subscription minute, two top-up minutes) when
    a second invocation fails to download; the handler leaves the job
    failed and without usage rows. *)
Lemma failed_download_of_a_charged_job :
  Ledger.sum_minutes
    (List.filter (Ledger.of_job "job-1")
       (transcription_usage Scenario.charged_db)) = 3
  /\ Orchestrator.success
       (fst (Orchestrator.run Scenario.download_fails
               (Orchestrator.POST 2000 (Orchestrator.Body (Some "job-1")))
               (Orchestrator.fresh Scenario.charged_db))) = false
  /\ Ledger.sum_minutes
       (List.filter (Ledger.of_job "job-1")
          (transcription_usage
             (Orchestrator.database
                (snd (Orchestrator.run Scenario.download_fails
                        (Orchestrator.POST 2000 (Orchestrator.Body (Some "job-1")))
                        (Orchestrator.fresh Scenario.charged_db)))))) = 0.
Proof.
  split; [vm_compute; reflexivity|].
  assert (exists j,
             transcription_jobs Scenario.charged_db !! "job-1" = Some j
             /\ Orchestrator.is_terminal (status j) = false
             /\ youtube_id j = "yt-1") as (j & Hj & Ht & Hy).
  { eexists. split; [vm_compute; reflexivity|]. split; reflexivity. }
  pose proof
    (failure_marks_failed_then_refunds Scenario.download_fails 2000 "job-1"
       j Scenario.charged_db ltac:(discriminate) Hj Ht (or_introl eq_refl))
    as H.
  exact (conj (proj1 H) (proj1 (proj2 (proj2 (proj2 H))))).
Defined.

(** C2, a reachable state the claim does not hold for: alice's job holds
    the three minutes an abandoned invocation consumed; a second invocation
    fails to download and has written status failed; the job is failed
    while its usage rows are all there, and only the next call of the
    invocation, the refund, removes them.  In the calls of the failing
    invocation the write of status failed comes before the refund. *)
Lemma failed_job_still_holds_its_minutes :
  Orchestrator.exec Scenario.failure_of_a_charged_job Scenario.no_jobs_yet
  = Some (Scenario.state_after Scenario.failure_of_a_charged_job)
  /\ Orchestrator.reachable (Scenario.state_after Scenario.failure_of_a_charged_job)
  /\ (status <$>
        transcription_jobs
          (Orchestrator.store
             (Scenario.state_after Scenario.failure_of_a_charged_job))
        !! "job-1") = Some failed
  /\ Ledger.sum_minutes
       (List.filter (Ledger.of_job "job-1")
          (transcription_usage
             (Orchestrator.store
                (Scenario.state_after Scenario.failure_of_a_charged_job)))) = 3
  /\ (exists s',
        Orchestrator.act (Orchestrator.Advance 0 Scenario.download_fails)
          (Scenario.state_after Scenario.failure_of_a_charged_job) = Some s'
        /\ Ledger.sum_minutes
             (List.filter (Ledger.of_job "job-1")
                (transcription_usage (Orchestrator.store s'))) = 0)
  /\ Orchestrator.effects
       (snd (Orchestrator.run Scenario.download_fails
               (Orchestrator.POST 2000 (Orchestrator.Body (Some "job-1")))
               (Orchestrator.fresh Scenario.charged_db)))
     = [ Orchestrator.JobFetched "job-1";
         Orchestrator.JobUpdated "job-1" (Orchestrator.mark_downloading 2000);
         Orchestrator.AudioRequested "yt-1";
         Orchestrator.JobUpdated "job-1"
           (Orchestrator.mark_failed "Failed to download audio from YouTube" 2000);
         Orchestrator.MinutesRefunded "job-1" ]
  /\ Orchestrator.refund_precedes_failure []
       (Orchestrator.effects
          (snd (Orchestrator.run Scenario.download_fails
                  (Orchestrator.POST 2000 (Orchestrator.Body (Some "job-1")))
                  (Orchestrator.fresh Scenario.charged_db))))
     = false.
Proof.
  split; [apply exec_state_after; vm_compute; reflexivity|].
  split; [apply state_after_reachable; vm_compute; reflexivity|].
  split; [vm_compute; reflexivity|].
  split; [vm_compute; reflexivity|].
  split.
  { eexists. split; [vm_compute; reflexivity|]. vm_compute. reflexivity. }
  split; vm_compute; reflexivity.
Qed.

(** C5 on the sample data: carol's job after an invocation that ran to its
    completing write. *)
Lemma completed_job_of_a_schedule :
  Orchestrator.reachable (Scenario.state_after Scenario.late_progress_write)
  /\ forall j,
       transcription_jobs
         (Orchestrator.store (Scenario.state_after Scenario.late_progress_write))
       !! "job-2" = Some j ->
       status j = completed -> transcript_data j <> None.
Proof.
  assert (Hr : Orchestrator.reachable
                 (Scenario.state_after Scenario.late_progress_write)).
  { apply state_after_reachable. vm_compute. reflexivity. }
  split; [exact Hr|].
  exact (proj1 (completed_job_has_its_transcript _ Hr) "job-2").
Defined.

(** C5, two reachable states the claim does not hold for.  In the first
    carol's job is completed and has its transcript, and its progress is
    54: the first progress write that the invocation fired landed after
    the completing write.  In the second her job is failed and has a
    transcript and progress 100: an invocation whose download failed wrote
    status failed after another invocation of the same job had completed
    it. *)
Lemma completed_is_not_transcript_and_full_progress :
  (Orchestrator.reachable (Scenario.state_after Scenario.late_progress_write)
   /\ exists j,
        transcription_jobs
          (Orchestrator.store (Scenario.state_after Scenario.late_progress_write))
        !! "job-2" = Some j
        /\ status j = completed
        /\ transcript_data j <> None
        /\ progress j = 54)
  /\ (Orchestrator.reachable (Scenario.state_after Scenario.overlapping_invocations)
      /\ exists j,
           transcription_jobs
             (Orchestrator.store
                (Scenario.state_after Scenario.overlapping_invocations))
           !! "job-2" = Some j
           /\ status j = failed
           /\ transcript_data j <> None
           /\ progress j = 100).
Proof.
  split; (split;
    [ apply state_after_reachable; vm_compute; reflexivity
    | eexists; split; [vm_compute; reflexivity|];
      repeat split; discriminate ]).
Qed.

(** C10 on the sample data: alice's failed job is left as it is. *)
Lemma failed_job_is_left_alone :
  fst (Orchestrator.run Scenario.all_goes_well
         (Orchestrator.POST 1000 (Orchestrator.Body (Some "job-9")))
         (Orchestrator.fresh Scenario.archive_db))
  = Orchestrator.AlreadyTerminal failed
  /\ Orchestrator.database
       (snd (Orchestrator.run Scenario.all_goes_well
               (Orchestrator.POST 1000 (Orchestrator.Body (Some "job-9")))
               (Orchestrator.fresh Scenario.archive_db)))
     = Scenario.archive_db
  /\ Orchestrator.effects
       (snd (Orchestrator.run Scenario.all_goes_well
               (Orchestrator.POST 1000 (Orchestrator.Body (Some "job-9")))
               (Orchestrator.fresh Scenario.archive_db)))
     = [Orchestrator.JobFetched "job-9"].
Proof.
  pose proof
    (terminal_job_is_left_alone Scenario.all_goes_well 1000 "job-9"
       Scenario.failed_job Scenario.archive_db
       ltac:(discriminate) eq_refl (or_intror (or_introl eq_refl))) as H.
  exact (conj (proj1 H) (proj2 (proj2 (proj2 (proj2 H))))).
Defined.

(** ** The ledger's books *)

Section AccountingFacts.
Import Ledger Accounting.

Lemma sum_minutes_nonneg rows : Forall usage_row_ok rows -> 0 <= sum_minutes rows.
Proof.
  induction 1 as [|r rows Hr _ IH]; unfold sum_minutes in *; simpl; [lia|].
  unfold usage_row_ok in Hr. lia.
Qed.

Lemma sum_minutes_append l1 l2 :
  sum_minutes (l1 ++ l2) = sum_minutes l1 + sum_minutes l2.
Proof.
  induction l1 as [|r l1 IH]; unfold sum_minutes in *; simpl; [reflexivity|].
  rewrite IH. lia.
Qed.

Lemma tier_gate prof :
  negb (String.eqb (subscription_tier prof) "pro") = false ->
  subscription_tier prof = "pro".
Proof.
  destruct (String.eqb_spec (subscription_tier prof) "pro"); [easy|discriminate].
Qed.

(** X1: on one database, and with arguments for which neither procedure
    raises (no int4 computation of either overflows, and the job id has a
    row in [transcription_jobs] whenever the consume operation records
    usage), the pre-flight check and the atomic consume operation give the
    same verdict and the same reason. *)
Theorem check_agrees_with_consume
    (d : db) (uid jid : uuid) (m limit : Z) (ps pe : option Z) :
  (forall p, profiles d !! uid = Some p -> profile_ok p) ->
  check_raises uid m limit ps pe d = false ->
  consume_raises uid jid m limit ps pe d = false ->
  let c := check_transcription_minutes_available uid m limit ps pe d in
  let r := fst (consume_transcription_minutes_atomically uid jid m limit ps pe d) in
  chk_allowed c = allowed r
  /\ chk_reason c = reason r
  /\ chk_total_remaining c
     = chk_subscription_remaining c + chk_topup_remaining c
  /\ 0 <= chk_total_remaining c.
Proof.
  intros Hok _ _ c r. subst c r.
  unfold check_transcription_minutes_available,
    consume_transcription_minutes_atomically.
  destruct (profiles d !! uid) as [prof|] eqn:Hp; [|simpl; repeat split; lia].
  destruct (negb _); [simpl; repeat split; lia|].
  specialize (Hok prof eq_refl). unfold profile_ok in Hok.
  set (s := Z.max 0 _). assert (Hs : 0 <= s) by (subst s; lia).
  unfold split_consumption. simpl.
  destruct (Z.geb_spec (s + transcription_minutes_topup prof) m);
    destruct (Z.geb_spec s m); simpl; repeat split; lia.
Qed.

(** *** The constraints *)

Lemma forall_filter {A} (P : A -> Prop) f (l : list A) :
  Forall P l -> Forall P (List.filter f l).
Proof.
  induction 1 as [|x l Hx _ IH]; simpl; [constructor|].
  destruct (f x); [constructor; assumption|assumption].
Qed.

Lemma record_usage_ok uid jid n src ps pe rows :
  Forall usage_row_ok rows ->
  Forall usage_row_ok (record_usage uid jid n src ps pe rows).
Proof.
  intros H. unfold record_usage. destruct (Z.ltb_spec 0 n); [|exact H].
  apply Forall_app. split; [exact H|]. repeat constructor. exact H0.
Qed.

Lemma consume_keeps_constraints d uid jid m limit ps pe :
  db_ok d ->
  db_ok (snd (consume_transcription_minutes_atomically uid jid m limit ps pe d)).
Proof.
  intros (Hprof & Hrows & Hpur & Hids).
  unfold consume_transcription_minutes_atomically.
  destruct (profiles d !! uid) as [prof|] eqn:Hp; [|repeat split; assumption].
  destruct (negb _); [repeat split; assumption|].
  set (s := Z.max 0 _). assert (Hs : 0 <= s) by (subst s; lia).
  pose proof (Hprof uid prof Hp) as Ht. unfold profile_ok in Ht.
  destruct (split_consumption s _ m) as [[a b]|] eqn:Hsplit;
    [|repeat split; assumption].
  simpl. split; [|split; [|split; assumption]].
  - intros u p. simpl.
    destruct (Z.ltb_spec 0 b) as [Hb|Hb]; [|apply Hprof].
    rewrite update_topup_lookup.
    destruct (decide (uid = u)) as [<-|Hne]; [|apply Hprof].
    rewrite Hp. intros [= <-]. unfold profile_ok, add_topup. simpl.
    unfold split_consumption in Hsplit.
    destruct (Z.geb_spec s m); [injection Hsplit as <- <-; lia|].
    destruct (Z.geb_spec (s + transcription_minutes_topup prof) m);
      [injection Hsplit as <- <-; lia|discriminate].
  - simpl. now do 2 apply record_usage_ok.
Qed.

Lemma charged_nonneg src jid uid rows :
  Forall usage_row_ok rows -> 0 <= charged src jid uid rows.
Proof. intros H. apply sum_minutes_nonneg, forall_filter, H. Qed.

Lemma refund_profiles jid d uid :
  profiles (snd (refund_transcription_minutes jid d)) !! uid
  = add_topup (charged topup jid uid (transcription_usage d))
      <$> profiles d !! uid.
Proof.
  destruct (refund_loop jid (transcription_usage d) (profiles d) 0) as [L _].
  rewrite <- L. unfold refund_transcription_minutes.
  destruct (foldl _ _ _). reflexivity.
Qed.

Lemma refund_usage jid d :
  transcription_usage (snd (refund_transcription_minutes jid d))
  = List.filter (fun r => negb (of_job jid r)) (transcription_usage d).
Proof.
  unfold refund_transcription_minutes. destruct (foldl _ _ _). reflexivity.
Qed.

Lemma refund_purchases jid d :
  transcription_topup_purchases (snd (refund_transcription_minutes jid d))
  = transcription_topup_purchases d.
Proof.
  unfold refund_transcription_minutes. destruct (foldl _ _ _). reflexivity.
Qed.

Lemma refund_keeps_constraints d jid :
  db_ok d -> db_ok (snd (refund_transcription_minutes jid d)).
Proof.
  intros (Hprof & Hrows & Hpur & Hids).
  split; [|split; [|split]].
  - intros u p. rewrite refund_profiles.
    destruct (profiles d !! u) as [p0|] eqn:Hp; [|discriminate].
    intros [= <-]. pose proof (Hprof u p0 Hp) as Ht.
    pose proof (charged_nonneg topup jid u _ Hrows).
    unfold profile_ok, add_topup in *. simpl. lia.
  - rewrite refund_usage. now apply forall_filter.
  - now rewrite refund_purchases.
  - now rewrite refund_purchases.
Qed.

Lemma purchase_exists_false pi d :
  purchase_exists pi d = false ->
  ~ In pi (map stripe_payment_intent_id (transcription_topup_purchases d)).
Proof.
  unfold purchase_exists. intros H Hin.
  apply in_map_iff in Hin. destruct Hin as (p & <- & Hp).
  assert (existsb (fun p0 => String.eqb (stripe_payment_intent_id p0)
                               (stripe_payment_intent_id p))
                  (transcription_topup_purchases d) = true).
  { apply existsb_exists. exists p. split; [exact Hp|apply String.eqb_refl]. }
  congruence.
Qed.

Lemma NoDup_snoc {A} (l : list A) x : NoDup l -> ~ In x l -> NoDup (l ++ [x]).
Proof.
  induction 1 as [|y l Hy Hl IH]; intros Hx; simpl.
  - constructor; [intros H; inversion H|constructor].
  - constructor.
    + rewrite list_elem_of_In in *. intros Hin. apply in_app_or in Hin.
      destruct Hin as [Hin|[<-|[]]]; [contradiction|].
      apply Hx. now left.
    + apply IH. intros Hin. apply Hx. now right.
Qed.

Lemma topup_keeps_constraints d uid pi m paid r d' :
  db_ok d ->
  add_transcription_topup_credits uid pi m paid d = Returned (r, d') ->
  db_ok d'.
Proof.
  intros (Hprof & Hrows & Hpur & Hids).
  unfold add_transcription_topup_credits.
  destruct (purchase_exists pi d) eqn:Hex;
    [intros [= _ <-]; repeat split; assumption|].
  destruct (Z.leb_spec 0 paid) as [Hpaid|Hpaid]; simpl; [|discriminate].
  destruct (Z.ltb_spec 0 m) as [Hm|Hm]; simpl; [|discriminate].
  intros [= _ <-]. split; [|split; [|split]]; simpl.
  - intros u p. rewrite update_topup_lookup.
    destruct (decide (uid = u)) as [<-|Hne]; [|apply Hprof].
    destruct (profiles d !! uid) as [p0|] eqn:Hp; [|discriminate].
    intros [= <-]. pose proof (Hprof uid p0 Hp) as Ht.
    unfold profile_ok, add_topup in *. simpl. lia.
  - exact Hrows.
  - apply Forall_app. split; [exact Hpur|]. repeat constructor; assumption.
  - rewrite map_app. apply NoDup_snoc; [exact Hids|].
    now apply purchase_exists_false.
Qed.

(** X2: the three operations keep the constraints of the ledger's tables:
    no balance below 0, no usage row and no purchase without minutes, no
    payment-intent id twice. *)
Theorem ledger_constraints_are_kept (d : db) :
  db_ok d ->
  (forall uid jid m limit ps pe,
      db_ok (snd (consume_transcription_minutes_atomically
                    uid jid m limit ps pe d)))
  /\ (forall jid, db_ok (snd (refund_transcription_minutes jid d)))
  /\ (forall uid pi m paid r d',
        add_transcription_topup_credits uid pi m paid d = Returned (r, d') ->
        db_ok d').
Proof.
  intros Hok. split; [|split].
  - intros. now apply consume_keeps_constraints.
  - intros. now apply refund_keeps_constraints.
  - intros. eapply topup_keeps_constraints; eassumption.
Qed.

(** *** What a consumption records *)

Lemma record_usage_app uid jid n src ps pe rows :
  record_usage uid jid n src ps pe rows
  = rows ++ record_usage uid jid n src ps pe [].
Proof. unfold record_usage. destruct (0 <? n); simpl; now rewrite ?app_nil_r. Qed.

Lemma record_usage_sum uid jid n src ps pe :
  sum_minutes (record_usage uid jid n src ps pe []) = Z.max 0 n.
Proof.
  unfold record_usage. destruct (Z.ltb_spec 0 n); unfold sum_minutes; simpl; lia.
Qed.

Lemma record_usage_owner uid jid n src ps pe :
  Forall (fun r => u_job_id r = jid /\ u_user_id r = uid /\ source r = src)
         (record_usage uid jid n src ps pe []).
Proof.
  unfold record_usage. destruct (0 <? n); repeat constructor.
Qed.

(** The shape of a consumption that went through. *)
Lemma consume_allowed_shape d uid jid m limit ps pe a b sr tr :
  fst (consume_transcription_minutes_atomically uid jid m limit ps pe d)
  = Consumed a b sr tr ->
  exists prof,
    profiles d !! uid = Some prof
    /\ a + b = m /\ 0 <= b
    /\ a <= Z.max 0 (limit - get_transcription_usage_in_period uid ps pe d)
    /\ b <= Z.max 0 (transcription_minutes_topup prof)
    /\ transcription_usage
         (snd (consume_transcription_minutes_atomically uid jid m limit ps pe d))
       = transcription_usage d
         ++ record_usage uid jid a subscription ps pe []
         ++ record_usage uid jid b topup ps pe []
    /\ profiles
         (snd (consume_transcription_minutes_atomically uid jid m limit ps pe d))
       = (if 0 <? b then <[uid := add_topup (- b) prof]> (profiles d)
          else profiles d)
    /\ transcription_topup_purchases
         (snd (consume_transcription_minutes_atomically uid jid m limit ps pe d))
       = transcription_topup_purchases d.
Proof.
  unfold consume_transcription_minutes_atomically.
  destruct (profiles d !! uid) as [prof|] eqn:Hp; [|discriminate].
  destruct (negb _); [discriminate|].
  set (s := Z.max 0 _).
  destruct (split_consumption s _ m) as [[a' b']|] eqn:Hsplit; [|discriminate].
  simpl. intros [= <- <- _ _]. exists prof. split; [reflexivity|].
  assert (Hab : a' + b' = m /\ 0 <= b' /\ a' <= s
                /\ b' <= Z.max 0 (transcription_minutes_topup prof)).
  { unfold split_consumption in Hsplit.
    destruct (Z.geb_spec s m); [injection Hsplit as <- <-; lia|].
    destruct (Z.geb_spec (s + transcription_minutes_topup prof) m);
      [injection Hsplit as <- <-; lia|discriminate]. }
  destruct Hab as (H1 & H2 & H3 & H4).
  repeat (split; [assumption|]).
  split; [|split; [|reflexivity]].
  - rewrite (record_usage_app _ _ b'), (record_usage_app _ _ a').
    now rewrite <- app_assoc.
  - destruct (0 <? b'); [|reflexivity].
    unfold update_topup. now apply alter_known.
Qed.

Lemma consume_denied_shape d uid jid m limit ps pe :
  allowed (fst (consume_transcription_minutes_atomically uid jid m limit ps pe d))
  = false ->
  snd (consume_transcription_minutes_atomically uid jid m limit ps pe d) = d.
Proof.
  unfold consume_transcription_minutes_atomically.
  destruct (profiles d !! uid) as [prof|]; [|reflexivity].
  destruct (negb _); [reflexivity|].
  destruct (split_consumption _ _ _) as [[a b]|]; [discriminate|reflexivity].
Qed.

Lemma consume_parts_sum d uid jid m limit ps pe a b sr tr :
  fst (consume_transcription_minutes_atomically uid jid m limit ps pe d)
  = Consumed a b sr tr ->
  Z.max 0 a + Z.max 0 b = Z.max 0 m.
Proof.
  unfold consume_transcription_minutes_atomically.
  destruct (profiles d !! uid) as [prof|]; [|discriminate].
  destruct (negb _); [discriminate|].
  unfold split_consumption.
  destruct (Z.geb_spec
              (Z.max 0 (limit - get_transcription_usage_in_period uid ps pe d))
              m); simpl.
  - intros [= <- <- _ _]. lia.
  - destruct (Z.geb_spec
                (Z.max 0 (limit - get_transcription_usage_in_period uid ps pe d)
                 + transcription_minutes_topup prof) m); simpl;
      [intros [= <- <- _ _]; lia | discriminate].
Qed.

(** X3: a consumption that goes through charges the minutes asked for, no
    more and no less: the two parts add up to them, the rows it adds are
    the job's and the user's and sum to them (to nothing when none or
    fewer are asked for), and the balance drops by the top-up part; a
    consumption that is denied, for whatever reason, changes nothing. *)
Theorem consume_charges_exactly
    (d : db) (uid jid : uuid) (m limit : Z) (ps pe : option Z) :
  let r := fst (consume_transcription_minutes_atomically uid jid m limit ps pe d) in
  let d' := snd (consume_transcription_minutes_atomically uid jid m limit ps pe d) in
  match r with
  | Consumed a b _ _ =>
    a + b = m /\ 0 <= b
    /\ (exists new,
          transcription_usage d' = transcription_usage d ++ new
          /\ sum_minutes new = Z.max 0 m
          /\ Forall (fun r => u_job_id r = jid /\ u_user_id r = uid) new)
    /\ balance_of uid d' = (fun t => t - b) <$> balance_of uid d
  | _ => d' = d
  end.
Proof.
  intros r d'. subst r d'.
  destruct (fst (consume_transcription_minutes_atomically uid jid m limit ps pe d))
    as [| |? ? ? ?|a b sr tr] eqn:Hr;
    try (apply consume_denied_shape; now rewrite Hr).
  destruct (consume_allowed_shape _ _ _ _ _ _ _ _ _ _ _ Hr)
    as (prof & Hp & Hab & Hb & Ha & _ & Hrows & Hprofs & _).
  split; [exact Hab|]. split; [exact Hb|]. split.
  - eexists. split; [exact Hrows|]. split.
    + rewrite sum_minutes_append, !record_usage_sum.
      assert (0 <= Z.max 0 (limit - get_transcription_usage_in_period uid ps pe d))
        by lia.
      destruct (Z.le_gt_cases a 0) as [Hle|Hgt]; [|lia].
      (* nothing comes from the subscription: either nothing was asked
         for, or all of it comes from top-up *)
      unfold consume_transcription_minutes_atomically in Hr.
      rewrite Hp in Hr. destruct (negb _); [discriminate|].
      unfold split_consumption in Hr.
      destruct (Z.geb_spec
                  (Z.max 0 (limit - get_transcription_usage_in_period uid ps pe d))
                  m); simpl in Hr.
      * injection Hr as <- <- _ _. lia.
      * destruct (Z.geb_spec
                    (Z.max 0 (limit - get_transcription_usage_in_period uid ps pe d)
                     + transcription_minutes_topup prof) m); simpl in Hr;
          [injection Hr as <- <- _ _; lia|discriminate].
    + apply Forall_app. split.
      * eapply List.Forall_impl; [|apply record_usage_owner]. simpl. tauto.
      * eapply List.Forall_impl; [|apply record_usage_owner]. simpl. tauto.
  - unfold balance_of. rewrite Hprofs, Hp. simpl.
    destruct (Z.ltb_spec 0 b).
    + rewrite lookup_insert_eq. simpl. f_equal; lia.
    + rewrite Hp. simpl. f_equal; lia.
Qed.

(** *** Period usage *)

Lemma sql_eq_null_l b : sql_eq None b = false.
Proof. reflexivity. Qed.

Lemma sql_eq_null_r a : sql_eq a None = false.
Proof. destruct a; reflexivity. Qed.

Lemma usage_in_period_app uid ps pe d rows :
  get_transcription_usage_in_period uid ps pe
    (with_usage d (transcription_usage d ++ rows))
  = get_transcription_usage_in_period uid ps pe d
    + sum_minutes (List.filter (in_period uid ps pe) rows).
Proof.
  unfold get_transcription_usage_in_period. simpl.
  now rewrite List.filter_app, sum_minutes_append.
Qed.

Lemma usage_in_period_rows uid ps pe d d' :
  transcription_usage d' = transcription_usage d ->
  get_transcription_usage_in_period uid ps pe d'
  = get_transcription_usage_in_period uid ps pe d.
Proof. unfold get_transcription_usage_in_period. now intros ->. Qed.

Lemma in_period_topup_rows u ps' pe' uid jid b ps pe :
  List.filter (in_period u ps' pe') (record_usage uid jid b topup ps pe []) = [].
Proof.
  unfold record_usage. destruct (0 <? b); [|reflexivity].
  simpl. unfold in_period. simpl. now rewrite andb_false_r.
Qed.

Lemma in_period_subscription_rows u ps' pe' uid jid a ps pe :
  sum_minutes
    (List.filter (in_period u ps' pe')
                 (record_usage uid jid a subscription ps pe []))
  = if String.eqb uid u && sql_eq ps ps' && sql_eq pe pe' && (0 <? a)
    then a else 0.
Proof.
  unfold record_usage. destruct (0 <? a) eqn:Ha;
    [|now rewrite andb_false_r].
  simpl. unfold in_period. simpl. rewrite andb_true_r.
  destruct (_ && _ && _); unfold sum_minutes; simpl; lia.
Qed.

(** The period usage that a consumption leaves. *)
Lemma usage_after_consume d uid jid m limit ps pe u ps' pe' :
  get_transcription_usage_in_period u ps' pe'
    (snd (consume_transcription_minutes_atomically uid jid m limit ps pe d))
  = get_transcription_usage_in_period u ps' pe' d
    + match fst (consume_transcription_minutes_atomically uid jid m limit ps pe d)
      with
      | Consumed a _ _ _ =>
        if String.eqb uid u && sql_eq ps ps' && sql_eq pe pe' && (0 <? a)
        then a else 0
      | _ => 0
      end.
Proof.
  destruct (fst (consume_transcription_minutes_atomically uid jid m limit ps pe d))
    as [| |? ? ? ?|a b sr tr] eqn:Hr;
    try (rewrite consume_denied_shape by (now rewrite Hr); lia).
  destruct (consume_allowed_shape _ _ _ _ _ _ _ _ _ _ _ Hr)
    as (prof & _ & _ & _ & _ & _ & Hrows & _).
  transitivity
    (get_transcription_usage_in_period u ps' pe'
       (with_usage d
          (transcription_usage d
             ++ record_usage uid jid a subscription ps pe []
             ++ record_usage uid jid b topup ps pe []))).
  { apply usage_in_period_rows. exact Hrows. }
  rewrite usage_in_period_app, List.filter_app, sum_minutes_append.
  rewrite in_period_topup_rows, in_period_subscription_rows.
  change (sum_minutes []) with 0. lia.
Qed.

(** X4: no consumption takes the usage of a period beyond the limit it is
    called with: afterwards the period usage is at most the larger of the
    limit and the usage before. *)
Theorem consume_never_overspends_subscription
    (d : db) (uid jid : uuid) (m limit : Z) (ps pe : option Z) :
  get_transcription_usage_in_period uid ps pe
    (snd (consume_transcription_minutes_atomically uid jid m limit ps pe d))
  <= Z.max limit (get_transcription_usage_in_period uid ps pe d).
Proof.
  rewrite usage_after_consume.
  destruct (fst (consume_transcription_minutes_atomically uid jid m limit ps pe d))
    as [| |? ? ? ?|a b sr tr] eqn:Hr; try lia.
  destruct (consume_allowed_shape _ _ _ _ _ _ _ _ _ _ _ Hr)
    as (prof & _ & _ & _ & Ha & _).
  destruct (_ && _ && _ && _) eqn:Hcond; [|lia].
  apply andb_prop in Hcond. destruct Hcond as [_ Hpos].
  apply Z.ltb_lt in Hpos. lia.
Qed.

(** X5: with a null period bound no usage row counts: the period usage
    reads 0 on every database, and the verdict of a consumption is the one
    it would give without any usage row. *)
Theorem null_period_counts_no_usage
    (d : db) (uid jid : uuid) (m limit : Z) (ps pe : option Z) :
  ps = None \/ pe = None ->
  get_transcription_usage_in_period uid ps pe d = 0
  /\ fst (consume_transcription_minutes_atomically uid jid m limit ps pe d)
     = fst (consume_transcription_minutes_atomically uid jid m limit ps pe
              (with_usage d []))
  /\ get_transcription_usage_in_period uid ps pe
       (snd (consume_transcription_minutes_atomically uid jid m limit ps pe d))
     = 0.
Proof.
  intros Hnull.
  assert (Hzero : forall d0, get_transcription_usage_in_period uid ps pe d0 = 0).
  { intros d0. unfold get_transcription_usage_in_period.
    induction (transcription_usage d0) as [|r rows IH]; [reflexivity|].
    simpl. unfold in_period at 1.
    destruct Hnull as [-> | ->];
      rewrite ?sql_eq_null_r, ?andb_false_r; simpl; exact IH. }
  split; [apply Hzero|]. split; [|apply Hzero].
  unfold consume_transcription_minutes_atomically.
  rewrite (Hzero d), (Hzero (with_usage d [])). simpl.
  destruct (profiles d !! uid) as [prof|]; [|reflexivity].
  destruct (negb _); [reflexivity|].
  destruct (split_consumption _ _ _) as [[a b]|]; reflexivity.
Qed.

(** X6: a consumption touches the books of its own user only: the balance
    of any other user, the period usage of any other user and the
    purchases are as before. *)
Theorem consume_leaves_other_users_alone
    (d : db) (uid jid : uuid) (m limit : Z) (ps pe : option Z) (u : uuid) :
  u <> uid ->
  let d' := snd (consume_transcription_minutes_atomically uid jid m limit ps pe d) in
  profiles d' !! u = profiles d !! u
  /\ (forall ps' pe',
        get_transcription_usage_in_period u ps' pe' d'
        = get_transcription_usage_in_period u ps' pe' d)
  /\ transcription_topup_purchases d' = transcription_topup_purchases d.
Proof.
  intros Hne d'. subst d'.
  assert (Heqb : String.eqb uid u = false).
  { destruct (String.eqb_spec uid u); [congruence|reflexivity]. }
  split; [|split].
  - destruct (fst (consume_transcription_minutes_atomically uid jid m limit ps pe d))
      as [| |? ? ? ?|a b sr tr] eqn:Hr;
      try (rewrite consume_denied_shape by (now rewrite Hr); reflexivity).
    destruct (consume_allowed_shape _ _ _ _ _ _ _ _ _ _ _ Hr)
      as (prof & _ & _ & _ & _ & _ & _ & Hprofs & _).
    rewrite Hprofs. destruct (0 <? b); [|reflexivity].
    apply lookup_insert_ne. congruence.
  - intros ps' pe'. rewrite usage_after_consume, Heqb. simpl.
    destruct (fst _); lia.
  - destruct (fst (consume_transcription_minutes_atomically uid jid m limit ps pe d))
      as [| |? ? ? ?|a b sr tr] eqn:Hr;
      try (rewrite consume_denied_shape by (now rewrite Hr); reflexivity).
    now destruct (consume_allowed_shape _ _ _ _ _ _ _ _ _ _ _ Hr)
      as (prof & _ & _ & _ & _ & _ & _ & _ & Hpur).
Qed.

(** *** Consumption and refund together *)

Lemma db_ext (d d' : db) :
  profiles d' = profiles d ->
  transcription_usage d' = transcription_usage d ->
  transcription_topup_purchases d' = transcription_topup_purchases d ->
  transcription_jobs d' = transcription_jobs d ->
  d' = d.
Proof. destruct d, d'; simpl; now intros -> -> -> ->. Qed.

Lemma charged_app src jid uid l1 l2 :
  charged src jid uid (l1 ++ l2) = charged src jid uid l1 + charged src jid uid l2.
Proof. unfold charged. now rewrite List.filter_app, sum_minutes_append. Qed.

Lemma charged_without_rows src jid uid rows :
  List.filter (of_job jid) rows = [] -> charged src jid uid rows = 0.
Proof.
  intros H. unfold charged.
  induction rows as [|r rows IH]; [reflexivity|].
  simpl in *. unfold of_job in H at 1.
  destruct (String.eqb (u_job_id r) jid); [discriminate|].
  simpl. now apply IH.
Qed.

Lemma charged_new_rows src' jid uid u n src ps pe :
  charged src' jid u (record_usage uid jid n src ps pe [])
  = if usage_source_eqb src src' && String.eqb uid u then Z.max 0 n else 0.
Proof.
  unfold record_usage, charged.
  destruct (Z.ltb_spec 0 n); simpl.
  - rewrite String.eqb_refl. simpl.
    destruct (_ && _); unfold sum_minutes; simpl; lia.
  - destruct (_ && _); [lia|reflexivity].
Qed.

Lemma filter_new_rows jid uid n src ps pe :
  List.filter (fun r => negb (of_job jid r)) (record_usage uid jid n src ps pe [])
  = [].
Proof.
  unfold record_usage. destruct (0 <? n); [|reflexivity].
  simpl. unfold of_job. simpl. now rewrite String.eqb_refl.
Qed.

Lemma consume_keeps_job_rows d uid jid m limit ps pe :
  transcription_jobs
    (snd (consume_transcription_minutes_atomically uid jid m limit ps pe d))
  = transcription_jobs d.
Proof.
  unfold consume_transcription_minutes_atomically.
  destruct (profiles d !! uid) as [prof|]; [|reflexivity].
  destruct (negb _); [reflexivity|].
  destruct (split_consumption _ _ _) as [[a b]|]; reflexivity.
Qed.

Lemma refund_jobs jid d :
  transcription_jobs (snd (refund_transcription_minutes jid d))
  = transcription_jobs d.
Proof.
  unfold refund_transcription_minutes. destruct (foldl _ _ _). reflexivity.
Qed.

(** X7: a refund undoes a consumption: for a job without usage rows,
    consuming for it (whether it goes through or not) and then refunding
    it gives the database back as it was. *)
Theorem refund_undoes_consume
    (d : db) (uid jid : uuid) (m limit : Z) (ps pe : option Z) :
  List.filter (of_job jid) (transcription_usage d) = [] ->
  snd (refund_transcription_minutes jid
         (snd (consume_transcription_minutes_atomically uid jid m limit ps pe d)))
  = d.
Proof.
  intros Hnone.
  destruct (fst (consume_transcription_minutes_atomically uid jid m limit ps pe d))
    as [| |? ? ? ?|a b sr tr] eqn:Hr;
    try (rewrite consume_denied_shape by (now rewrite Hr);
         now rewrite refund_without_rows).
  destruct (consume_allowed_shape _ _ _ _ _ _ _ _ _ _ _ Hr)
    as (prof & Hp & _ & Hb & _ & _ & Hrows & Hprofs & Hpur).
  apply db_ext.
  - apply map_eq. intros u. rewrite refund_profiles, Hrows, Hprofs.
    rewrite !charged_app, (charged_without_rows _ _ _ _ Hnone),
      !charged_new_rows. simpl.
    destruct (Z.ltb_spec 0 b) as [Hpos|Hle].
    + rewrite lookup_insert.
      destruct (decide (uid = u)) as [<-|Hne].
      * rewrite String.eqb_refl, Hp. simpl. f_equal.
        rewrite add_topup_add.
        replace (- b + (0 + (0 + Z.max 0 b))) with 0 by lia.
        apply add_topup_0.
      * destruct (String.eqb_spec uid u); [contradiction|].
        destruct (profiles d !! u); simpl; [now rewrite add_topup_0|reflexivity].
    + replace (Z.max 0 b) with 0 by lia.
      destruct (String.eqb uid u); simpl;
        (destruct (profiles d !! u); simpl; [now rewrite add_topup_0|reflexivity]).
  - rewrite refund_usage, Hrows, !List.filter_app, !filter_new_rows.
    rewrite !app_nil_r. now apply filter_keeps_all.
  - now rewrite refund_purchases.
  - now rewrite refund_jobs, consume_keeps_job_rows.
Qed.

(** *** The books balance *)

Lemma topup_used_split jid uid rows :
  sum_minutes
    (List.filter (fun r => usage_source_eqb (source r) topup
                           && String.eqb (u_user_id r) uid) rows)
  = charged topup jid uid rows
    + sum_minutes
        (List.filter (fun r => usage_source_eqb (source r) topup
                               && String.eqb (u_user_id r) uid)
           (List.filter (fun r => negb (of_job jid r)) rows)).
Proof.
  induction rows as [|r rows IH]; [reflexivity|].
  rewrite charged_cons. simpl. unfold of_job at 1.
  destruct (String.eqb (u_job_id r) jid); simpl;
    destruct (usage_source_eqb (source r) topup && String.eqb (u_user_id r) uid);
    unfold sum_minutes in *; simpl; lia.
Qed.

(** X8: the books of the top-up minutes balance.  For a user with a
    profile, what is left plus what the usage rows record as drawn from
    top-up minus what was purchased is the same number before and after a
    consumption, a refund and a credited purchase, for whomever they are
    made. *)
Theorem topup_books_balance (d : db) (u : uuid) :
  is_Some (profiles d !! u) ->
  (forall uid jid m limit ps pe,
      unbought u (snd (consume_transcription_minutes_atomically
                         uid jid m limit ps pe d))
      = unbought u d)
  /\ (forall jid,
        unbought u (snd (refund_transcription_minutes jid d)) = unbought u d)
  /\ (forall uid pi m paid r d',
        add_transcription_topup_credits uid pi m paid d = Returned (r, d') ->
        unbought u d' = unbought u d).
Proof.
  intros [p Hp]. split; [|split].
  - intros uid jid m limit ps pe.
    destruct (fst (consume_transcription_minutes_atomically uid jid m limit ps pe d))
      as [| |? ? ? ?|a b sr tr] eqn:Hr;
      try (rewrite consume_denied_shape by (now rewrite Hr); reflexivity).
    destruct (consume_allowed_shape _ _ _ _ _ _ _ _ _ _ _ Hr)
      as (prof & Hprof & _ & Hb & _ & _ & Hrows & Hprofs & Hpur).
    unfold unbought, topup_left, balance_of, topup_used, purchased.
    rewrite Hrows, Hprofs, Hpur, !List.filter_app, !sum_minutes_append.
    assert (Hsub : List.filter
                     (fun r => usage_source_eqb (source r) topup
                               && String.eqb (u_user_id r) u)
                     (record_usage uid jid a subscription ps pe []) = []).
    { unfold record_usage. destruct (0 <? a); reflexivity. }
    rewrite Hsub. change (sum_minutes []) with 0.
    unfold record_usage.
    destruct (Z.ltb_spec 0 b) as [Hpos|Hle]; simpl.
    + rewrite lookup_insert.
      destruct (decide (uid = u)) as [<-|Hne].
      * rewrite String.eqb_refl, Hprof. unfold sum_minutes. simpl. lia.
      * destruct (String.eqb_spec uid u); [contradiction|].
        rewrite Hp. change (sum_minutes []) with 0. simpl. lia.
    + change (sum_minutes []) with 0. lia.
  - intros jid.
    unfold unbought, topup_left, balance_of, topup_used, purchased.
    rewrite refund_profiles, refund_usage, refund_purchases, Hp. simpl.
    rewrite (topup_used_split jid u (transcription_usage d)). lia.
  - intros uid pi m paid r d'.
    unfold add_transcription_topup_credits.
    destruct (purchase_exists pi d); [now intros [= _ <-]|].
    destruct (negb _); [discriminate|]. destruct (negb _); [discriminate|].
    intros [= _ <-].
    unfold unbought, topup_left, balance_of, topup_used, purchased. simpl.
    rewrite update_topup_lookup, List.filter_app, foldr_app. simpl.
    destruct (decide (uid = u)) as [->|Hne].
    + rewrite String.eqb_refl, Hp. simpl.
      assert (Hfold : forall l z,
                foldr (fun p0 acc => minutes_purchased p0 + acc) z l
                = foldr (fun p0 acc => minutes_purchased p0 + acc) 0 l + z).
      { induction l as [|x l IH]; intros z; simpl; [lia|].
        rewrite IH. lia. }
      rewrite (Hfold _ (m + 0)). lia.
    + destruct (String.eqb_spec uid u); [contradiction|]. simpl. reflexivity.
Qed.

End AccountingFacts.

(** *** The books on the sample data *)

Lemma sample_db_ok : Accounting.db_ok Scenario.sample_db.
Proof.
  split; [|split; [|split]]; try constructor.
  intros uid p. unfold Scenario.sample_db. simpl.
  rewrite !lookup_insert_Some, lookup_empty.
  intros [[_ <-]|[_ [[_ <-]|[_ [[_ <-]|[_ H]]]]]];
    try discriminate; unfold profile_ok; simpl; lia.
Qed.

(** X1 on the sample data: alice's 15 minutes pass the check as they pass
    the consumption. *)
Lemma check_agrees_for_alice :
  Accounting.chk_allowed
    (Accounting.check_transcription_minutes_available "alice" 15 10
       (Some 100) (Some 200) Scenario.sample_db) = true
  /\ Accounting.chk_reason
       (Accounting.check_transcription_minutes_available "alice" 15 10
          (Some 100) (Some 200) Scenario.sample_db) = "OK".
Proof.
  pose proof (check_agrees_with_consume Scenario.sample_db "alice" "job-1"
                15 10 (Some 100) (Some 200)) as H.
  destruct H as (Ha & Hr & _).
  { intros p Hp. vm_compute in Hp. injection Hp as <-.
    unfold profile_ok. simpl. lia. }
  { vm_compute. reflexivity. }
  { vm_compute. reflexivity. }
  split; [exact Ha | exact Hr].
Defined.

(** X2 on the sample data. *)
Lemma constraints_after_alice_consumes :
  Accounting.db_ok
    (snd (Ledger.consume_transcription_minutes_atomically "alice" "job-1" 15 10
            (Some 100) (Some 200) Scenario.sample_db)).
Proof.
  exact (proj1 (ledger_constraints_are_kept Scenario.sample_db sample_db_ok)
           "alice" "job-1" 15 10 (Some 100) (Some 200)).
Defined.

(** X5 on the sample data: after alice's consumption the usage of a period
    without a start still reads 0. *)
Lemma null_period_reads_zero :
  Ledger.get_transcription_usage_in_period "alice" None (Some 200)
    (snd (Ledger.consume_transcription_minutes_atomically "alice" "job-1" 8 10
            None (Some 200) Scenario.sample_db)) = 0.
Proof.
  exact (proj2 (proj2 (null_period_counts_no_usage Scenario.sample_db
                         "alice" "job-1" 8 10 None (Some 200)
                         (or_introl eq_refl)))).
Defined.

(** X6 on the sample data: alice's consumption leaves bob's profile as it
    is. *)
Lemma bob_is_left_alone :
  profiles
    (snd (Ledger.consume_transcription_minutes_atomically "alice" "job-1" 15 10
            (Some 100) (Some 200) Scenario.sample_db)) !! "bob"
  = profiles Scenario.sample_db !! "bob".
Proof.
  refine (proj1 (consume_leaves_other_users_alone Scenario.sample_db
                   "alice" "job-1" 15 10 (Some 100) (Some 200) "bob" _)).
  discriminate.
Defined.

(** X7 on the sample data. *)
Lemma refund_undoes_alice :
  snd (Ledger.refund_transcription_minutes "job-1"
         (snd (Ledger.consume_transcription_minutes_atomically
                 "alice" "job-1" 15 10 (Some 100) (Some 200)
                 Scenario.sample_db)))
  = Scenario.sample_db.
Proof.
  exact (refund_undoes_consume Scenario.sample_db "alice" "job-1" 15 10
           (Some 100) (Some 200) eq_refl).
Defined.

(** X8 on the sample data: alice's 20 minutes without a purchase stay 20
    through her consumption. *)
Lemma alice_books_balance :
  Accounting.unbought "alice"
    (snd (Ledger.consume_transcription_minutes_atomically "alice" "job-1" 15 10
            (Some 100) (Some 200) Scenario.sample_db))
  = Accounting.unbought "alice" Scenario.sample_db.
Proof.
  refine (proj1 (topup_books_balance Scenario.sample_db "alice" _)
            "alice" "job-1" 15 10 (Some 100) (Some 200)).
  eexists. reflexivity.
Defined.

(** ** The Gemini client: bounds and edge cases *)

Section ClientFacts.
Import Gemini Trace.

Context {provider : Type}.
Variable executeTranscription :
  string -> audio_part -> provider -> (thrown + TranscriptionResult) * provider.
Variable uploadViaFilesApi :
  audio_file -> provider -> (thrown + string) * provider.

Local Abbreviation cascade := (cascade executeTranscription).
Local Abbreviation model_run := (model_run executeTranscription).
Local Abbreviation cascade_run := (cascade_run executeTranscription).
Local Abbreviation transcribeAudio :=
  (transcribeAudio executeTranscription uploadViaFilesApi).

Local Ltac quiet_log :=
  unfold calls; cbn [snd log paused List.filter is_call length].

Lemma calls_app l1 l2 : calls (l1 ++ l2) = (calls l1 + calls l2)%nat.
Proof. unfold calls. rewrite List.filter_app, length_app. reflexivity. Qed.

Lemma paused_app l1 l2 : paused (l1 ++ l2) = paused l1 + paused l2.
Proof.
  induction l1 as [|ev l1 IH]; simpl; [reflexivity|].
  destruct ev; rewrite IH; lia.
Qed.

Lemma paused_nonneg_run m part a p l res p' :
  0 <= a -> model_run m part a p l res p' -> 0 <= paused l.
Proof.
  intros Ha H. induction H; simpl; try lia.
  assert (0 < 2 ^ a) by (apply Z.pow_pos_nonneg; lia).
  unfold INITIAL_RETRY_DELAY_MS. specialize (IHmodel_run ltac:(lia)). lia.
Qed.

(** One model: at most the attempts that are left, and pauses that double
    from the current one. *)
Lemma model_run_bounds m part a p l res p' :
  0 <= a -> model_run m part a p l res p' ->
  (calls l <= Z.to_nat (MAX_RETRIES - a))%nat
  /\ paused l + INITIAL_RETRY_DELAY_MS * 2 ^ a <= 8000.
Proof.
  unfold MAX_RETRIES, INITIAL_RETRY_DELAY_MS.
  intros Ha H. induction H as [a p r p' Hlt _|a p e p' Hlt _ _
                               |a p e p' l res p'' Hlt _ _ _ IH|p].
  - unfold MAX_RETRIES in Hlt.
    assert (a = 0 \/ a = 1 \/ a = 2) as [->|[->| ->]] by lia;
      split; vm_compute; try lia; discriminate.
  - unfold MAX_RETRIES in Hlt.
    assert (a = 0 \/ a = 1 \/ a = 2) as [->|[->| ->]] by lia;
      split; vm_compute; try lia; discriminate.
  - unfold MAX_RETRIES in Hlt. specialize (IH ltac:(lia)).
    destruct IH as [IHc IHp].
    change (calls (Tried m a part (inl e)
                     :: Slept (INITIAL_RETRY_DELAY_MS * 2 ^ a) :: l))
      with (S (calls l)).
    change (paused (Tried m a part (inl e)
                      :: Slept (INITIAL_RETRY_DELAY_MS * 2 ^ a) :: l))
      with (1000 * 2 ^ a + paused l).
    replace (2 ^ (a + 1)) with (2 * 2 ^ a) in IHp
      by (rewrite Z.pow_add_r by lia; lia).
    split; [|lia].
    assert (Z.to_nat (3 - a) = S (Z.to_nat (3 - (a + 1)))) as -> by lia.
    lia.
  - split; vm_compute; [lia | discriminate].
Qed.

Lemma cascade_run_bounds part models p l res p' :
  cascade_run part models p l res p' ->
  (calls l <= 3 * length models)%nat
  /\ 0 <= paused l <= 7000 * Z.of_nat (length models).
Proof.
  induction 1 as [m rest p l r p' Hm|m rest p l p' l' res p'' Hm _ IH|p].
  - pose proof (model_run_bounds _ _ _ _ _ _ _ (Z.le_refl 0) Hm) as [Hc Hp].
    pose proof (paused_nonneg_run _ _ _ _ _ _ _ (Z.le_refl 0) Hm).
    change (Z.to_nat (MAX_RETRIES - 0)) with 3%nat in Hc.
    change (INITIAL_RETRY_DELAY_MS * 2 ^ 0) with 1000 in Hp.
    simpl length. lia.
  - pose proof (model_run_bounds _ _ _ _ _ _ _ (Z.le_refl 0) Hm) as [Hc Hp].
    pose proof (paused_nonneg_run _ _ _ _ _ _ _ (Z.le_refl 0) Hm).
    change (Z.to_nat (MAX_RETRIES - 0)) with 3%nat in Hc.
    change (INITIAL_RETRY_DELAY_MS * 2 ^ 0) with 1000 in Hp.
    rewrite calls_app, paused_app. simpl length. lia.
  - split; vm_compute; [lia | split; discriminate].
Qed.

Lemma model_list_length model : (3 <= length (model_list model) <= 4)%nat.
Proof.
  destruct model as [[|c m0]|]; [simpl; lia| |simpl; lia].
  set (m := String c m0).
  unfold model_list, TRANSCRIPTION_MODELS. fold m. cbn [List.filter].
  destruct (String.eqb_spec "gemini-3-flash-preview" m) as [<-|_];
    [vm_compute; lia|].
  destruct (String.eqb_spec "gemini-2.5-flash-lite" m) as [<-|_];
    [vm_compute; lia|].
  destruct (String.eqb "gemini-3-pro-preview" m); simpl; lia.
Qed.

Lemma cascade_log_bounds models part cs :
  exists l,
    log (snd (cascade models part cs)) = log cs ++ l
    /\ (calls l <= 3 * length models)%nat
    /\ 0 <= paused l <= 7000 * Z.of_nat (length models).
Proof.
  destruct (cascade_refines executeTranscription part models cs)
    as (l & Hlog & Hrun & _).
  exists l. split; [exact Hlog|].
  exact (cascade_run_bounds _ _ _ _ _ _ Hrun).
Qed.

(** X9: whatever the provider answers, one call of [transcribeAudio] makes
    at most [MAX_RETRIES] generation calls per model of its list and pauses
    at most 7 seconds per model: at most 9 calls and 21 seconds with the
    default list, at most 12 calls and 28 seconds with a preferred model. *)
Theorem transcribeAudio_calls_are_bounded
    (key : option string) (f : audio_file) (model : option string)
    (p : provider) :
  let l := log (snd (transcribeAudio key f model p)) in
  (calls l <= 3 * length (model_list model))%nat
  /\ 0 <= paused l <= 7000 * Z.of_nat (length (model_list model))
  /\ (calls l <= 12)%nat /\ paused l <= 28000
  /\ (model = None -> (calls l <= 9)%nat /\ paused l <= 21000).
Proof.
  intros l.
  assert ((calls l <= 3 * length (model_list model))%nat
          /\ 0 <= paused l <= 7000 * Z.of_nat (length (model_list model)))
    as [Hc Hp].
  { subst l. unfold Gemini.transcribeAudio.
    pose proof (model_list_length model) as Hlen.
    destruct key as [[|k0 k]|]; try (quiet_log; split; lia).
    destruct (validateAudioFile (Some f)); [|quiet_log; split; lia].
    destruct (useFilesApi f).
    - destruct (uploadViaFilesApi f p) as [[e|uri] p']; [quiet_log; split; lia|].
      destruct (cascade_log_bounds (model_list model) (fileData uri)
                  {| remote := p'; lastError := None; log := [Uploaded f] |})
        as (l' & -> & Hc & Hp).
      cbn [log]. rewrite calls_app, paused_app.
      change (calls [Uploaded f]) with 0%nat.
      change (paused [Uploaded f]) with 0. split; lia.
    - destruct (cascade_log_bounds (model_list model) (inlineData f)
                  {| remote := p; lastError := None; log := [Encoded f] |})
        as (l' & -> & Hc & Hp).
      cbn [log]. rewrite calls_app, paused_app.
      change (calls [Encoded f]) with 0%nat.
      change (paused [Encoded f]) with 0. split; lia. }
  pose proof (model_list_length model) as Hlen.
  split; [exact Hc|]. split; [exact Hp|].
  split; [lia|]. split; [lia|].
  intros ->. change (length (model_list None)) with 3%nat in Hc, Hp. lia.
Qed.

Lemma model_run_answer m part a p l res p' :
  model_run m part a p l res p' ->
  match res with
  | Some r =>
    exists l0 a',
      l = l0 ++ [Tried m a' part (inr r)]
      /\ Forall (fun ev => answered ev = false) l0
  | None => Forall (fun ev => answered ev = false) l
  end.
Proof.
  induction 1 as [a p r p' _ _|a p e p' _ _ _
                 |a p e p' l res p'' _ _ _ _ IH|p].
  - exists [], a. split; [reflexivity | constructor].
  - repeat constructor.
  - destruct res as [r|].
    + destruct IH as (l0 & a' & -> & Hl0).
      exists (Tried m a part (inl e)
                :: Slept (INITIAL_RETRY_DELAY_MS * 2 ^ a) :: l0), a'.
      split; [reflexivity|]. repeat constructor. exact Hl0.
    + repeat constructor. exact IH.
  - constructor.
Qed.

Lemma cascade_run_answer part models p l res p' :
  cascade_run part models p l res p' ->
  match res with
  | Some r =>
    exists l0 m a,
      l = l0 ++ [Tried m a part (inr r)]
      /\ In m models
      /\ Forall (fun ev => answered ev = false) l0
  | None => Forall (fun ev => answered ev = false) l
  end.
Proof.
  induction 1 as [m rest p l r p' Hm|m rest p l p' l' res p'' Hm _ IH|p].
  - destruct (model_run_answer _ _ _ _ _ _ _ Hm) as (l0 & a & -> & Hl0).
    exists l0, m, a. split; [reflexivity|]. split; [left; reflexivity|exact Hl0].
  - pose proof (model_run_answer _ _ _ _ _ _ _ Hm) as Hl. cbn beta iota in Hl.
    destruct res as [r|].
    + destruct IH as (l0 & m' & a & -> & Hin & Hl0).
      exists (l ++ l0), m', a. split; [rewrite <- app_assoc; reflexivity|].
      split; [right; exact Hin|]. apply Forall_app. split; assumption.
    + apply Forall_app. split; assumption.
  - constructor.
Qed.

(** X10: the cascade stops at the first answer.  When [transcribeAudio]'s
    cascade returns a transcript, that transcript is the answer of the last
    call of the log, made on a model of the list, and no earlier call had
    answered; when it throws, no call has answered. *)
Theorem cascade_stops_at_first_answer
    (models : list string) (part : audio_part) (cs : cascade_state) :
  exists l,
    log (snd (cascade models part cs)) = log cs ++ l
    /\ match fst (cascade models part cs) with
       | inr r =>
         exists l0 m a,
           l = l0 ++ [Tried m a part (inr r)]
           /\ In m models
           /\ Forall (fun ev => answered ev = false) l0
       | inl _ => Forall (fun ev => answered ev = false) l
       end.
Proof.
  destruct (cascade_refines executeTranscription part models cs)
    as (l & Hlog & Hrun & _).
  exists l. split; [exact Hlog|].
  pose proof (cascade_run_answer _ _ _ _ _ _ Hrun) as H.
  destruct (fst (cascade models part cs)) as [e|r]; exact H.
Qed.

(** X11: a call without API key, or with a file that is empty, larger than
    520 MB or of an unsupported extension, throws before anything is sent:
    nothing is encoded or uploaded, no model is called and the provider is
    left as it was. *)
Theorem turned_down_input_sends_nothing
    (key : option string) (f : audio_file) (model : option string)
    (p : provider) :
  key = None \/ key = Some "" \/ turned_down f ->
  exists e,
    transcribeAudio key f model p
    = (inl e, {| remote := p; lastError := None; log := [] |}).
Proof.
  unfold Gemini.transcribeAudio.
  intros [->|[->|H]]; [eexists; reflexivity..|].
  destruct key as [[|k0 k]|]; [eexists; reflexivity| |eexists; reflexivity].
  assert (exists msg, validateAudioFile (Some f) = Invalid msg) as [msg ->];
    [|eexists; reflexivity].
  unfold validateAudioFile.
  destruct (Z.eqb_spec (size f) 0) as [|Hne]; [eexists; reflexivity|].
  destruct (Z.gtb_spec (size f) MAX_FILE_SIZE) as [|Hle]; [eexists; reflexivity|].
  destruct H as [H|[H|(name & -> & ->)]]; [lia..|].
  eexists. reflexivity.
Qed.

End ClientFacts.

Section FormatFacts.
Import Gemini Trace.

Lemma append_nil_r s : (s ++ "")%string = s.
Proof.
  induction s as [|a s IH]; [reflexivity|].
  change (String a (s ++ "")%string = String a s). f_equal. exact IH.
Qed.

Lemma append_snoc acc c e :
  ((acc ++ String c "") ++ e)%string = (acc ++ String c e)%string.
Proof.
  induction acc as [|a acc IH]; [reflexivity|].
  change (String a ((acc ++ String c "") ++ e)%string
          = String a (acc ++ String c e)%string).
  f_equal. exact IH.
Qed.

Lemma last_component_dotless e : forall acc,
  dotless e = true -> last_component e acc = (acc ++ e)%string.
Proof.
  induction e as [|c e IH]; intros acc H.
  - symmetry. apply append_nil_r.
  - cbn [dotless] in H. cbn [last_component].
    destruct (Ascii.eqb c "."%char); [discriminate|].
    rewrite IH by exact H. apply append_snoc.
Qed.

Lemma last_component_after_dot base e : forall acc,
  last_component (base ++ String "."%char e) acc = last_component e "".
Proof.
  induction base as [|c base IH]; intros acc.
  - reflexivity.
  - change (last_component (String c (base ++ String "."%char e)%string) acc
            = last_component e "").
    cbn [last_component]. destruct (Ascii.eqb c "."%char); apply IH.
Qed.

Lemma lower_ascii_dot c :
  Ascii.eqb (lower_ascii c) "."%char = Ascii.eqb c "."%char.
Proof.
  destruct c as [[] [] [] [] [] [] [] []]; reflexivity.
Qed.

Lemma lower_ascii_twice c : lower_ascii (lower_ascii c) = lower_ascii c.
Proof.
  destruct c as [[] [] [] [] [] [] [] []]; reflexivity.
Qed.

Lemma toLowerCase_twice s : toLowerCase (toLowerCase s) = toLowerCase s.
Proof.
  induction s as [|c s IH]; [reflexivity|].
  cbn [toLowerCase]. rewrite lower_ascii_twice, IH. reflexivity.
Qed.

Lemma dotless_toLowerCase s : dotless (toLowerCase s) = dotless s.
Proof.
  induction s as [|c s IH]; [reflexivity|].
  cbn [toLowerCase dotless]. rewrite lower_ascii_dot, IH. reflexivity.
Qed.

Lemma extension_decides base e :
  dotless e = true ->
  isSupportedFormat (base ++ String "."%char e)
  = existsb (String.eqb (toLowerCase e)) SUPPORTED_FORMATS.
Proof.
  intros H. unfold isSupportedFormat.
  rewrite last_component_after_dot, last_component_dotless by exact H.
  reflexivity.
Qed.

(** X13: only what follows the last dot of a file name decides whether its
    format is supported, and the letter case of it does not: the name
    [base.e], for an [e] without a dot, is supported exactly when the lower
    case of [e] is one of the supported formats, whatever [base] is. *)
Theorem format_is_read_off_the_extension (base e : string) :
  dotless e = true ->
  isSupportedFormat (base ++ String "."%char e)
  = existsb (String.eqb (toLowerCase e)) SUPPORTED_FORMATS
  /\ isSupportedFormat (base ++ String "."%char e) = isSupportedFormat e
  /\ isSupportedFormat (base ++ String "."%char (toLowerCase e))
     = isSupportedFormat (base ++ String "."%char e).
Proof.
  intros H. split; [exact (extension_decides base e H)|]. split.
  - rewrite (extension_decides base e H). unfold isSupportedFormat.
    rewrite last_component_dotless by exact H. reflexivity.
  - rewrite (extension_decides base e H).
    rewrite (extension_decides base (toLowerCase e))
      by (rewrite dotless_toLowerCase; exact H).
    rewrite toLowerCase_twice. reflexivity.
Qed.

Lemma toLowerCase_app a b :
  toLowerCase (a ++ b) = (toLowerCase a ++ toLowerCase b)%string.
Proof.
  induction a as [|c a IH]; [reflexivity|].
  change (String (lower_ascii c) (toLowerCase (a ++ b))
          = String (lower_ascii c) (toLowerCase a ++ toLowerCase b)%string).
  f_equal. exact IH.
Qed.

Lemma prefix_app n b : String.prefix n (n ++ b) = true.
Proof.
  induction n as [|c n IH]; [destruct b; reflexivity|].
  change (String.prefix (String c n) (String c (n ++ b)%string) = true).
  cbn [String.prefix]. destruct (Ascii.ascii_dec c c) as [_|Hne];
    [exact IH | contradiction Hne; reflexivity].
Qed.

Lemma includes_prefix n h : String.prefix n h = true -> includes n h = true.
Proof. intros H. destruct h; cbn [includes]; rewrite H; reflexivity. Qed.

Lemma includes_app n a b : includes n (a ++ n ++ b) = true.
Proof.
  induction a as [|c a IH].
  - change (includes n (n ++ b)%string = true).
    apply includes_prefix, prefix_app.
  - change (includes n (String c (a ++ n ++ b)%string) = true).
    cbn [includes]. rewrite IH. apply orb_true_r.
Qed.

(** X14: an error whose message mentions [503] or [429] anywhere, or
    [overload], [rate limit] or [quota] in any letter case, is retried
    whatever its status and code are. *)
Theorem throttling_messages_are_retryable
    (isError : bool) (a w b : string) (st cd : js_field) :
  In w ["503"; "429"]
  \/ In (toLowerCase w) ["overload"; "rate limit"; "quota"] ->
  isRetryableError (Thrown isError (a ++ w ++ b) st cd) = true.
Proof.
  intros H. unfold isRetryableError.
  assert (includes w (a ++ w ++ b) = true) as Hw by apply includes_app.
  assert (includes (toLowerCase w) (toLowerCase (a ++ w ++ b)) = true) as Hl.
  { rewrite !toLowerCase_app. apply includes_app. }
  destruct H as [[<-|[<-|[]]]|[Hq|[Hq|[Hq|[]]]]];
    try rewrite Hq; try rewrite Hw; try rewrite Hl;
    rewrite ?orb_true_r; reflexivity.
Qed.

(** X12: with a preferred model the list of models to try starts with it,
    names no model twice, keeps every default model as a fallback and adds
    none. *)
Theorem preferred_model_goes_first (m : string) :
  m <> "" ->
  (exists rest, model_list (Some m) = m :: rest)
  /\ NoDup (model_list (Some m))
  /\ (forall x, In x (model_list (Some m)) <-> x = m \/ In x TRANSCRIPTION_MODELS).
Proof.
  intros Hm. destruct m as [|c m0]; [contradiction|].
  set (m := String c m0). unfold model_list. fold m.
  split; [eexists; reflexivity|]. split.
  - apply NoDup_ListNoDup. constructor.
    + rewrite List.filter_In. intros [_ H].
      rewrite String.eqb_refl in H. discriminate.
    + apply List.NoDup_filter. unfold TRANSCRIPTION_MODELS.
      repeat constructor; simpl; intuition discriminate.
  - intros x. split.
    + intros [Hx|H]; [left; symmetry; exact Hx|].
      apply List.filter_In in H. right. exact (proj1 H).
    + intros [->|H]; [left; reflexivity|].
      destruct (String.eqb_spec x m) as [->|Hne]; [left; reflexivity|].
      right. apply List.filter_In. split; [exact H|].
      apply negb_true_iff, String.eqb_neq. exact Hne.
Qed.

End FormatFacts.

(** ** One invocation of the handler, from the outside *)

Section InvocationFacts.
Import Ledger Orchestrator Audit.

#[local] Arguments updateTranscriptionJobStatus : simpl never.
#[local] Arguments consume_for : simpl never.
#[local] Arguments refund_transcription_minutes : simpl never.

Lemma after_updates_lookup jid us : forall d,
  transcription_jobs (after_updates jid us d) !! jid
  = updated us <$> transcription_jobs d !! jid.
Proof.
  induction us as [|u us IH]; intros d; simpl.
  - destruct (transcription_jobs d !! jid); reflexivity.
  - rewrite IH, update_job_lookup.
    destruct (transcription_jobs d !! jid); reflexivity.
Qed.

Lemma after_updates_other jid us jid' : jid' <> jid -> forall d,
  transcription_jobs (after_updates jid us d) !! jid'
  = transcription_jobs d !! jid'.
Proof.
  intros Hne. induction us as [|u us IH]; intros d; simpl; [reflexivity|].
  rewrite IH. unfold updateTranscriptionJobStatus. simpl.
  apply lookup_alter_ne. congruence.
Qed.

Lemma after_updates_ledger jid us d :
  profiles (after_updates jid us d) = profiles d
  /\ transcription_usage (after_updates jid us d) = transcription_usage d
  /\ transcription_topup_purchases (after_updates jid us d)
     = transcription_topup_purchases d.
Proof. rewrite after_updates_view. repeat split; reflexivity. Qed.

Lemma updated_app us vs j : updated (us ++ vs) j = updated vs (updated us j).
Proof. unfold updated. apply foldl_app. Qed.

Lemma updated_owner us : forall j,
  j_user_id (updated us j) = j_user_id j
  /\ youtube_id (updated us j) = youtube_id j.
Proof.
  induction us as [|u us IH]; intros j; simpl; [split; reflexivity|].
  destruct (IH (apply_update u j)) as [-> ->]. split; reflexivity.
Qed.

Lemma consume_for_after_updates e uid jid m jid' us d :
  consume_for e uid jid m (after_updates jid' us d)
  = (fst (consume_for e uid jid m d),
     with_jobs (snd (consume_for e uid jid m d))
               (transcription_jobs (after_updates jid' us d))).
Proof.
  pose proof (consume_for_frame e uid jid m d
                (transcription_jobs (after_updates jid' us d))) as H.
  rewrite <- after_updates_view in H. exact H.
Qed.

(** The two ways an invocation that found a job to process ends. *)
Lemma run_POST_found e now jid j d :
  jid <> "" ->
  transcription_jobs d !! jid = Some j ->
  is_terminal (status j) = false ->
  (exists msg us,
      (fst (run e (POST now (Body (Some jid))) (fresh d)) = DownloadFailed
       \/ fst (run e (POST now (Body (Some jid))) (fresh d)) = TranscriptionFailed)
      /\ database (snd (run e (POST now (Body (Some jid))) (fresh d)))
         = snd (refund_transcription_minutes jid
                  (after_updates jid (us ++ [mark_failed msg now]) d)))
  \/ (exists result us,
        fst (run e (POST now (Body (Some jid))) (fresh d))
        = Completed (length (Gemini.segments result)) (Gemini.duration result)
                    (Gemini.language result)
        /\ database (snd (run e (POST now (Body (Some jid))) (fresh d)))
           = updateTranscriptionJobStatus jid (mark_completed now result)
               (snd (consume_for e (j_user_id j) jid (durationMinutes result)
                       (after_updates jid us d)))).
Proof.
  intros Hne Hj Ht.
  destruct (cobalt e (youtube_id j)) as [audio|] eqn:Hc.
  - destruct (gemini e (createAudioFile audio)) as [ps [err|result]] eqn:Hg.
    + left. exists "AI transcription failed",
        ([mark_downloading now; mark_transcribing] ++ map progress_update ps).
      rewrite (run_POST_transcription_fails e now jid j d audio ps err
                 Hne Hj Ht Hc Hg).
      split; [right; reflexivity|]. cbn [snd database].
      rewrite <- app_assoc. reflexivity.
    + right. exists result,
        ([mark_downloading now; mark_transcribing]
           ++ map progress_update ps ++ [mark_finalizing]).
      rewrite (run_POST_transcribed e now jid j d audio ps result
                 Hne Hj Ht Hc Hg).
      split; reflexivity.
  - left. exists "Failed to download audio from YouTube", [mark_downloading now].
    rewrite (run_POST_download_fails e now jid j d Hne Hj Ht Hc).
    split; [left; reflexivity | reflexivity].
Qed.

Lemma run_POST_unknown e now jid d :
  jid <> "" ->
  transcription_jobs d !! jid = None ->
  run e (POST now (Body (Some jid))) (fresh d)
  = (NotFound, {| database := d; effects := [JobFetched jid] |}).
Proof.
  intros Hne Hj. destruct jid as [|c jid]; [contradiction|].
  simpl. rewrite Hj. reflexivity.
Qed.

Lemma failed_row jid msg now us d j :
  transcription_jobs d !! jid = Some j ->
  exists j',
    transcription_jobs
      (snd (refund_transcription_minutes jid
              (after_updates jid (us ++ [mark_failed msg now]) d))) !! jid
    = Some j'
    /\ status j' = failed /\ error_message j' = Some msg
    /\ completed_at j' = Some now
    /\ j_user_id j' = j_user_id j /\ youtube_id j' = youtube_id j.
Proof.
  intros Hj. rewrite refund_keeps_jobs, after_updates_lookup, Hj.
  eexists. split; [reflexivity|]. rewrite updated_app.
  destruct (updated_owner us j) as [Ho Hy].
  cbn. repeat split; assumption.
Qed.

Lemma completed_row e uid m jid now result us d j :
  transcription_jobs d !! jid = Some j ->
  exists j',
    transcription_jobs
      (updateTranscriptionJobStatus jid (mark_completed now result)
         (snd (consume_for e uid jid m (after_updates jid us d)))) !! jid
    = Some j'
    /\ status j' = completed /\ progress j' = 100
    /\ transcript_data j' = Some (Gemini.segments result)
    /\ completed_at j' = Some now
    /\ j_user_id j' = j_user_id j /\ youtube_id j' = youtube_id j.
Proof.
  intros Hj. rewrite update_job_lookup, consume_keeps_jobs,
    after_updates_lookup, Hj.
  eexists. split; [reflexivity|].
  destruct (updated_owner us j) as [Ho Hy].
  cbn. repeat split; assumption.
Qed.


Lemma run_POST_leaves_terminal e now jid j d :
  jid <> "" ->
  transcription_jobs d !! jid = Some j ->
  exists j',
    transcription_jobs
      (database (snd (run e (POST now (Body (Some jid))) (fresh d)))) !! jid
    = Some j'
    /\ is_terminal (status j') = true.
Proof.
  intros Hne Hj. destruct (is_terminal (status j)) eqn:Ht.
  - rewrite (run_POST_terminal e now jid j d Hne Hj Ht).
    exists j. split; [exact Hj | exact Ht].
  - destruct (run_POST_found e now jid j d Hne Hj Ht)
      as [(msg & us & _ & ->)|(result & us & _ & ->)].
    + destruct (failed_row jid msg now us d j Hj) as (j' & Hj' & Hs & _).
      exists j'. split; [exact Hj'|]. rewrite Hs. reflexivity.
    + destruct (completed_row e (j_user_id j) (durationMinutes result) jid now
                  result us d j Hj) as (j' & Hj' & Hs & _).
      exists j'. split; [exact Hj'|]. rewrite Hs. reflexivity.
Qed.

(** X16: a second invocation after one that ran to its answer.  When an
    invocation has made all its calls and given its answer, whatever it
    did, a second invocation of the same request on the database it left
    changes nothing in that database and makes no call beyond fetching the
    job, and for a job that exists it answers "already" with a terminal
    status. *)
Theorem repeated_invocation_changes_nothing
    (e e' : environment) (now now' : Z) (req : request) (d : db) :
  let d1 := database (snd (run e (POST now req) (fresh d))) in
  let resp2 := fst (run e' (POST now' req) (fresh d1)) in
  let w2 := snd (run e' (POST now' req) (fresh d1)) in
  database w2 = d1
  /\ (length (effects w2) <= 1)%nat
  /\ (forall jid j,
        req = Body (Some jid) -> jid <> "" ->
        transcription_jobs d !! jid = Some j ->
        exists s, resp2 = AlreadyTerminal s /\ is_terminal s = true).
Proof.
  intros d1 resp2 w2. subst d1 resp2 w2.
  destruct req as [|[jid|]];
    [repeat split; try (simpl; lia); discriminate|
    |repeat split; try (simpl; lia); discriminate].
  destruct (String.eqb_spec jid "") as [->|Hne];
    [repeat split; try (simpl; lia); intros; congruence|].
  destruct (transcription_jobs d !! jid) as [j|] eqn:Hj.
  - destruct (run_POST_leaves_terminal e now jid j d Hne Hj)
      as (j' & Hj' & Ht').
    rewrite (run_POST_terminal e' now' jid j' _ Hne Hj' Ht').
    split; [reflexivity|]. split; [simpl; lia|].
    intros jid0 j0 _ _ _. exists (status j'). split; [reflexivity | exact Ht'].
  - rewrite (run_POST_unknown e now jid d Hne Hj). cbn [snd database].
    rewrite (run_POST_unknown e' now' jid d Hne Hj).
    split; [reflexivity|]. split; [simpl; lia|].
    intros jid0 j0 [= <-] _ Hj0. congruence.
Qed.

Lemma consume_appends_job_rows e uid jid m d :
  exists new,
    transcription_usage (snd (consume_for e uid jid m d))
    = transcription_usage d ++ new
    /\ Forall (fun r => u_job_id r = jid /\ u_user_id r = uid) new.
Proof.
  unfold consume_for.
  destruct (fst (consume_transcription_minutes_atomically uid jid m
                   (subscription_limit e uid) (fst (billing_period e uid))
                   (snd (billing_period e uid)) d)) as [| | |a b sr tr] eqn:Hr.
  4:{ destruct (consume_allowed_shape _ _ _ _ _ _ _ _ _ _ _ Hr)
        as (prof & _ & _ & _ & _ & _ & Hu & _).
      eexists. split; [exact Hu|]. apply Forall_app. split.
      - eapply List.Forall_impl; [|apply record_usage_owner].
        intros r (? & ? & _). split; assumption.
      - eapply List.Forall_impl; [|apply record_usage_owner].
        intros r (? & ? & _). split; assumption. }
  all: exists []; rewrite app_nil_r; split; [|constructor];
    rewrite consume_denied_shape; [reflexivity | rewrite Hr; reflexivity].
Qed.

Lemma rows_of_others_app jid rows new :
  Forall (fun r => u_job_id r = jid) new ->
  List.filter (fun r => negb (of_job jid r)) (rows ++ new)
  = List.filter (fun r => negb (of_job jid r)) rows.
Proof.
  intros H. rewrite List.filter_app.
  assert (List.filter (fun r => negb (of_job jid r)) new = []) as ->.
  { induction H as [|r new Hr _ IH]; [reflexivity|].
    cbn [List.filter]. unfold of_job at 1. rewrite Hr, String.eqb_refl.
    exact IH. }
  apply app_nil_r.
Qed.

Lemma filter_twice {A} (f : A -> bool) l :
  List.filter f (List.filter f l) = List.filter f l.
Proof.
  induction l as [|x l IH]; [reflexivity|]. cbn [List.filter].
  destruct (f x) eqn:Hx; [|exact IH].
  cbn [List.filter]. rewrite Hx, IH. reflexivity.
Qed.

(** X17: an invocation touches only its own job.  The rows of the other
    jobs, the usage rows of the other jobs and the purchases are as before;
    the invocation creates no job and changes neither the owner nor the
    video of its own. *)
Theorem invocation_touches_only_its_job
    (e : environment) (now : Z) (jid : string) (d : db) :
  let w := snd (run e (POST now (Body (Some jid))) (fresh d)) in
  (forall jid', jid' <> jid ->
      transcription_jobs (database w) !! jid' = transcription_jobs d !! jid')
  /\ rows_of_others jid (database w) = rows_of_others jid d
  /\ transcription_topup_purchases (database w)
     = transcription_topup_purchases d
  /\ (forall j',
        transcription_jobs (database w) !! jid = Some j' ->
        exists j,
          transcription_jobs d !! jid = Some j
          /\ j_user_id j' = j_user_id j /\ youtube_id j' = youtube_id j).
Proof.
  intros w. subst w.
  destruct (String.eqb_spec jid "") as [->|Hne].
  { cbn [POST run snd database fresh]. repeat split; eauto. }
  destruct (transcription_jobs d !! jid) as [j|] eqn:Hj.
  2:{ rewrite (run_POST_unknown e now jid d Hne Hj). cbn [snd database].
      repeat split; try reflexivity. intros j' Hj'. congruence. }
  destruct (is_terminal (status j)) eqn:Ht.
  { rewrite (run_POST_terminal e now jid j d Hne Hj Ht). cbn [snd database].
    repeat split; try reflexivity. intros j' Hj'. exists j.
    rewrite Hj in Hj'. injection Hj' as <-. repeat split; reflexivity. }
  destruct (run_POST_found e now jid j d Hne Hj Ht)
    as [(msg & us & _ & ->)|(result & us & _ & ->)].
  - split; [|split; [|split]].
    + intros jid' Hne'. rewrite refund_keeps_jobs.
      apply after_updates_other. exact Hne'.
    + unfold rows_of_others. rewrite refund_usage, filter_twice.
      destruct (after_updates_ledger jid (us ++ [mark_failed msg now]) d)
        as (_ & -> & _). reflexivity.
    + rewrite refund_purchases.
      destruct (after_updates_ledger jid (us ++ [mark_failed msg now]) d)
        as (_ & _ & ->). reflexivity.
    + intros j' Hj'.
      destruct (failed_row jid msg now us d j Hj)
        as (j1 & Hj1 & _ & _ & _ & Ho & Hy).
      rewrite Hj1 in Hj'. injection Hj' as <-. exists j. auto.
  - rewrite consume_for_after_updates. cbn [snd].
    split; [|split; [|split]].
    + intros jid' Hne'. unfold updateTranscriptionJobStatus.
      cbn [transcription_jobs with_jobs].
      rewrite lookup_alter_ne by congruence.
      apply after_updates_other. exact Hne'.
    + unfold rows_of_others, updateTranscriptionJobStatus.
      cbn [transcription_usage with_jobs].
      destruct (consume_appends_job_rows e (j_user_id j) jid
                  (durationMinutes result) d) as (new & -> & Hnew).
      apply rows_of_others_app.
      eapply List.Forall_impl; [|exact Hnew]. intros r [H _]. exact H.
    + unfold updateTranscriptionJobStatus.
      cbn [transcription_topup_purchases with_jobs].
      unfold consume_for.
      destruct (fst (consume_transcription_minutes_atomically (j_user_id j) jid
                       (durationMinutes result)
                       (subscription_limit e (j_user_id j))
                       (fst (billing_period e (j_user_id j)))
                       (snd (billing_period e (j_user_id j))) d))
        as [| | |a b sr tr] eqn:Hr.
      4:{ destruct (consume_allowed_shape _ _ _ _ _ _ _ _ _ _ _ Hr)
            as (prof & _ & _ & _ & _ & _ & _ & _ & Hp). exact Hp. }
      all: rewrite consume_denied_shape; [reflexivity | rewrite Hr; reflexivity].
    + intros j' Hj'.
      destruct (completed_row e (j_user_id j) (durationMinutes result) jid now
                  result us d j Hj) as (j1 & Hj1 & _ & _ & _ & _ & Ho & Hy).
      rewrite consume_for_after_updates in Hj1. cbn [snd] in Hj1.
      rewrite Hj1 in Hj'. injection Hj' as <-. exists j. auto.
Qed.

Lemma ceiling_covers (x : Q) :
  (x <= inject_Z (60 * Qceiling (x / inject_Z 60)))%Q
  /\ (inject_Z (60 * (Qceiling (x / inject_Z 60) - 1)) < x)%Q.
Proof.
  assert (0 < inject_Z 60)%Q as Hpos by reflexivity.
  assert (x / inject_Z 60 * inject_Z 60 == x)%Q as Heq
    by (field; discriminate).
  split.
  - pose proof (Qle_ceiling (x / inject_Z 60)) as H.
    apply (Qmult_le_compat_r _ _ (inject_Z 60)) in H; [|discriminate].
    rewrite Heq in H.
    rewrite inject_Z_mult, (Qmult_comm (inject_Z 60)). exact H.
  - pose proof (Qceiling_lt (x / inject_Z 60)) as H.
    apply (Qmult_lt_compat_r _ _ (inject_Z 60)) in H; [|exact Hpos].
    rewrite Heq in H.
    rewrite inject_Z_mult, (Qmult_comm (inject_Z 60)). exact H.
Qed.

(** X18: what a completed job is charged, for a transcript whose duration
    is between one second and 2^32 seconds and a consumption that does not
    raise.  (The code divides and rounds up in double arithmetic; on a
    double of this range the quotient by 60, rounded to a double, has the
    ceiling of the exact quotient, which a duration below 60 * 2^-1075
    does not: its quotient rounds to 0.)  The minutes asked of the ledger
    are at least one and are the duration rounded up to whole minutes:
    they cover the duration and exceed it by less than a minute.  When the
    ledger allows them, the invocation adds usage rows of exactly that
    many minutes, all of this job and of its owner, and the owner's top-up
    balance drops by the top-up share; when it denies them, usage and
    balances are as before. *)
Theorem completed_job_is_charged_its_minutes
    (e : environment) (now : Z) (jobId : string) (j : job) (d : db)
    (audio : AudioExtractionResult) (ps : list TranscriptionProgress)
    (result : Gemini.TranscriptionResult) :
  jobId <> "" ->
  transcription_jobs d !! jobId = Some j ->
  is_terminal (status j) = false ->
  cobalt e (youtube_id j) = Some audio ->
  gemini e (createAudioFile audio) = (ps, inr result) ->
  (1 <= Gemini.duration result <= inject_Z (2 ^ 32))%Q ->
  consume_raises (j_user_id j) jobId (durationMinutes result)
    (subscription_limit e (j_user_id j))
    (fst (billing_period e (j_user_id j)))
    (snd (billing_period e (j_user_id j))) d = false ->
  let m := durationMinutes result in
  let w := snd (run e (POST now (Body (Some jobId))) (fresh d)) in
  1 <= m
  /\ (Gemini.duration result <= inject_Z (60 * m))%Q
  /\ (inject_Z (60 * (m - 1)) < Gemini.duration result)%Q
  /\ match fst (consume_for e (j_user_id j) jobId m d) with
     | Consumed a b _ _ =>
       a + b = m
       /\ (exists new,
             transcription_usage (database w) = transcription_usage d ++ new
             /\ sum_minutes new = m
             /\ Forall (fun r => u_job_id r = jobId
                                 /\ u_user_id r = j_user_id j) new)
       /\ balance_of (j_user_id j) (database w)
          = (fun t => t - b) <$> balance_of (j_user_id j) d
     | _ =>
       transcription_usage (database w) = transcription_usage d
       /\ profiles (database w) = profiles d
     end.
Proof.
  intros Hne Hj Ht Hc Hg [Hlo _] _ m w. subst w.
  assert (Hm : 1 <= m).
  { pose proof (proj1 (ceiling_covers (Gemini.duration result))) as Hup.
    fold (durationMinutes result) in Hup. fold m in Hup.
    pose proof (Qle_trans _ _ _ Hlo Hup) as H1.
    change 1%Q with (inject_Z 1) in H1. rewrite <- Zle_Qle in H1. lia. }
  split; [exact Hm|].
  split; [exact (proj1 (ceiling_covers (Gemini.duration result)))|].
  split; [exact (proj2 (ceiling_covers (Gemini.duration result)))|].
  rewrite (run_POST_transcribed e now jobId j d audio ps result
             Hne Hj Ht Hc Hg).
  cbn [snd database]. rewrite consume_for_after_updates. cbn [snd].
  unfold updateTranscriptionJobStatus, balance_of.
  cbn [transcription_usage profiles with_jobs].
  fold m. unfold consume_for.
  destruct (fst (consume_transcription_minutes_atomically (j_user_id j) jobId m
                   (subscription_limit e (j_user_id j))
                   (fst (billing_period e (j_user_id j)))
                   (snd (billing_period e (j_user_id j))) d))
    as [| | |a b sr tr] eqn:Hr.
  4:{ destruct (consume_allowed_shape _ _ _ _ _ _ _ _ _ _ _ Hr)
        as (prof & Hprof & Hab & Hb & _ & _ & Hu & Hp & _).
      split; [exact Hab|]. split.
      - eexists. split; [exact Hu|]. split.
        + rewrite sum_minutes_append, !record_usage_sum.
          rewrite (consume_parts_sum _ _ _ _ _ _ _ _ _ _ _ Hr). lia.
        + apply Forall_app. split.
          * eapply List.Forall_impl; [|apply record_usage_owner].
            intros r (? & ? & _). split; assumption.
          * eapply List.Forall_impl; [|apply record_usage_owner].
            intros r (? & ? & _). split; assumption.
      - rewrite Hp, Hprof. destruct (Z.ltb_spec 0 b).
        + rewrite lookup_insert_eq. cbn. f_equal; lia.
        + rewrite Hprof. cbn. f_equal; lia. }
  all: rewrite consume_denied_shape by (rewrite Hr; reflexivity);
    split; reflexivity.
Qed.

Lemma progress_writes_app l1 l2 :
  progress_writes (l1 ++ l2) = progress_writes l1 ++ progress_writes l2.
Proof.
  induction l1 as [|ev l1 IH]; [reflexivity|].
  destruct ev as [|jid u| | | |]; cbn [progress_writes app]; try exact IH.
  destruct (set_progress u); [cbn [app]; f_equal|]; exact IH.
Qed.

Lemma progress_writes_reports jid ps :
  Forall (fun p => 0 <= p_progress p <= 100) ps ->
  Forall (fun z => 30 <= z <= 90)
    (progress_writes (map (fun p => JobUpdated jid (progress_update p)) ps)).
Proof.
  induction 1 as [|p ps Hp _ IH]; [constructor|].
  cbn [map progress_writes progress_update set_progress].
  constructor; [|exact IH].
  pose proof (Z.div_le_lower_bound (p_progress p * 6) 10 0 ltac:(lia) ltac:(lia)).
  pose proof (Z.div_le_upper_bound (p_progress p * 6) 10 60 ltac:(lia) ltac:(lia)).
  lia.
Qed.

Lemma reported_progress_is_written jid ps pre post :
  Forall (fun p => 0 <= p_progress p <= 100) ps ->
  Forall (fun p =>
            In (JobUpdated jid (progress_update p))
               (pre ++ map (fun p => JobUpdated jid (progress_update p)) ps
                    ++ post)
            /\ exists z, set_progress (progress_update p) = Some z
                         /\ 30 <= z <= 90) ps.
Proof.
  intros Hps. apply List.Forall_forall. intros p Hin. split.
  - apply in_or_app. right. apply in_or_app. left.
    exact (in_map (fun p => JobUpdated jid (progress_update p)) ps p Hin).
  - rewrite List.Forall_forall in Hps. specialize (Hps p Hin).
    eexists. split; [reflexivity|].
    pose proof (Z.div_le_lower_bound (p_progress p * 6) 10 0
                  ltac:(lia) ltac:(lia)).
    pose proof (Z.div_le_upper_bound (p_progress p * 6) 10 60
                  ltac:(lia) ltac:(lia)).
    lia.
Qed.

(** X19: the progress an invocation writes.  When the transcription client
    reports progress between 0 and 100, every progress value written to
    the job lies between 10 and 100 (the column's CHECK asks for 0 to 100),
    and for every report of the client during the transcription of the
    job's audio a write is made whose progress lies between 30 and 90. *)
Theorem written_progress_stays_in_range
    (e : environment) (now : Z) (req : request) (d : db) :
  (forall f, Forall (fun p => 0 <= p_progress p <= 100) (fst (gemini e f))) ->
  let w := snd (run e (POST now req) (fresh d)) in
  Forall (fun z => 10 <= z <= 100) (progress_writes (effects w))
  /\ forall jid j audio,
       req = Body (Some jid) -> jid <> "" ->
       transcription_jobs d !! jid = Some j ->
       is_terminal (status j) = false ->
       cobalt e (youtube_id j) = Some audio ->
       Forall (fun p =>
                 In (JobUpdated jid (progress_update p)) (effects w)
                 /\ exists z, set_progress (progress_update p) = Some z
                              /\ 30 <= z <= 90)
              (fst (gemini e (createAudioFile audio))).
Proof.
  intros Hrep w. subst w. split.
  - destruct req as [|[jid|]]; [constructor| |constructor].
    destruct (String.eqb_spec jid "") as [->|Hne]; [constructor|].
    destruct (transcription_jobs d !! jid) as [j|] eqn:Hj.
    2:{ rewrite (run_POST_unknown e now jid d Hne Hj). constructor. }
    destruct (is_terminal (status j)) eqn:Ht.
    { rewrite (run_POST_terminal e now jid j d Hne Hj Ht). constructor. }
    destruct (cobalt e (youtube_id j)) as [audio|] eqn:Hc.
    2:{ rewrite (run_POST_download_fails e now jid j d Hne Hj Ht Hc).
        cbn. repeat constructor; lia. }
    pose proof (Hrep (createAudioFile audio)) as Hps.
    destruct (gemini e (createAudioFile audio)) as [ps [err|result]] eqn:Hg;
      cbn [fst] in Hps.
    + rewrite (run_POST_transcription_fails e now jid j d audio ps err
                 Hne Hj Ht Hc Hg).
      cbn [snd effects]. rewrite !progress_writes_app.
      repeat apply Forall_app_2.
      * cbn. repeat constructor; lia.
      * eapply List.Forall_impl; [|exact (progress_writes_reports jid ps Hps)].
        intros z Hz. cbn beta in Hz. lia.
      * cbn. constructor.
    + rewrite (run_POST_transcribed e now jid j d audio ps result
                 Hne Hj Ht Hc Hg).
      cbn [snd effects]. rewrite !progress_writes_app.
      repeat apply Forall_app_2.
      * cbn. repeat constructor; lia.
      * eapply List.Forall_impl; [|exact (progress_writes_reports jid ps Hps)].
        intros z Hz. cbn beta in Hz. lia.
      * cbn. repeat constructor; lia.
  - intros jid j audio -> Hne Hj Ht Hc.
    pose proof (Hrep (createAudioFile audio)) as Hps.
    destruct (gemini e (createAudioFile audio)) as [ps [err|result]] eqn:Hg;
      cbn [fst] in Hps |- *.
    + rewrite (run_POST_transcription_fails e now jid j d audio ps err
                 Hne Hj Ht Hc Hg).
      cbn [snd effects]. now apply reported_progress_is_written.
    + rewrite (run_POST_transcribed e now jid j d audio ps result
                 Hne Hj Ht Hc Hg).
      cbn [snd effects]. now apply reported_progress_is_written.
Qed.

End InvocationFacts.

(** ** The status route *)

Section StatusFacts.
Import Orchestrator StatusRoute.

Lemma handler_ok user jobId get body :
  handler user jobId get = StatusOk body ->
  exists uid jid v,
    user = Some uid /\ jobId = Some jid /\ jid <> ""
    /\ get jid = Got (Some v)
    /\ j_user_id (v_row v) = uid
    /\ handler (Some (j_user_id (v_row v))) (Some jid) get = StatusOk body.
Proof.
  unfold handler.
  destruct user as [uid|]; [|discriminate].
  destruct jobId as [[|c jid]|]; [discriminate| |discriminate].
  destruct (get (String c jid)) as [|[v|]] eqn:Hget; [discriminate| |discriminate].
  destruct (String.eqb_spec (j_user_id (v_row v)) uid) as [Heq|Hne];
    [|discriminate].
  cbn [negb]. intros H. exists uid, (String c jid), v.
  repeat split; try assumption; try discriminate.
  rewrite Hget, String.eqb_refl. exact H.
Qed.

Lemma or_else_nonempty a b : b <> "" -> or_else a b <> "".
Proof. intros Hb. destruct a as [[|c s]|]; simpl; try exact Hb. discriminate. Qed.

(** X20: the status of a job is shown to its owner only.  A 200 answer is
    given only to an authenticated user, for a job that the fetch returns
    and whose owner is that user, and it reports that job's id, status,
    progress and video; any other user for whom the fetch returns the job
    is answered 403, which carries nothing of the job. *)
Theorem status_is_shown_to_the_owner_only
    (user jobId : option string)
    (get : string -> awaited (option job_view)) (body : status_body) :
  handler user jobId get = StatusOk body ->
  exists uid jid v,
    user = Some uid /\ jobId = Some jid /\ get jid = Got (Some v)
    /\ j_user_id (v_row v) = uid
    /\ r_jobId body = v_id v
    /\ r_status body = status (v_row v)
    /\ r_progress body = progress (v_row v)
    /\ r_youtubeId body = youtube_id (v_row v)
    /\ forall other,
         other <> uid -> handler (Some other) jobId get = AccessDenied.
Proof.
  intros H. destruct (handler_ok user jobId get body H)
    as (uid & jid & v & -> & -> & Hne & Hget & Hown & Hbody).
  exists uid, jid, v.
  unfold handler in Hbody. destruct jid as [|c jid]; [contradiction|].
  rewrite Hget, String.eqb_refl in Hbody. cbn [negb] in Hbody.
  injection Hbody as <-. cbn.
  repeat split; try assumption; try reflexivity.
  intros other Hother. rewrite Hget.
  destruct (String.eqb_spec (j_user_id (v_row v)) other) as [Heq|_];
    [congruence | reflexivity].
Qed.

(** X21: what a poll shows of a job of a system that can be reached.  The
    answer carries the transcript exactly when it reports the status
    completed; it carries an error message, never an empty one, exactly
    when it reports failed; it carries a stage, never an empty one,
    exactly when it reports pending, downloading or transcribing. *)
Theorem poll_shows_transcript_iff_completed
    (s : system) (user jobId : option string)
    (get : string -> awaited (option job_view)) (body : status_body) :
  reachable s ->
  (forall jid v,
      get jid = Got (Some v) ->
      transcription_jobs (store s) !! jid = Some (v_row v)) ->
  handler user jobId get = StatusOk body ->
  (r_status body = completed <-> is_Some (r_transcriptData body))
  /\ (r_status body = failed <-> is_Some (r_errorMessage body))
  /\ r_errorMessage body <> Some ""
  /\ (in_progress (r_status body) = true <-> is_Some (r_currentStage body))
  /\ r_currentStage body <> Some "".
Proof.
  intros Hreach Hget H.
  destruct (handler_ok user jobId get body H)
    as (uid & jid & v & -> & -> & Hne & Hv & Hown & Hbody).
  pose proof (proj1 (reachable_sound s Hreach) jid (v_row v) (Hget jid v Hv))
    as Hsound.
  unfold handler in Hbody. destruct jid as [|c jid]; [contradiction|].
  rewrite Hv, String.eqb_refl in Hbody. cbn [negb] in Hbody.
  injection Hbody as <-. cbn.
  assert (getDefaultStage (status (v_row v)) <> "") as Hstage
    by (destruct (status (v_row v)); discriminate).
  destruct (status (v_row v)) eqn:Hst;
    try (destruct (transcript_data (v_row v)) as [t|];
         [|now elim (Hsound eq_refl)]);
    cbn; repeat split; try (intros; eauto; fail); try discriminate;
    try (intros [x Hx]; discriminate);
    try (intros [= Hx]; revert Hx; apply or_else_nonempty; discriminate).
Qed.

End StatusFacts.

(** ** The cancel route *)

Section CancelFacts.
Import Ledger Orchestrator CancelRoute.

#[local] Arguments refund_transcription_minutes : simpl never.

(** X22: the cancel route guards the cancellation.  Whatever the select
    and the cancellation do, the route calls the cancellation, and so can
    change the database or answer 200, only for an authenticated user, a
    job that the select finds, that this user owns and whose status is
    pending, downloading or transcribing, and it answers 200 exactly when
    the cancellation reports success; in every other case the database is
    as before and the answer is an error. *)
Theorem cancel_needs_owner_and_live_job
    (select_job : string -> selected)
    (cancel : string -> db -> cancel_result * db)
    (user : option string) (req : request) (d : db) :
  let resp := fst (CancelRoute.POST select_job cancel user req d) in
  let d' := snd (CancelRoute.POST select_job cancel user req d) in
  (exists uid jid st,
      user = Some uid /\ req = Body (Some jid) /\ jid <> ""
      /\ select_job jid = Row uid st /\ is_cancellable st = true
      /\ d' = snd (cancel jid d)
      /\ (resp = Cancelled <-> fst (cancel jid d) = CancelOk))
  \/ (d' = d /\ resp <> Cancelled /\ forall err, resp <> CancelError err).
Proof.
  intros resp d'. subst resp d'. unfold CancelRoute.POST.
  destruct user as [uid|]; [|right; repeat split; discriminate].
  destruct req as [|[[|c jid]|]]; try (right; repeat split; discriminate).
  destruct (select_job (String c jid)) as [| |owner st] eqn:Hsel;
    try (right; repeat split; discriminate).
  destruct (String.eqb_spec owner uid) as [->|Hne];
    [|right; repeat split; discriminate].
  cbn [negb].
  destruct (is_cancellable st) eqn:Hst;
    [|right; repeat split; discriminate].
  cbn [negb]. left. exists uid, (String c jid), st.
  destruct (cancel (String c jid) d) as [[|err|] d1];
    repeat split; try assumption; try reflexivity; discriminate.
Qed.

End CancelFacts.

(** ** The Cobalt client *)

Section CobaltFacts.
Import Gemini Orchestrator Cobalt Trace.

Lemma mp3_name_supported youtubeId : isSupportedFormat (mp3_name youtubeId) = true.
Proof.
  unfold mp3_name.
  change (youtubeId ++ ".mp3")%string
    with (youtubeId ++ String "."%char "mp3")%string.
  rewrite extension_decides by reflexivity. reflexivity.
Qed.

Lemma mp3_name_nonempty youtubeId : mp3_name youtubeId <> "".
Proof. unfold mp3_name. destruct youtubeId; discriminate. Qed.

Lemma find_first {A} (f : A -> bool) l x :
  List.find f l = Some x ->
  exists before after,
    l = before ++ x :: after /\ f x = true
    /\ Forall (fun y => f y = false) before.
Proof.
  induction l as [|y l IH]; [discriminate|]. cbn [List.find].
  destruct (f y) eqn:Hy.
  - intros [= ->]. exists [], l. repeat split; [exact Hy | constructor].
  - intros H. destruct (IH H) as (before & after & -> & Hx & Hb).
    exists (y :: before), after. repeat split; [exact Hx|].
    constructor; assumption.
Qed.

(** X24: where the audio URL comes from.  [getYouTubeAudioUrl] returns
    only for an answer that is ok and not an error: either a picker, and
    then the URL of its first entry of type audio, or a tunnel or
    redirect, and then its URL, which is not empty.  The file name it
    returns is never empty. *)
Theorem audio_url_comes_from_the_answer
    (youtubeId : string) (response : http_answer) (result : AudioUrlResult) :
  getYouTubeAudioUrl youtubeId response = inr result ->
  ok response = true
  /\ c_status (json response) <> "error"
  /\ au_filename result <> ""
  /\ ((c_status (json response) = "picker"
       /\ au_filename result = mp3_name youtubeId
       /\ exists before audioOption after,
            c_picker (json response) = Some (before ++ audioOption :: after)
            /\ pk_type audioOption = "audio"
            /\ Forall (fun p => pk_type p <> "audio") before
            /\ au_url result = pk_url audioOption)
      \/ ((c_status (json response) = "tunnel"
           \/ c_status (json response) = "redirect")
          /\ c_url (json response) = Some (au_url result)
          /\ au_url result <> "")).
Proof.
  unfold getYouTubeAudioUrl.
  destruct (ok response); [|discriminate]. cbn [negb].
  destruct (String.eqb_spec (c_status (json response)) "error") as [|Herr];
    [discriminate|].
  assert (Hurl :
    (if (String.eqb (c_status (json response)) "tunnel"
         || String.eqb (c_status (json response)) "redirect")
        && truthy (c_url (json response))
     then inr {| au_url := default EmptyString (c_url (json response));
                 au_filename :=
                   if truthy (c_filename (json response))
                   then default EmptyString (c_filename (json response))
                   else mp3_name youtubeId |}
     else inl UnexpectedFormat) = inr result ->
    au_filename result <> ""
    /\ (c_status (json response) = "tunnel"
        \/ c_status (json response) = "redirect")
    /\ c_url (json response) = Some (au_url result)
    /\ au_url result <> "").
  { destruct (String.eqb_spec (c_status (json response)) "tunnel") as [Ht|_];
      [|destruct (String.eqb_spec (c_status (json response)) "redirect")
          as [Hr|_]; [|discriminate]];
      cbn [orb andb];
      (destruct (c_url (json response)) as [[|c u]|]; cbn [truthy];
       [discriminate| |discriminate]);
      intros [= <-]; cbn;
      (split; [destruct (c_filename (json response)) as [[|c' f]|]; cbn;
               try discriminate; apply mp3_name_nonempty|]);
      (split; [auto|split; [reflexivity|discriminate]]). }
  intros H. split; [reflexivity|]. split; [exact Herr|].
  destruct (String.eqb_spec (c_status (json response)) "picker") as [Hp|_].
  2:{ destruct (Hurl H) as (Hf & Hs & Hu & Hn).
      split; [exact Hf|]. right. auto. }
  destruct (c_picker (json response)) as [[|item items]|] eqn:Hpicker.
  1,3: destruct (Hurl H) as (Hf & Hs & Hu & Hn);
       split; [exact Hf|]; right; auto.
  destruct (List.find _ (item :: items)) as [audioOption|] eqn:Hfind.
  2:{ destruct (Hurl H) as (Hf & Hs & Hu & Hn).
      split; [exact Hf|]. right. auto. }
  injection H as <-. cbn.
  split; [apply mp3_name_nonempty|]. left.
  split; [exact Hp|]. split; [reflexivity|].
  destruct (find_first _ _ _ Hfind) as (before & after & Heq & Hx & Hb).
  exists before, audioOption, after. rewrite Heq.
  split; [reflexivity|]. split; [apply String.eqb_eq; exact Hx|].
  split; [|reflexivity].
  eapply List.Forall_impl; [|exact Hb].
  intros p Hpf. apply String.eqb_neq. exact Hpf.
Qed.

(** X25: a file that the client names itself passes the format check.
    When the audio comes from a picker, or Cobalt gives no file name, the
    file is named after the video with the extension mp3, and the file the
    handler makes of the download is accepted by [validateAudioFile]
    whenever it is not empty and not larger than 520 MB, whatever the
    video id is. *)
Theorem client_named_file_is_accepted
    (youtubeId : string) (response : http_answer) (result : AudioUrlResult)
    (bytes reported : Z) (type : string) :
  getYouTubeAudioUrl youtubeId response = inr result ->
  c_status (json response) = "picker"
  \/ truthy (c_filename (json response)) = false ->
  0 < bytes <= MAX_FILE_SIZE ->
  au_filename result = mp3_name youtubeId
  /\ isSupportedFormat (au_filename result) = true
  /\ validateAudioFile
       (Some (createAudioFile
                {| byteLength := bytes; filename := au_filename result;
                   contentType := type; reported_size := reported |}))
     = Valid.
Proof.
  intros H Hnamed Hbytes.
  assert (au_filename result = mp3_name youtubeId) as Hname.
  { revert H. unfold getYouTubeAudioUrl.
    destruct (ok response); [|discriminate]. cbn [negb].
    destruct (String.eqb (c_status (json response)) "error"); [discriminate|].
    destruct Hnamed as [Hp|Hf].
    - rewrite Hp. cbn [String.eqb Ascii.eqb Bool.eqb orb andb].
      change (String.eqb "picker" "picker") with true.
      change (String.eqb "picker" "tunnel") with false.
      change (String.eqb "picker" "redirect") with false.
      cbn [orb andb].
      destruct (c_picker (json response)) as [[|item items]|];
        try discriminate.
      destruct (List.find _ (item :: items)); [|discriminate].
      intros [= <-]. reflexivity.
    - rewrite Hf.
      destruct (if String.eqb (c_status (json response)) "picker"
                then c_picker (json response) else None) as [[|item items]|].
      2: destruct (List.find _ (item :: items)); [intros [= <-]; reflexivity|].
      all: destruct ((String.eqb (c_status (json response)) "tunnel"
                      || String.eqb (c_status (json response)) "redirect")
                     && truthy (c_url (json response))); [|discriminate];
        intros [= <-]; reflexivity. }
  split; [exact Hname|]. rewrite Hname.
  split; [apply mp3_name_supported|].
  unfold validateAudioFile, createAudioFile. cbn [size file_name byteLength filename].
  destruct (Z.eqb_spec bytes 0); [lia|].
  destruct (Z.gtb_spec bytes MAX_FILE_SIZE); [lia|].
  rewrite mp3_name_supported. reflexivity.
Qed.

End CobaltFacts.

(** ** The staged upload *)

Section UploadFacts.
Import Gemini FilesApi.

Context {provider : Type}.
Variable uploadFile :
  audio_file -> provider -> (thrown + remote_file) * provider.
Variable getFile :
  string -> provider -> (thrown + remote_file) * provider.

Local Abbreviation wait := (wait_while_processing getFile).
Local Abbreviation upload := (uploadViaFilesApi uploadFile getFile).

(** More fuel does not change what the wait gives. *)
Lemma wait_more_fuel : forall fuel file p slept r,
  wait fuel file p slept = Some r ->
  forall fuel', (fuel <= fuel')%nat -> wait fuel' file p slept = Some r.
Proof.
  induction fuel as [|k IH]; intros file p slept r H fuel' Hle.
  - destruct fuel'; cbn [wait_while_processing] in *;
      destruct (String.eqb (rf_state file) "PROCESSING");
      try discriminate; exact H.
  - destruct fuel' as [|k']; [lia|]. cbn [wait_while_processing] in *.
    destruct (String.eqb (rf_state file) "PROCESSING"); [|exact H].
    destruct (getFile (rf_name file) p) as [[e|file'] p']; [exact H|].
    apply (IH _ _ _ _ H). lia.
Qed.

(** What the wait gives: a pause of 2000 ms per poll, at most [fuel]
    polls, and a file that is not processing any more. *)
Lemma wait_result : forall fuel file p slept out p' slept',
  wait fuel file p slept = Some (out, p', slept') ->
  (exists polls,
      (polls <= fuel)%nat /\ slept' = slept + 2000 * Z.of_nat polls)
  /\ forall file', out = inr file' -> rf_state file' <> "PROCESSING".
Proof.
  induction fuel as [|k IH]; intros file p slept out p' slept' H;
    cbn [wait_while_processing] in H;
    destruct (String.eqb_spec (rf_state file) "PROCESSING") as [Hs|Hs];
    try discriminate.
  - injection H as <- <- <-. split; [exists 0%nat; split; lia|].
    intros file' [= <-]. exact Hs.
  - destruct (getFile (rf_name file) p) as [[e|file1] p1].
    + injection H as <- <- <-. split; [exists 1%nat; split; lia|].
      discriminate.
    + destruct (IH _ _ _ _ _ _ H) as [(polls & Hle & ->) Hstate].
      split; [exists (S polls); split; lia | exact Hstate].
  - injection H as <- <- <-. split; [exists 0%nat; split; lia|].
    intros file' [= <-]. exact Hs.
Qed.

Lemma wait_hands_over : forall fuel file p slept file' p' slept',
  wait fuel file p slept = Some (inr file', p', slept') ->
  (file' = file /\ p' = p)
  \/ exists name q, getFile name q = (inr file', p').
Proof.
  induction fuel as [|k IH]; intros file p slept file' p' slept' H;
    cbn [wait_while_processing] in H;
    destruct (String.eqb (rf_state file) "PROCESSING");
    try discriminate;
    try (injection H as <- <- <-; left; split; reflexivity).
  destruct (getFile (rf_name file) p) as [[e|file1] p1] eqn:Hget;
    [discriminate|].
  destruct (IH _ _ _ _ _ _ H) as [[-> ->]|Hex]; right; [eauto | exact Hex].
Qed.

(** X26: the staged upload hands over active files only.  When
    [uploadViaFilesApi] returns a handle, it is the URI of a file that the
    Files API reported in state ACTIVE, after one pause of 2000 ms for each
    poll; looking at more polls does not change an outcome once there is
    one. *)
Theorem upload_hands_over_active_files_only
    (fuel : nat) (key : option string) (f : audio_file) (p : provider)
    (fileUri : string) (p' : provider) (slept : Z) :
  upload fuel key f p = Some (inr fileUri, p', slept) ->
  (exists file,
      rf_state file = "ACTIVE" /\ rf_uri file = fileUri
      /\ (uploadFile f p = (inr file, p')
          \/ exists name q, getFile name q = (inr file, p')))
  /\ (exists polls,
        (polls <= fuel)%nat /\ slept = 2000 * Z.of_nat polls)
  /\ forall fuel', (fuel <= fuel')%nat ->
       upload fuel' key f p = Some (inr fileUri, p', slept).
Proof.
  unfold uploadViaFilesApi.
  destruct key as [[|k0 k]|]; try discriminate.
  destruct (uploadFile f p) as [[e|file0] p0] eqn:Hup; [discriminate|].
  destruct (wait fuel file0 p0 0) as [[[[e|file] p1] slept1]|] eqn:Hw;
    try discriminate.
  destruct (String.eqb_spec (rf_state file) "ACTIVE") as [Hs|Hs];
    [|discriminate].
  cbn [negb]. intros [= <- <- <-]. split; [|split].
  - exists file. split; [exact Hs|]. split; [reflexivity|].
    destruct (wait_hands_over _ _ _ _ _ _ _ Hw) as [[-> ->]|Hex];
      [left; reflexivity | right; exact Hex].
  - destruct (wait_result _ _ _ _ _ _ _ Hw) as [(polls & Hle & ->) _].
    exists polls. split; [exact Hle | lia].
  - intros fuel' Hle. rewrite (wait_more_fuel _ _ _ _ _ Hw fuel' Hle).
    destruct (String.eqb_spec (rf_state file) "ACTIVE"); [reflexivity|].
    contradiction.
Qed.

Lemma wait_never_ends : forall fuel file p slept,
  (forall name q, exists file' q',
      getFile name q = (inr file', q') /\ rf_state file' = "PROCESSING") ->
  rf_state file = "PROCESSING" ->
  wait fuel file p slept = None.
Proof.
  induction fuel as [|k IH]; intros file p slept Hget Hs;
    cbn [wait_while_processing]; rewrite Hs;
    change (String.eqb "PROCESSING" "PROCESSING") with true; cbn iota.
  - reflexivity.
  - destruct (Hget (rf_name file) p) as (file' & q' & -> & Hs').
    apply IH; assumption.
Qed.

(** X27: the staged upload has no timeout.  With a key, against a Files
    API that reports the file as PROCESSING at the upload and at every
    poll, [uploadViaFilesApi] has not returned after any number of polls:
    it neither resolves nor throws. *)
Theorem upload_waits_without_timeout
    (key0 : ascii) (key : string) (f : audio_file) (p : provider) :
  always_processing uploadFile getFile ->
  forall fuel, upload fuel (Some (String key0 key)) f p = None.
Proof.
  intros [Hup Hget] fuel. unfold uploadViaFilesApi.
  destruct (Hup f p) as (file & p' & -> & Hs).
  rewrite (wait_never_ends fuel file p' 0 Hget Hs). reflexivity.
Qed.

End UploadFacts.

(** ** The merge of chunked transcriptions *)

Section MergeFacts.
Import Whisper.

Variable num : Type.
Variable add : num -> num -> num.
Variable max : num -> num -> num.
Variable zero : num.
Variable lt : num -> num -> bool.

Local Abbreviation chunk := (Whisper.chunk num).
Local Abbreviation insert := (Whisper.insert num lt).
Local Abbreviation sort := (Whisper.sort num lt).
Local Abbreviation rebased := (Whisper.rebased num add).
Local Abbreviation merge := (mergeChunkedTranscriptions num add max zero lt).
Local Abbreviation apart := (Whisper.apart num lt).
Local Abbreviation offsets_differ := (Whisper.offsets_differ num lt).

Lemma insert_permutation (c : chunk) l : Permutation (insert c l) (c :: l).
Proof.
  induction l as [|y l IH]; cbn [Whisper.insert]; [reflexivity|].
  destruct (lt _ _); [|reflexivity].
  rewrite IH. apply perm_swap.
Qed.

Lemma sort_permutation (l : list chunk) : Permutation (sort l) l.
Proof.
  induction l as [|c l IH]; [reflexivity|].
  change (sort (c :: l)) with (insert c (sort l)).
  rewrite insert_permutation. apply perm_skip. exact IH.
Qed.

Lemma flat_map_permutation {A B} (f : A -> list B) l l' :
  Permutation l l' -> Permutation (flat_map f l) (flat_map f l').
Proof.
  induction 1 as [|x l l' _ IH|x y l|l l' l'' _ IH1 _ IH2]; cbn [flat_map].
  - reflexivity.
  - apply Permutation_app_head. exact IH.
  - rewrite !app_assoc. apply Permutation_app_tail, Permutation_app_comm.
  - etransitivity; eassumption.
Qed.

Lemma flat_map_length {A B} (f : A -> list B) l :
  length (flat_map f l) = list_sum (map (fun x => length (f x)) l).
Proof.
  induction l as [|x l IH]; [reflexivity|].
  cbn [flat_map map list_sum]. rewrite length_app, IH. reflexivity.
Qed.

(** X28: the merge keeps every segment.  Of two chunks or more the merged
    transcript holds every segment of every chunk exactly once, its start
    moved by the offset of its own chunk, so as many segments as the
    chunks have together, whatever order the chunks come in; of no chunk
    the merge throws; a single chunk is returned as it is, its offset not
    applied. *)
Theorem merge_keeps_every_segment (results : list chunk) :
  match results with
  | [] => exists error, merge results = inl error
  | [only] => merge results = inr (result num only)
  | _ =>
    exists merged,
      merge results = inr merged
      /\ Permutation (segments num merged) (flat_map rebased results)
      /\ length (segments num merged)
         = list_sum (map (fun c => length (segments num (result num c))) results)
  end.
Proof.
  destruct results as [|c1 [|c2 rest]]; [eexists; reflexivity|reflexivity|].
  eexists. split; [reflexivity|]. cbn [segments].
  assert (Permutation
            (flat_map rebased (sort (c1 :: c2 :: rest)))
            (flat_map rebased (c1 :: c2 :: rest))) as Hperm
    by apply flat_map_permutation, sort_permutation.
  split; [exact Hperm|].
  rewrite (Permutation_length Hperm), flat_map_length.
  f_equal. apply map_ext. intros c. unfold Whisper.rebased.
  apply length_map.
Qed.

Lemma apart_sym (a b : chunk) : apart a b -> apart b a.
Proof. intros [H|H]; [right|left]; exact H. Qed.

Section Ordered.

(** The sign of a difference orders the offsets: [a - b < 0] and
    [b - a < 0] exclude each other, and a number that is not below [b]
    is above whatever [b] is above. *)
Hypothesis lt_asym : forall a b, lt a b = true -> lt b a = false.
Hypothesis lt_cotrans :
  forall a b c, lt a c = true -> lt a b = true \/ lt b c = true.

Lemma insert_insert (a b : chunk) l :
  apart a b -> insert a (insert b l) = insert b (insert a l).
Proof.
  intros Hab. induction l as [|y l IH]; cbn [Whisper.insert].
  - destruct Hab as [H|H]; rewrite H, (lt_asym _ _ H); reflexivity.
  - destruct (lt (offsetSeconds num y) (offsetSeconds num b)) eqn:Hyb,
             (lt (offsetSeconds num y) (offsetSeconds num a)) eqn:Hya;
      cbn [Whisper.insert]; rewrite ?Hyb, ?Hya.
    + rewrite IH. reflexivity.
    + (* a is not above y, and y is below b: a is below b *)
      destruct (lt_cotrans _ (offsetSeconds num a) _ Hyb) as [H|H];
        [congruence|].
      rewrite H. cbn [Whisper.insert]. rewrite ?Hyb. reflexivity.
    + destruct (lt_cotrans _ (offsetSeconds num b) _ Hya) as [H|H];
        [congruence|].
      rewrite H. cbn [Whisper.insert]. rewrite ?Hya. reflexivity.
    + destruct Hab as [H|H]; rewrite H, (lt_asym _ _ H); reflexivity.
Qed.

Lemma sort_of_permutation (l l' : list chunk) :
  Permutation l l' -> offsets_differ l ->
  sort l = sort l' /\ offsets_differ l'.
Proof.
  induction 1 as [|x l l' Hp IH|x y l|l l' l'' _ IH1 _ IH2].
  - intros _. split; [reflexivity | exact I].
  - intros [Hx Hl]. destruct (IH Hl) as [Hs Hl'].
    split; [|split; [|exact Hl']].
    + change (insert x (sort l) = insert x (sort l')). rewrite Hs. reflexivity.
    + rewrite <- Hp. exact Hx.
  - intros [Hy [Hx Hl]]. apply Forall_cons_1 in Hy as [Hyx Hy]. split.
    + change (insert y (insert x (sort l)) = insert x (insert y (sort l))).
      apply insert_insert. exact Hyx.
    + split; [|split; assumption].
      constructor; [apply apart_sym; exact Hyx | exact Hx].
  - intros Hl. destruct (IH1 Hl) as [Hs Hl']. destruct (IH2 Hl') as [Hs' Hl''].
    split; [congruence | exact Hl''].
Qed.

(** X29: the merge does not depend on the order in which the chunks
    arrive.  When the offsets of the chunks differ from one another, two
    lists of the same chunks in different orders merge to the same
    transcript: the same segments in the same order, the same language,
    duration and text. *)
Theorem merge_ignores_arrival_order (results results' : list chunk) :
  Permutation results results' ->
  offsets_differ results ->
  merge results' = merge results.
Proof.
  intros Hp Hd.
  destruct (sort_of_permutation results results' Hp Hd) as [Hs _].
  pose proof (Permutation_length Hp) as Hlen.
  destruct results as [|c1 [|c2 rest]].
  - apply Permutation_nil in Hp. subst. reflexivity.
  - apply Permutation_length_1_inv in Hp. subst. reflexivity.
  - destruct results' as [|d1 [|d2 rest']]; try discriminate.
    unfold mergeChunkedTranscriptions. rewrite <- Hs.
    destruct (sort (c1 :: c2 :: rest)) as [|s0 sorted] eqn:Hsorted;
      [|reflexivity].
    pose proof (Permutation_length (sort_permutation (c1 :: c2 :: rest))) as H.
    rewrite Hsorted in H. discriminate.
Qed.

End Ordered.

End MergeFacts.

(** ** The properties on the sample data *)

(** X11 on the sample data: an empty clip is turned down before anything
    is sent. *)
Lemma empty_clip_is_turned_down :
  exists e,
    Gemini.transcribeAudio Scenario.all_models_answer Scenario.upload_ok
      (Some "key") (Scenario.clip 0) None tt
    = (inl e, {| Gemini.remote := tt; Gemini.lastError := None;
                 Gemini.log := [] |}).
Proof.
  apply (turned_down_input_sends_nothing Scenario.all_models_answer
           Scenario.upload_ok (Some "key") (Scenario.clip 0) None tt).
  right. right. left. reflexivity.
Defined.

(** X12 on the sample data: the third default model, preferred, is listed
    once. *)
Lemma preferred_pro_model_is_listed_once :
  NoDup (Gemini.model_list (Some "gemini-3-pro-preview")).
Proof.
  refine (proj1 (proj2 (preferred_model_goes_first "gemini-3-pro-preview" _))).
  discriminate.
Defined.

(** X13 on the sample data: an upper-case extension after a dotted name. *)
Lemma upper_case_extension_is_supported :
  Gemini.isSupportedFormat "my.talk.MP3" = Gemini.isSupportedFormat "MP3".
Proof.
  exact (proj1 (proj2 (format_is_read_off_the_extension "my.talk" "MP3"
                         eq_refl))).
Defined.

(** X14 on the sample data: an overload reported in capitals, without a
    status. *)
Lemma capital_overload_is_retryable :
  Gemini.isRetryableError
    (Gemini.Thrown true "Model is OVERLOADED now" Gemini.FAbsent Gemini.FAbsent)
  = true.
Proof.
  apply (throttling_messages_are_retryable true "Model is " "OVERLOAD"
           "ED now" Gemini.FAbsent Gemini.FAbsent).
  right. left. reflexivity.
Defined.

(** X18 on the sample data: alice's clip of 125 seconds is charged three
    minutes. *)
Lemma alice_is_charged_three_minutes :
  (Gemini.duration Scenario.sample_transcript <= inject_Z (60 * 3))%Q
  /\ (inject_Z (60 * (3 - 1)) < Gemini.duration Scenario.sample_transcript)%Q.
Proof.
  pose proof (completed_job_is_charged_its_minutes Scenario.all_goes_well 1000
                "job-1" (Orchestrator.new_job "alice" "yt-1") Scenario.sample_db
                Scenario.sample_audio
                (fst (Orchestrator.gemini Scenario.all_goes_well
                        (Orchestrator.createAudioFile Scenario.sample_audio)))
                Scenario.sample_transcript) as H.
  destruct H as (_ & H1 & H2 & _);
    [discriminate | reflexivity | reflexivity | reflexivity | reflexivity
    | split; vm_compute; discriminate | vm_compute; reflexivity |].
  split; [exact H1 | exact H2].
Defined.

(** X19 on the sample data: carol's job, whose transcription reports
    progress 40 and 100. *)
Lemma sample_progress_stays_in_range :
  Forall (fun z => 10 <= z <= 100)
    (Audit.progress_writes
       (Orchestrator.effects
          (snd (Orchestrator.run Scenario.all_goes_well
                  (Orchestrator.POST 1000 (Orchestrator.Body (Some "job-2")))
                  (Orchestrator.fresh Scenario.sample_db))))).
Proof.
  refine (proj1 (written_progress_stays_in_range Scenario.all_goes_well 1000
                   (Orchestrator.Body (Some "job-2")) Scenario.sample_db _)).
  intros f. simpl.
  constructor; [simpl; lia|]. constructor; [simpl; lia|]. constructor.
Defined.

(** X20 on the sample data: alice's poll of carol's job is denied. *)
Lemma alice_cannot_poll_carols_job :
  StatusRoute.handler (Some "alice") (Some "job-2") Samples.stored_views
  = StatusRoute.AccessDenied.
Proof.
  destruct (status_is_shown_to_the_owner_only (Some "carol") (Some "job-2")
              Samples.stored_views _ eq_refl)
    as (uid & jid & v & Hu & _ & _ & _ & _ & _ & _ & _ & Hother).
  injection Hu as <-. apply Hother. discriminate.
Defined.

(** X21 on the sample data: carol's poll of her pending job, once it is
    submitted. *)
Lemma carol_polls_her_pending_job :
  exists body,
    StatusRoute.handler (Some "carol") (Some "job-2") Samples.stored_views
    = StatusRoute.StatusOk body
    /\ (StatusRoute.in_progress (StatusRoute.r_status body) = true
        <-> is_Some (StatusRoute.r_currentStage body)).
Proof.
  assert (Hwaiting : Orchestrator.reachable
                       (Scenario.state_after
                          [Orchestrator.Submit "job-2" "carol" "yt-2"])).
  { apply state_after_reachable. vm_compute. reflexivity. }
  eexists. split; [reflexivity|].
  refine (proj1 (proj2 (proj2 (proj2
            (poll_shows_transcript_iff_completed _
               (Some "carol") (Some "job-2") Samples.stored_views _
               Hwaiting _ eq_refl))))).
  intros jid v. unfold Samples.stored_views.
  destruct (String.eqb_spec jid "job-2") as [->|_]; [|discriminate].
  intros [= <-]. reflexivity.
Defined.

(** X24 on the sample data: of a picker with a video and an audio entry,
    the audio entry's URL is returned. *)
Lemma picker_gives_the_audio_entry :
  Cobalt.ok Samples.picker_answer = true
  /\ Cobalt.c_status (Cobalt.json Samples.picker_answer) <> "error"
  /\ Cobalt.mp3_name "yt-1" <> "".
Proof.
  destruct (audio_url_comes_from_the_answer "yt-1" Samples.picker_answer
              {| Cobalt.au_url := "https://cdn.example/a";
                 Cobalt.au_filename := Cobalt.mp3_name "yt-1" |} eq_refl)
    as (H1 & H2 & H3 & _).
  split; [exact H1|]. split; [exact H2 | exact H3].
Defined.

(** X25 on the sample data: the file made of the picker's audio is
    accepted. *)
Lemma picked_audio_is_accepted :
  Gemini.validateAudioFile
    (Some (Orchestrator.createAudioFile
             {| Orchestrator.byteLength := 4096;
                Orchestrator.filename := Cobalt.mp3_name "yt-1";
                Orchestrator.contentType := "audio/mpeg";
                Orchestrator.reported_size := 4096 |}))
  = Gemini.Valid.
Proof.
  refine (proj2 (proj2 (client_named_file_is_accepted "yt-1"
                          Samples.picker_answer
                          {| Cobalt.au_url := "https://cdn.example/a";
                             Cobalt.au_filename := Cobalt.mp3_name "yt-1" |}
                          4096 4096 "audio/mpeg" eq_refl _ _))).
  - left. reflexivity.
  - unfold Gemini.MAX_FILE_SIZE. lia.
Defined.

(** X26 on the sample data: a file that is ready at the second poll is
    handed over after two pauses. *)
Lemma ready_at_second_poll_is_handed_over :
  exists polls,
    (polls <= 5)%nat /\ 4000 = 2000 * Z.of_nat polls.
Proof.
  exact (proj1 (proj2 (upload_hands_over_active_files_only
                         Samples.upload_counted Samples.poll_ready_at_second
                         5 (Some "key") (Scenario.clip 30000000) 0%nat
                         "https://files.example/abc" 2%nat 4000 eq_refl))).
Defined.

(** X27 on the sample data: a file that stays in processing is waited for
    after 1000 polls and more. *)
Lemma stuck_upload_is_still_waited_for :
  FilesApi.uploadViaFilesApi Samples.upload_stuck Samples.poll_stuck
    1000 (Some "key") (Scenario.clip 30000000) tt = None.
Proof.
  refine (upload_waits_without_timeout Samples.upload_stuck Samples.poll_stuck
            "k" "ey" (Scenario.clip 30000000) tt _ 1000%nat).
  split.
  - intros f p. exists Samples.stuck_file, p. split; reflexivity.
  - intros name p. exists Samples.stuck_file, p. split; reflexivity.
Defined.

(** X29 on the sample data: the two chunks merge to the same transcript
    in either order. *)
Lemma late_chunk_first_merges_the_same :
  Whisper.mergeChunkedTranscriptions Z Z.add Z.max 0 Z.ltb
    [Samples.second_chunk; Samples.first_chunk]
  = Whisper.mergeChunkedTranscriptions Z Z.add Z.max 0 Z.ltb
      [Samples.first_chunk; Samples.second_chunk].
Proof.
  apply (merge_ignores_arrival_order Z Z.add Z.max 0 Z.ltb).
  - intros a b H. apply Z.ltb_lt in H. apply Z.ltb_ge. lia.
  - intros a b c H. apply Z.ltb_lt in H.
    destruct (Z.ltb_spec a b); [left; reflexivity|].
    right. apply Z.ltb_lt. lia.
  - apply perm_swap.
  - split; [|split; [constructor | exact I]].
    constructor; [left; reflexivity | constructor].
Defined.
